(** * The bytecode recogniser kernel (StateIterator / DebugIterator)

    A shallow embedding of the TypeScript kernel that walks a bytecode image
    against a byte reader and reports parse actions to a sink.  Numbers are
    [Z]; the 32-bit coercions of the JavaScript bit operators are written
    out.  Mutable objects are threaded explicitly; loops that the source
    writes as [while (true)] take a fuel argument. *)

From Stdlib Require Import ZArith List Bool String Lia Sorted.
Import ListNotations.
Open Scope Z_scope.

Set Implicit Arguments.

(** ** JavaScript 32-bit integer operators *)

Module JS.

Definition ToInt32 (x : Z) : Z := (x + 2 ^ 31) mod 2 ^ 32 - 2 ^ 31.

Definition ToUint32 (x : Z) : Z := x mod 2 ^ 32.

(** [a & b] *)
Definition and (a b : Z) : Z := ToInt32 (Z.land a b).

(** [a >> n] *)
Definition sar (a n : Z) : Z := Z.shiftr (ToInt32 a) (n mod 32).

(** [a >>> n] *)
Definition shr (a n : Z) : Z := Z.shiftr (ToUint32 a) (n mod 32).

(** [a << n] *)
Definition shl (a n : Z) : Z := ToInt32 (Z.shiftl a (n mod 32)).

(** [if (x)] on a number *)
Definition truthy (x : Z) : bool := negb (x =? 0).

(** [+b] on a boolean *)
Definition of_bool (b : bool) : Z := if b then 1 else 0.

End JS.

(** ** Results of running the kernel *)

Inductive outcome (A : Type) : Type :=
| Done (a : A)
| Thrown (msg : string)
| OutOfFuel.

Arguments Done {A} a.
Arguments Thrown {A} msg.
Arguments OutOfFuel {A}.

Definition bind {A B : Type} (m : outcome A) (k : A -> outcome B) : outcome B :=
  match m with
  | Done a => k a
  | Thrown msg => Thrown msg
  | OutOfFuel => OutOfFuel
  end.

Declare Scope kernel_scope.
Delimit Scope kernel_scope with kernel.
Notation "x <- m ;; k" := (bind m (fun x => k))
  (at level 61, m at next level, right associativity) : kernel_scope.
Notation "' p <- m ;; k" := (bind m (fun x => match x with p => k end))
  (at level 61, p pattern, m at next level, right associativity) : kernel_scope.
Open Scope kernel_scope.

(** ** Tokens *)

(** Modelled from the spec: KernelToken is imported from the common package
    and is not part of the kernel file; its seven fields are the ones the
    kernel reads and writes, [new] zeroes them, [copy] and [impersonate]
    transfer all of them. *)
Record KernelToken : Type := mkToken {
  byte_offset : Z;
  byte_length : Z;
  codepoint_offset : Z;
  codepoint_length : Z;
  line_number : Z;
  line_offset : Z;
  type : Z
}.

Module Token.

Definition new : KernelToken := mkToken 0 0 0 0 0 0 0.

Definition copy (t : KernelToken) : KernelToken := t.

(** [self.impersonate(other)] *)
Definition impersonate (self other : KernelToken) : KernelToken := other.

Definition set_byte_offset (t : KernelToken) (v : Z) : KernelToken :=
  mkToken v (byte_length t) (codepoint_offset t) (codepoint_length t)
          (line_number t) (line_offset t) (type t).

Definition set_byte_length (t : KernelToken) (v : Z) : KernelToken :=
  mkToken (byte_offset t) v (codepoint_offset t) (codepoint_length t)
          (line_number t) (line_offset t) (type t).

Definition set_codepoint_offset (t : KernelToken) (v : Z) : KernelToken :=
  mkToken (byte_offset t) (byte_length t) v (codepoint_length t)
          (line_number t) (line_offset t) (type t).

Definition set_codepoint_length (t : KernelToken) (v : Z) : KernelToken :=
  mkToken (byte_offset t) (byte_length t) (codepoint_offset t) v
          (line_number t) (line_offset t) (type t).

Definition set_line_number (t : KernelToken) (v : Z) : KernelToken :=
  mkToken (byte_offset t) (byte_length t) (codepoint_offset t)
          (codepoint_length t) v (line_offset t) (type t).

Definition set_line_offset (t : KernelToken) (v : Z) : KernelToken :=
  mkToken (byte_offset t) (byte_length t) (codepoint_offset t)
          (codepoint_length t) (line_number t) v (type t).

Definition set_type (t : KernelToken) (v : Z) : KernelToken :=
  mkToken (byte_offset t) (byte_length t) (codepoint_offset t)
          (codepoint_length t) (line_number t) (line_offset t) v.

End Token.

(** The [tokens] array.  The kernel creates it with two entries and only
    ever appends to it or truncates it back to two, so the two live entries
    are fields and the transient peek tokens are the list behind them. *)
Record TokenArray : Type := mkTokens {
  tokens_0 : KernelToken;
  tokens_1 : KernelToken;
  tokens_peek : list KernelToken
}.

Module Tokens.

Definition length (ts : TokenArray) : Z := 2 + Z.of_nat (List.length (tokens_peek ts)).

(** [tokens[tokens.length - 1]] *)
Definition last (ts : TokenArray) : KernelToken :=
  List.last (tokens_peek ts) (tokens_1 ts).

(** replaces the object at [tokens[tokens.length - 1]] *)
Definition set_last (ts : TokenArray) (t : KernelToken) : TokenArray :=
  match tokens_peek ts with
  | [] => mkTokens (tokens_0 ts) t []
  | p => mkTokens (tokens_0 ts) (tokens_1 ts) (removelast p ++ [t])
  end.

Definition push (ts : TokenArray) (t : KernelToken) : TokenArray :=
  mkTokens (tokens_0 ts) (tokens_1 ts) (tokens_peek ts ++ [t]).

(** [tokens.length = 2] *)
Definition truncate (ts : TokenArray) : TokenArray :=
  mkTokens (tokens_0 ts) (tokens_1 ts) [].

Definition set_0 (ts : TokenArray) (t : KernelToken) : TokenArray :=
  mkTokens t (tokens_1 ts) (tokens_peek ts).

Definition set_1 (ts : TokenArray) (t : KernelToken) : TokenArray :=
  mkTokens (tokens_0 ts) t (tokens_peek ts).

(** [tokens.slice().map(t => t.copy())] *)
Definition deep_copy (ts : TokenArray) : TokenArray :=
  mkTokens (Token.copy (tokens_0 ts)) (Token.copy (tokens_1 ts))
           (map Token.copy (tokens_peek ts)).

End Tokens.

(** ** The byte reader interface *)

(** Modelled from the spec: ByteReader is an interface of the common
    package; the kernel only calls the methods below.  [next] and
    [setCursorTo] move the cursor, so they return the moved reader;
    [clone] is the identity on values. *)
Module Reader.

Class ByteReader (R : Type) : Type := {
  END : R -> bool;
  offset_at_end : R -> Z -> bool;
  next : R -> Z -> R;
  setCursorTo : R -> KernelToken -> bool * R;
  line_count : R -> Z;
  line_offset : R -> Z;
  class : R -> Z;
  codepoint : R -> Z;
  codepoint_byte_length : R -> Z;
  codepoint_length : R -> Z;
  byte : R -> Z;
  clone : R -> R
}.

End Reader.

(** ** Constants of the common package *)

(** Modelled from the spec: the state-pointer masks and the token type that
    marks skipped input are constants imported from the common package. *)
Class KernelConstants : Type := {
  normal_state_mask : Z;
  goto_state_mask : Z;
  state_index_mask : Z;
  instruction_pointer_mask : Z;
  skipped_scan_prod : Z
}.

(** ** The execution stack *)

Module Stack.

(** Modelled from the spec: KernelStack lives in stack.js, which is not
    part of the kernel file.  It is a pair of zero-initialised 32-bit
    arrays indexed by [pointer]; entry 0 is never pushed to, so the stack
    is empty when [pointer < 1]; popped entries stay in the arrays, which
    is what lets the kernel read the meta slot of the state it has just
    popped at [pointer + 1]. *)
Record KernelStack : Type := mkStack {
  state_stack : list Z;
  meta_stack : list Z;
  pointer : Z
}.

Definition get (a : list Z) (i : Z) : Z :=
  if i <? 0 then 0 else nth (Z.to_nat i) a 0.

Fixpoint set_nat (a : list Z) (i : nat) (v : Z) : list Z :=
  match i, a with
  | O, [] => [v]
  | O, _ :: a' => v :: a'
  | S i', [] => 0 :: set_nat [] i' v
  | S i', x :: a' => x :: set_nat a' i' v
  end.

Definition set (a : list Z) (i : Z) (v : Z) : list Z :=
  if i <? 0 then a else set_nat a (Z.to_nat i) (JS.ToUint32 v).

Definition new : KernelStack := mkStack [] [] 0.

Definition push_state (s : KernelStack) (kernel_state meta : Z) : KernelStack :=
  let p := pointer s + 1 in
  mkStack (set (state_stack s) p kernel_state) (set (meta_stack s) p meta) p.

Definition reset (s : KernelStack) (kernel_state : Z) : KernelStack :=
  push_state (mkStack (state_stack s) (meta_stack s) 0) kernel_state 0.

Definition read_state (s : KernelStack) : Z := get (state_stack s) (pointer s).

Definition pop_state (s : KernelStack) : Z * KernelStack :=
  (read_state s, mkStack (state_stack s) (meta_stack s) (pointer s - 1)).

Definition swap_state (s : KernelStack) (kernel_state : Z) : KernelStack :=
  mkStack (set (state_stack s) (pointer s) kernel_state) (meta_stack s) (pointer s).

Definition clone (s : KernelStack) : KernelStack := s.

Definition debug_clone (s : KernelStack) : KernelStack := s.

End Stack.

(** ** Parse actions *)

Inductive ParseAction : Type :=
| REDUCE (body length production : Z)
| SHIFT (token : KernelToken)
| SKIP (offset length line token_type : Z)
| ACCEPT
| ERROR (tk_type tk_offset tk_length last_state production : Z)
| FORK (pointer : Z)
| TOKEN (token : KernelToken)
| LAZY (state_pointer line offset length : Z).

(** ** The bytecode image *)

(** [bytecode[index]]; [None] is JavaScript's [undefined]. *)
Definition word (bytecode : list Z) (index : Z) : option Z :=
  if index <? 0 then None else nth_error bytecode (Z.to_nat index).

(** [undefined] coerces to 0 under the bit operators and when it is stored
    in a typed array. *)
Definition num (w : option Z) : Z :=
  match w with Some v => v | None => 0 end.

(** ** StateIterator *)

Module Iterator.

Section Kernel.

Context {R : Type} {BR : Reader.ByteReader R} {K : KernelConstants}.

(** The fields of the class.  [handler] is the sink given to [start]: it
    answers [Some msg] when it throws on an action.  [emitted] is the
    sequence of actions the sink has accepted so far, each as it was when
    the sink was called.  The fork handler cannot be a field of a record it
    takes as argument, so the functions that use it take it as parameter. *)
Record StateIterator : Type := mkIter {
  stack : Stack.KernelStack;
  reader : R;
  tokens : TokenArray;
  bytecode : list Z;
  symbol_accumulator : Z;
  ACTION_BUFFER_EMPTY : bool;
  production_id : Z;
  SCANNER : bool;
  handler : ParseAction -> option string;
  emitted : list ParseAction
}.

Definition with_stack (it : StateIterator) (v : Stack.KernelStack) : StateIterator :=
  mkIter v (reader it) (tokens it) (bytecode it) (symbol_accumulator it)
         (ACTION_BUFFER_EMPTY it) (production_id it) (SCANNER it) (handler it) (emitted it).

Definition with_reader (it : StateIterator) (v : R) : StateIterator :=
  mkIter (stack it) v (tokens it) (bytecode it) (symbol_accumulator it)
         (ACTION_BUFFER_EMPTY it) (production_id it) (SCANNER it) (handler it) (emitted it).

Definition with_tokens (it : StateIterator) (v : TokenArray) : StateIterator :=
  mkIter (stack it) (reader it) v (bytecode it) (symbol_accumulator it)
         (ACTION_BUFFER_EMPTY it) (production_id it) (SCANNER it) (handler it) (emitted it).

Definition with_symbol_accumulator (it : StateIterator) (v : Z) : StateIterator :=
  mkIter (stack it) (reader it) (tokens it) (bytecode it) v
         (ACTION_BUFFER_EMPTY it) (production_id it) (SCANNER it) (handler it) (emitted it).

Definition with_ACTION_BUFFER_EMPTY (it : StateIterator) (v : bool) : StateIterator :=
  mkIter (stack it) (reader it) (tokens it) (bytecode it) (symbol_accumulator it)
         v (production_id it) (SCANNER it) (handler it) (emitted it).

Definition with_production_id (it : StateIterator) (v : Z) : StateIterator :=
  mkIter (stack it) (reader it) (tokens it) (bytecode it) (symbol_accumulator it)
         (ACTION_BUFFER_EMPTY it) v (SCANNER it) (handler it) (emitted it).

Definition with_handler (it : StateIterator) (v : ParseAction -> option string) : StateIterator :=
  mkIter (stack it) (reader it) (tokens it) (bytecode it) (symbol_accumulator it)
         (ACTION_BUFFER_EMPTY it) (production_id it) (SCANNER it) v (emitted it).

Definition with_emitted (it : StateIterator) (v : list ParseAction) : StateIterator :=
  mkIter (stack it) (reader it) (tokens it) (bytecode it) (symbol_accumulator it)
         (ACTION_BUFFER_EMPTY it) (production_id it) (SCANNER it) (handler it) v.

Definition with_tokens_0 (it : StateIterator) (t : KernelToken) : StateIterator :=
  with_tokens it (Tokens.set_0 (tokens it) t).

Definition with_tokens_1 (it : StateIterator) (t : KernelToken) : StateIterator :=
  with_tokens it (Tokens.set_1 (tokens it) t).

(** [fork_handler(arg, iterator)]: the actions to replay and the iterator as
    the handler left it. *)
Definition ForkHandler : Type :=
  ParseAction -> StateIterator -> list ParseAction * StateIterator.

(** [new StateIterator(base_byte_reader, bytecode_buffer, entry_pointer, SCANNER)] *)
Definition new (base_byte_reader : R) (bytecode_buffer : list Z)
    (entry_pointer : Z) (scanner_role : bool) : StateIterator :=
  mkIter (Stack.reset Stack.new entry_pointer) base_byte_reader
         (mkTokens Token.new Token.new []) bytecode_buffer 0 true (-1)
         scanner_role (fun _ => None) [].

Definition emit (it : StateIterator) (action : ParseAction) : outcome StateIterator :=
  match handler it action with
  | Some msg => Thrown msg
  | None => Done (with_emitted it (emitted it ++ [action]))
  end.

Definition emitShift (it : StateIterator) : outcome StateIterator :=
  let it := with_ACTION_BUFFER_EMPTY it false in
  let it := with_symbol_accumulator it (symbol_accumulator it + 1) in
  let token := tokens_1 (tokens it) in
  let prev_token := tokens_0 (tokens it) in
  it <- (if negb (byte_offset prev_token + byte_length prev_token =? byte_offset token)
         then emit it (SKIP (codepoint_offset prev_token)
                            (codepoint_offset token
                             - (codepoint_length prev_token + codepoint_offset prev_token))
                            (line_number prev_token) 0)
         else Done it) ;;
  emit it (SHIFT token).

(** The tail both branches of [consume] share: the cursor and the
    lookahead token move past the token's span. *)
Definition advance_token (r : R) (token : KernelToken) : R * KernelToken :=
  let r := Reader.next r (byte_length token) in
  let token := Token.set_codepoint_offset token (codepoint_offset token + codepoint_length token) in
  let token := Token.set_byte_offset token (byte_offset token + byte_length token) in
  let token := Token.set_codepoint_length token 0 in
  let token := Token.set_byte_length token 0 in
  let token := Token.set_type token 0 in
  (r, token).

Definition consume (it : StateIterator) (instruction : Z) : outcome StateIterator :=
  let token := tokens_1 (tokens it) in
  let token :=
    if JS.truthy (JS.and instruction 1)
    then Token.set_byte_length (Token.set_codepoint_length token 0) 0
    else token in
  let it := with_tokens_1 it token in
  if SCANNER it then
    let '(r, token) := advance_token (reader it) token in
    Done (with_tokens_1 (with_reader it r) token)
  else
    it <- emitShift it ;;
    let '(r, token) := advance_token (reader it) token in
    let it := with_tokens_1 (with_reader it r) token in
    Done (with_tokens_0 it (Token.impersonate (tokens_0 (tokens it)) token)).

Definition emitReduce (it : StateIterator) (symbol_length body_id : Z) : outcome StateIterator :=
  let it := with_ACTION_BUFFER_EMPTY it false in
  emit it (REDUCE body_id symbol_length (production_id it)).

Definition set_production (it : StateIterator) (instruction : Z) : StateIterator :=
  with_production_id it (JS.and instruction 0xFFFFFFF).

Definition reduce (it : StateIterator) (instruction index recover_data : Z)
    : outcome (Z * StateIterator) :=
  let body_id := JS.and instruction 0xFFFF in
  let length := JS.and (JS.sar instruction 16) 0xFFF in
  it <- (if JS.and body_id 0xFFFF =? 0xFFFF then
           let accumulated_symbols := symbol_accumulator it - JS.and recover_data 0xFFFF in
           let len := accumulated_symbols in
           let fn_id := JS.and (JS.sar instruction 16) 0x0FFF in
           emitReduce it len fn_id
         else
           let it := with_symbol_accumulator it (symbol_accumulator it - (length - 1)) in
           emitReduce it length body_id) ;;
  if JS.and (num (word (bytecode it) index)) 0xF0000000 =? 0x30000000 then
    Done (index + 1, set_production it (num (word (bytecode it) index)))
  else Done (index, it).

Definition try_lazy (index instruction : Z) : Z := index + 2.

Definition pass : bool := false.

Definition advanced_return (instruction : Z) (fail_mode : bool) : bool :=
  if JS.truthy (JS.and instruction 1) then fail_mode else true.

Definition assert_consume (it : StateIterator) (index instruction : Z)
    : outcome (Z * StateIterator) :=
  let mode := JS.and instruction 0x0F000000 in
  let val := JS.and instruction 0x00FFFFFF in
  let token := tokens_1 (tokens it) in
  let r := reader it in
  let with_lengths (bl cl : Z) :=
    with_tokens_1 it (Token.set_codepoint_length (Token.set_byte_length token bl) cl) in
  let matched (it' : StateIterator) :=
    it'' <- consume it' 0 ;; Done (index, it'') in
  if mode =? 0x00000000 then
    let it' := with_lengths (Reader.codepoint_byte_length r) (Reader.codepoint_length r) in
    if negb (val =? Reader.class r) then Done (2, it') else matched it'
  else if mode =? 0x01000000 then
    let it' := with_lengths (Reader.codepoint_byte_length r) (Reader.codepoint_length r) in
    if negb (val =? Reader.codepoint r) then Done (2, it') else matched it'
  else if mode =? 0x02000000 then
    let it' := with_lengths 1 1 in
    if negb (val =? Reader.byte r) then Done (2, it') else matched it'
  else matched it.

Definition set_token (it : StateIterator) (instruction index : Z)
    : outcome (Z * StateIterator) :=
  let value := JS.and instruction 0xFFFFFF in
  it <- (if JS.truthy (JS.and instruction 0x01000000) then consume it 0 else Done it) ;;
  if JS.truthy (JS.and instruction 0x08000000) then
    let it := with_production_id it value in
    let t0 := tokens_0 (tokens it) in
    let t1 := tokens_1 (tokens it) in
    let t0 := Token.set_type t0 value in
    let t0 := Token.set_byte_length t0 (byte_offset t1 - byte_offset t0) in
    let t0 := Token.set_codepoint_length t0 (codepoint_offset t1 - codepoint_offset t0) in
    Done (index, with_tokens_0 it t0)
  else
    let token := tokens_1 (tokens it) in
    let token := Token.set_codepoint_length token value in
    let token := Token.set_byte_length token value in
    Done (index, with_tokens_1 it token).

(** The [while] of [goto]: it walks the words that follow the instruction,
    so it recurses on the rest of the image. *)
Fixpoint goto_chain (rest : list Z) (symbols : Z) (s : Stack.KernelStack) (index : Z)
    : Z * Stack.KernelStack :=
  match rest with
  | w :: rest' =>
      if JS.and w 0xF0000000 =? 0x20000000
      then goto_chain rest' symbols (Stack.push_state s w symbols) (index + 1)
      else (index, s)
  | [] => (index, s)
  end.

Definition goto (it : StateIterator) (instruction index : Z) : Z * StateIterator :=
  let s := Stack.push_state (stack it) instruction (symbol_accumulator it) in
  let rest := if index <? 0 then [] else skipn (Z.to_nat index) (bytecode it) in
  let '(index, s) := goto_chain rest (symbol_accumulator it) s index in
  (index, with_stack it s).

Definition repeat (index instruction : Z) : Z :=
  let origin_offset := JS.and 0xFFFFFFF instruction in
  index - origin_offset.

Definition push_fail_state (it : StateIterator) (instruction : Z) : StateIterator :=
  let fail_state_pointer := JS.shr instruction 0 in
  let current_state := JS.and (Stack.read_state (stack it)) instruction_pointer_mask in
  if negb (current_state =? JS.and (JS.shr fail_state_pointer 0) instruction_pointer_mask)
  then with_stack it (Stack.push_state (stack it) (JS.shr fail_state_pointer 0)
                                       (symbol_accumulator it))
  else with_stack it (Stack.swap_state (stack it) fail_state_pointer).

Definition error (it : StateIterator) : StateIterator :=
  with_ACTION_BUFFER_EMPTY it false.

(** *** Input values and the jump tables *)

Section WithScanner.

(** [this.scanner(current_token, scanner_start_pointer)], defined below; the
    functions of this section only call it. *)
Variable scanner : StateIterator -> KernelToken -> Z -> outcome KernelToken.

(** The inner [switch (input_type)] of both branches of [get_input_value],
    applied to the token [token] that sits at the end of the array
    ([at_end]) or at index 1. *)
Definition read_input (it : StateIterator) (at_end : bool) (token : KernelToken)
    (input_type scanner_start_pointer : Z) : outcome (Z * StateIterator) :=
  let store (it : StateIterator) (t : KernelToken) :=
    if at_end then with_tokens it (Tokens.set_last (tokens it) t)
    else with_tokens_1 it t in
  let r := reader it in
  let with_lengths (bl cl : Z) :=
    store it (Token.set_codepoint_length (Token.set_byte_length token bl) cl) in
  match input_type with
  | 1 =>
      t <- scanner it token scanner_start_pointer ;;
      Done (type t, store it t)
  | 2 =>
      Done (Reader.class r,
            with_lengths (Reader.codepoint_byte_length r) (Reader.codepoint_length r))
  | 3 =>
      Done (Reader.codepoint r,
            with_lengths (Reader.codepoint_byte_length r) (Reader.codepoint_length r))
  | 4 => Done (Reader.byte r, with_lengths 1 1)
  | _ => Done (0, it)
  end.

Definition get_input_value (it : StateIterator)
    (input_type token_transition scanner_start_pointer : Z)
    : outcome (Z * StateIterator) :=
  if input_type >? 0 then
    match token_transition with
    | 1 =>
        let token := Tokens.last (tokens it) in
        let it := with_reader it (Reader.next (reader it) (byte_length token)) in
        if Reader.END (reader it) then Done (0, it)
        else
          let new_token := Token.copy token in
          let it := with_tokens it (Tokens.push (tokens it) new_token) in
          let new_token := Token.set_type new_token 0 in
          let new_token :=
            Token.set_byte_offset new_token (byte_offset token + byte_length token) in
          let it := with_tokens it (Tokens.set_last (tokens it) new_token) in
          read_input it true new_token input_type scanner_start_pointer
    | _ =>
        if Reader.END (reader it) then Done (1, it)
        else
          let token := tokens_1 (tokens it) in
          if Tokens.length (tokens it) >? 2 then
            let it := with_tokens it (Tokens.truncate (tokens it)) in
            let '(ok, r) := Reader.setCursorTo (reader it) token in
            let it := with_reader it r in
            if negb ok then Done (0, error it)
            else
              let token := Token.set_type token 0 in
              let it := with_tokens_1 it token in
              read_input it false token input_type scanner_start_pointer
          else read_input it false token input_type scanner_start_pointer
    end
  else Done (production_id it, it).

(** The probe loop of [hash_jump]. *)
Fixpoint hash_probe (fuel : nat) (bytecode : list Z)
    (hash_table_start instruction_field_start instruction_field_size : Z)
    (input_value hash_index : Z) : outcome Z :=
  match fuel with
  | O => OutOfFuel
  | S fuel' =>
      let cell := num (word bytecode (hash_table_start + hash_index)) in
      let value := JS.and cell 0x7FF in
      let next := JS.and (JS.shr cell 22) 0x3FF - 512 in
      if value =? input_value then
        let instruction_start := JS.and (JS.sar cell 11) 0x7FF in
        Done (instruction_field_start + instruction_start)
      else if next =? 0 then
        Done (instruction_field_size + instruction_field_start)
      else
        hash_probe fuel' bytecode hash_table_start instruction_field_start
                   instruction_field_size input_value (hash_index + next)
  end.

(** What [hash_jump] does with the input value once it has it. *)
Definition hash_jump_target (fuel : nat) (bytecode : list Z)
    (index instruction input_value : Z) : outcome Z :=
  let table_data := num (word bytecode (index + 1)) in
  let index := index + 2 in
  let modulus := JS.shl 1 (JS.and (JS.shr table_data 16) 0xFFFF) - 1 in
  let table_size := JS.and table_data 0xFFFF in
  let hash_table_start := index in
  let instruction_field_start := hash_table_start + table_size in
  let instruction_field_size := JS.and instruction 0xFFFF in
  let hash_index := JS.and input_value modulus in
  hash_probe fuel bytecode hash_table_start instruction_field_start
             instruction_field_size input_value hash_index.

Definition hash_jump (fuel : nat) (it : StateIterator) (index instruction : Z)
    : outcome (Z * StateIterator) :=
  let input_type := JS.and (JS.sar instruction 22) 0x7 in
  let lexer_type := JS.and (JS.sar instruction 26) 0x3 in
  let scanner_start_pointer := num (word (bytecode it) index) in
  '(input_value, it) <- get_input_value it input_type lexer_type scanner_start_pointer ;;
  target <- hash_jump_target fuel (bytecode it) index instruction input_value ;;
  Done (target, it).

(** What [index_jump] does with the input value once it has it. *)
Definition index_jump_target (bytecode : list Z) (index instruction value : Z) : Z :=
  let table_data := num (word bytecode (index + 1)) in
  let basis__ := JS.and instruction 0xFFFF in
  let input_value := value - basis__ in
  let number_of_rows := JS.sar table_data 16 in
  let row_size := JS.and table_data 0xFFFF in
  let index := index + 2 in
  if (input_value >=? 0) && (input_value <? number_of_rows)
  then index + input_value * row_size + row_size
  else index.

Definition index_jump (it : StateIterator) (index instruction : Z)
    : outcome (Z * StateIterator) :=
  let scanner_start_pointer := num (word (bytecode it) index) in
  let input_type := JS.and (JS.sar instruction 22) 0x7 in
  let lexer_type := JS.and (JS.sar instruction 26) 0x3 in
  '(value, it) <- get_input_value it input_type lexer_type scanner_start_pointer ;;
  Done (index_jump_target (bytecode it) index instruction value, it).

(** *** SCAN_TO *)

(** The [for] loop of [scan_to]: is the token type one of the words
    [bytecode[start .. end)]?  A word outside the image is [undefined] and
    equals no type. *)
Definition type_listed (bytecode : list Z) (start length token_type : Z) : bool :=
  existsb (fun k => match word bytecode (start + Z.of_nat k) with
                    | Some w => token_type =? w
                    | None => false
                    end)
          (seq 0 (Z.to_nat length)).

(** The end of one turn of the [while (RUN)] loop of [scan_to]: the scratch
    token moves past what the scanner found.  [scanner] returns the token it
    was given, so [token] and [temp_token] name one object, and the
    codepoint offset is added to itself. *)
Definition scan_past (token : KernelToken) : KernelToken :=
  let temp_token :=
    if byte_length token >? 0 then
      let t := Token.set_byte_offset token (byte_offset token + byte_length token) in
      Token.set_codepoint_offset t (codepoint_offset t + codepoint_offset t)
    else
      let t := Token.set_byte_offset token (byte_offset token + 1) in
      Token.set_codepoint_offset t (codepoint_offset t + 1) in
  let temp_token := Token.set_byte_length temp_token 0 in
  Token.set_codepoint_length temp_token 0.

(** The [while (RUN)] loop of [scan_to].  [Some t] is the scratch token when
    a listed type was found, [None] is the [return 1] in the middle of the
    loop. *)
Fixpoint scan_to_loop (fuel : nat) (it : StateIterator)
    (scanner_index start length : Z) (temp_token : KernelToken)
    : outcome (option KernelToken) :=
  match fuel with
  | O => OutOfFuel
  | S fuel' =>
      token <- scanner it temp_token scanner_index ;;
      if type_listed (bytecode it) start length (type token) then Done (Some token)
      else if Reader.offset_at_end (reader it) (byte_offset token) then Done None
      else scan_to_loop fuel' it scanner_index start length (scan_past token)
  end.

Definition scan_to (fuel : nat) (it : StateIterator) (index instruction : Z)
    : outcome (Z * StateIterator) :=
  let length := JS.and instruction 0xFFFF in
  let scanner_index := num (word (bytecode it) index) in
  let temp_token := Token.copy (tokens_1 (tokens it)) in
  let prev_token := tokens_0 (tokens it) in
  let temp_token := Token.set_type temp_token 0 in
  let index := index + 1 in
  let scan_back := JS.and instruction 0x00100000 >? 0 in
  let start := index in
  let index := index + length in
  let temp_token :=
    if scan_back then
      let t := Token.set_byte_offset temp_token (byte_offset prev_token) in
      let t := Token.set_codepoint_offset t (codepoint_offset prev_token) in
      let t := Token.set_byte_length t 0 in
      Token.set_codepoint_length t 0
    else temp_token in
  found <- scan_to_loop fuel it scanner_index start length temp_token ;;
  match found with
  | None => Done (1, it)
  | Some temp_token =>
      if negb scan_back
      then Done (index, with_tokens_1 it (Token.impersonate (tokens_1 (tokens it)) temp_token))
      else Done (index, it)
  end.

(** *** FORK *)

Fixpoint emit_all (it : StateIterator) (buffer : list ParseAction) : outcome StateIterator :=
  match buffer with
  | [] => Done it
  | action :: buffer' => it <- emit it action ;; emit_all it buffer'
  end.

(** [fork_handler] is [None] while no [start] has stored one. *)
Definition fork (fork_handler : option ForkHandler) (it : StateIterator)
    (instruction index : Z) : outcome (Z * StateIterator) :=
  let it := with_ACTION_BUFFER_EMPTY it false in
  match fork_handler with
  | None => Thrown "TypeError: this.fork_handler is not a function"
  | Some fh =>
      let '(buffer, it) := fh (FORK (index - 1)) it in
      if Z.of_nat (List.length buffer) >? 0 then
        it <- emit_all it buffer ;; Done (1, it)
      else Done (0, it)
  end.

(** *** The instruction loop *)

Inductive step_result : Type :=
| Continue (index : Z) (it : StateIterator)
| Return (fail_mode : bool) (it : StateIterator).

Definition continue (r : outcome (Z * StateIterator)) : outcome step_result :=
  '(index, it) <- r ;; Done (Continue index it).

(** One turn of the [switch] in [instruction_executor]; [index] is already
    past the instruction. *)
Definition execute (fuel : nat) (fork_handler : option ForkHandler)
    (it : StateIterator) (instruction index recover_data : Z) (fail_mode : bool)
    : outcome step_result :=
  match JS.and (JS.sar instruction 28) 0xF with
  | 1 => it <- consume it instruction ;; Done (Continue index it)
  | 2 => let '(index, it) := goto it instruction index in Done (Continue index it)
  | 3 => Done (Continue index (set_production it instruction))
  | 4 => continue (reduce it instruction index recover_data)
  | 5 => continue (set_token it instruction index)
  | 6 => continue (fork fork_handler it instruction index)
  | 7 => continue (scan_to fuel it index instruction)
  | 8 | 9 => continue (index_jump it index instruction)
  | 10 => continue (hash_jump fuel it index instruction)
  | 11 => Done (Continue index (push_fail_state it instruction))
  | 12 => Done (Continue (repeat index instruction) it)
  | 13 => Done (Continue (try_lazy index instruction) it)
  | 14 => continue (assert_consume it index instruction)
  | 15 => Done (Return (advanced_return instruction fail_mode) it)
  | _ => Done (Return pass it)
  end.

Fixpoint instruction_loop (fuel : nat) (fork_handler : option ForkHandler)
    (it : StateIterator) (index recover_data : Z) (fail_mode : bool)
    : outcome (bool * StateIterator) :=
  match fuel with
  | O => OutOfFuel
  | S fuel' =>
      let instruction := num (word (bytecode it) index) in
      let index := index + 1 in
      r <- execute fuel' fork_handler it instruction index recover_data fail_mode ;;
      match r with
      | Continue index it => instruction_loop fuel' fork_handler it index recover_data fail_mode
      | Return fail_mode it => Done (fail_mode, it)
      end
  end.

Definition instruction_executor (fuel : nat) (fork_handler : option ForkHandler)
    (it : StateIterator) (state_pointer : Z) (fail_mode : bool)
    : outcome (bool * StateIterator) :=
  let index := JS.and state_pointer state_index_mask in
  let recover_data := Stack.get (Stack.meta_stack (stack it)) (Stack.pointer (stack it) + 1) in
  instruction_loop fuel fork_handler it index recover_data fail_mode.

(** *** The driver loop *)

(** The action [start] reports when the stack is empty. *)
Definition final_action (it : StateIterator) (root : Z) (fail_mode : bool)
    (last_good_state : Z) : ParseAction :=
  let token := tokens_0 (tokens it) in
  let advanced := tokens_1 (tokens it) in
  let error_action :=
    ERROR (type advanced) (codepoint_offset advanced) (codepoint_length advanced)
          last_good_state (production_id it) in
  if SCANNER it then TOKEN token
  else if fail_mode then error_action
  else if (root >=? 0) && (production_id it =? root) then ACCEPT
  else if Reader.offset_at_end (reader it) (byte_offset (tokens_1 (tokens it))) then ACCEPT
  else error_action.

Fixpoint start_loop (fuel : nat) (fork_handler : option ForkHandler) (root : Z)
    (it : StateIterator) (fail_mode : bool) (last_good_state : Z)
    : outcome StateIterator :=
  match fuel with
  | O => OutOfFuel
  | S fuel' =>
      if Stack.pointer (stack it) <? 1 then
        emit it (final_action it root fail_mode last_good_state)
      else
        let '(state, s) := Stack.pop_state (stack it) in
        let it := with_stack it s in
        if state >? 0 then
          let mask_gate := JS.shl normal_state_mask (JS.of_bool fail_mode) in
          let last_good_state := if fail_mode then last_good_state else state in
          if JS.truthy (JS.and state mask_gate) then
            '(fail_mode, it) <- instruction_executor fuel' fork_handler it state fail_mode ;;
            start_loop fuel' fork_handler root it fail_mode last_good_state
          else start_loop fuel' fork_handler root it fail_mode last_good_state
        else start_loop fuel' fork_handler root it fail_mode last_good_state
  end.

(** [start(handler, fork_handler, root)] *)
Definition start_with (fuel : nat) (it : StateIterator)
    (sink : ParseAction -> option string) (fork_handler : ForkHandler) (root : Z)
    : outcome StateIterator :=
  let it := with_handler it sink in
  let fail_mode := false in
  let last_good_state := -1 in
  let it :=
    if SCANNER it then
      let token := tokens_0 (tokens it) in
      let token := Token.set_line_number token (Reader.line_count (reader it)) in
      let token := Token.set_line_offset token (Reader.line_offset (reader it)) in
      with_tokens_0 it token
    else it in
  start_loop fuel (Some fork_handler) root it fail_mode last_good_state.

End WithScanner.

(** *** The scanner: a nested iterator over the same image *)

(** The sink [scanner] gives to the nested iterator, as far as throwing
    goes; what it does with a TOKEN is in [scanner_loop]. *)
Definition scanner_sink (result : ParseAction) : option string :=
  match result with
  | TOKEN _ => None
  | FORK _ => Some "Scanner Fork Not Implemented"%string
  | _ => Some "Scanner Yielded Invalid Action"%string
  end.

(** [a => []] *)
Definition no_forks : ForkHandler := fun _ it => ([], it).

(** The [while (ACTIVE)] loop of [scanner].  [run] is [scanner.start] with
    the sink above.  The only action that sink accepts is the TOKEN that
    [start] reports last, so what the sink does with it is done here, when
    [start] has returned. *)
Fixpoint scanner_loop (run : StateIterator -> outcome StateIterator) (fuel : nat)
    (scanner : StateIterator) (current_token : KernelToken)
    (scanner_start_pointer : Z) : outcome KernelToken :=
  match fuel with
  | O => OutOfFuel
  | S fuel' =>
      scanner <- run scanner ;;
      match List.last (emitted scanner) ACCEPT with
      | TOKEN token =>
          if type token =? skipped_scan_prod then
            let current_token :=
              Token.set_codepoint_offset current_token
                (codepoint_offset current_token + codepoint_length token) in
            let current_token :=
              Token.set_byte_offset current_token
                (byte_offset current_token + byte_length token) in
            let current_token := Token.set_line_offset current_token (line_offset token) in
            let current_token := Token.set_line_number current_token (line_number token) in
            let scanner :=
              with_stack scanner (Stack.reset (stack scanner) scanner_start_pointer) in
            let scanner :=
              with_tokens_0 scanner
                (Token.impersonate (tokens_0 (tokens scanner)) (tokens_1 (tokens scanner))) in
            scanner_loop run fuel' scanner current_token scanner_start_pointer
          else
            let current_token :=
              Token.set_codepoint_length current_token (codepoint_length token) in
            let current_token := Token.set_byte_length current_token (byte_length token) in
            let current_token := Token.set_type current_token (type token) in
            let current_token := Token.set_line_offset current_token (line_offset token) in
            let current_token := Token.set_line_number current_token (line_number token) in
            Done current_token
      | _ => Thrown "Scanner Yielded Invalid Action"
      end
  end.

(** The nested iterator [scanner] builds before it enters its loop. *)
Definition scanner_iterator (it : StateIterator) (current_token : KernelToken)
    (scanner_start_pointer : Z) : StateIterator :=
  let clone := Reader.clone (reader it) in
  let clone := snd (Reader.setCursorTo clone current_token) in
  let scanner := new clone (bytecode it) scanner_start_pointer true in
  let scanner :=
    with_tokens_1 scanner (Token.impersonate (tokens_1 (tokens scanner)) current_token) in
  with_tokens_0 scanner (Token.impersonate (tokens_0 (tokens scanner)) current_token).

Fixpoint scanner (fuel : nat) (it : StateIterator) (current_token : KernelToken)
    (scanner_start_pointer : Z) {struct fuel} : outcome KernelToken :=
  match fuel with
  | O => OutOfFuel
  | S fuel' =>
      scanner_loop
        (fun sc => start_with (scanner fuel') fuel' sc scanner_sink no_forks (-1))
        fuel' (scanner_iterator it current_token scanner_start_pointer)
        current_token scanner_start_pointer
  end.

(** [start], with every loop and every nested scanner bounded by [fuel].
    The tracing hook [peek], which [start] calls before it runs a block and
    which does nothing unless one is installed, is left out. *)
Definition start (fuel : nat) (it : StateIterator)
    (sink : ParseAction -> option string) (fork_handler : ForkHandler) (root : Z)
    : outcome StateIterator :=
  start_with (scanner fuel) fuel it sink fork_handler root.

End Kernel.

End Iterator.

(** ** DebugIterator *)

Module Debug.

Section Stepper.

Context {R : Type} {BR : Reader.ByteReader R} {K : KernelConstants}.

Record DebugState : Type := mkDebugState {
  state : Z;
  ACTIVE : bool;
  stack : Stack.KernelStack;
  tokens : TokenArray;
  symbol_accumulator : Z;
  production_id : Z;
  fail_mode : bool;
  last_good_state : Z;
  byte_reader : R;
  actions : list ParseAction
}.

(** A DebugIterator is a StateIterator ([base], whose [emitted] plays the
    part of [active_debug_state.actions], since the overridden [emit]
    pushes there and never calls the sink) with the fork handler a [start]
    may have stored and the snapshot it produced last.  An action is
    recorded as it was when it was emitted; the token of a SHIFT is the
    lookahead object itself, which the step goes on to move. *)
Record DebugIterator : Type := mkDebug {
  base : Iterator.StateIterator (R := R);
  fork_handler : option (Iterator.ForkHandler (R := R));
  active_debug_state : DebugState
}.

Definition new (base_byte_reader : R) (bytecode_buffer : list Z) (entry_pointer : Z)
    : DebugIterator :=
  let it := Iterator.new base_byte_reader bytecode_buffer entry_pointer false in
  mkDebug it None
    (mkDebugState (JS.and entry_pointer state_index_mask) true (Iterator.stack it)
       (Iterator.tokens it) (Iterator.symbol_accumulator it) (-1) false (-1)
       (Iterator.reader it) []).

(** [next_state(prev_state, goal_production)]: the snapshot it returns and
    the iterator as the call leaves it. *)
Definition next_state (fuel : nat) (d : DebugIterator) (prev_state : DebugState)
    (goal_production : Z) : outcome (DebugState * DebugIterator) :=
  let fail_mode0 := fail_mode prev_state in
  let last_good_state0 := last_good_state prev_state in
  let it := base d in
  let it := Iterator.with_reader it (Reader.clone (byte_reader prev_state)) in
  let it := Iterator.with_production_id it (production_id prev_state) in
  let it := Iterator.with_tokens it (Tokens.deep_copy (tokens prev_state)) in
  let it := Iterator.with_stack it (Stack.clone (stack prev_state)) in
  let it := Iterator.with_emitted (Iterator.with_handler it (fun _ => None)) [] in
  let finish (it : Iterator.StateIterator) (state : Z) (active fm : bool) (lgs : Z) :=
    let snapshot :=
      mkDebugState state active (Stack.debug_clone (Iterator.stack it))
        (Iterator.tokens it) (-1) (Iterator.production_id it) fm lgs
        (Iterator.reader it) (Iterator.emitted it) in
    Done (snapshot, mkDebug it (fork_handler d) snapshot) in
  if Stack.pointer (Iterator.stack it) <? 1 then
    it <- Iterator.emit it
            (Iterator.final_action it goal_production fail_mode0 last_good_state0) ;;
    finish it 0 false false (-1)
  else
    let '(state, s) := Stack.pop_state (Iterator.stack it) in
    let it := Iterator.with_stack it s in
    let shown := JS.and state state_index_mask in
    if state >? 0 then
      let mask_gate := JS.shl normal_state_mask (JS.of_bool fail_mode0) in
      let lgs := if fail_mode0 then -1 else state in
      if JS.truthy (JS.and state mask_gate) then
        '(fm, it) <- Iterator.instruction_executor (Iterator.scanner fuel) fuel
                       (fork_handler d) it state fail_mode0 ;;
        finish it shown true fm lgs
      else finish it shown true false lgs
    else finish it shown true false (-1).

End Stepper.

End Debug.

(** ** A concrete reader and the constants, for running the kernel *)

Module Sample.

(** Modelled from the spec: a reader over a sequence of one-byte codepoints,
    with a cursor; the kernel is generic in the reader and this one only
    serves to run it on concrete input. *)
Record AsciiReader : Type := mkReader {
  input : list Z;
  cursor : Z
}.

Definition at_cursor (r : AsciiReader) : Z :=
  if cursor r <? 0 then 0 else nth (Z.to_nat (cursor r)) (input r) 0.

(** A coarse character class: 1 digits, 2 letters, 3 blanks, 4 line breaks,
    5 anything else, 0 past the end. *)
Definition class_of (c : Z) : Z :=
  if (48 <=? c) && (c <=? 57) then 1
  else if ((65 <=? c) && (c <=? 90)) || ((97 <=? c) && (c <=? 122)) then 2
  else if (c =? 32) || (c =? 9) then 3
  else if c =? 10 then 4
  else if c =? 0 then 0
  else 5.

#[global] Instance ascii_reader : Reader.ByteReader AsciiReader := {|
  Reader.END r := cursor r >=? Z.of_nat (List.length (input r));
  Reader.offset_at_end r offset := offset >=? Z.of_nat (List.length (input r));
  Reader.next r amount := mkReader (input r) (cursor r + amount);
  Reader.setCursorTo r token := (true, mkReader (input r) (byte_offset token));
  Reader.line_count r := 0;
  Reader.line_offset r := 0;
  Reader.class r := class_of (at_cursor r);
  Reader.codepoint r := at_cursor r;
  Reader.codepoint_byte_length r := 1;
  Reader.codepoint_length r := 1;
  Reader.byte r := at_cursor r;
  Reader.clone r := r
|}.

(** Modelled from the spec: the masks partition the 32-bit state pointer
    into an index field and flag bits, the fail flag being the normal flag
    shifted by one, which is what [normal_state_mask << +fail_mode] needs. *)
#[global] Instance constants : KernelConstants := {|
  normal_state_mask := 0x04000000;
  goto_state_mask := 0x02000000;
  state_index_mask := 0x00FFFFFF;
  instruction_pointer_mask := 0x00FFFFFF;
  skipped_scan_prod := 9009
|}.

Definition reader_of (bytes : list Z) : AsciiReader := mkReader bytes 0.

(** An image for [A -> 'x' 'y']: three built-in PASS words, then at word 3
    two ASSERT_CONSUME in byte mode, a REDUCE of 2 symbols with rule 0, its
    SET_PRODUCTION and a PASS. *)
Definition xy_image : list Z :=
  [0; 0; 0; 0xE2000078; 0xE2000079; 0x40020000; 0x30000000; 0].

Definition xy_entry : Z := 0x04000003.

Definition quiet (_ : ParseAction) : option string := None.

(** An image with a scanner block at word 3 and two blocks that use it.
    The scanner reads one byte through a HASH_JUMP with two cells: a blank
    is consumed and typed as skipped input, an 'X' is consumed and typed 7,
    anything else ends the scan with the token untyped.  Word 15 is a
    forward SCAN_TO for type 7.  Word 19 is an INDEX_JUMP on the token type
    with one row, for type 7, which shifts the token and repeats the
    block. *)
Definition lexer_image : list Z :=
  [0; 0; 0;
   0xA1000006; 0; 0x00010002; 0x80400020; 0x80001858;
   0x10000000; 0x58002331; 0;
   0x10000000; 0x58000007; 0;
   0;
   0x70000001; 0x04000003; 7; 0;
   0x90400007; 0x04000003; 0x00010002; 0; 0; 0x10000000; 0xC0000007].

Definition lexer_entry : Z := 0x04000003.

(** The same image with another block at word 19: its row for type 7 has
    three words, a SET_TOKEN of the form that closes the current token,
    the CONSUME that shifts, and the REPEAT. *)
Definition stretch_image : list Z :=
  [0; 0; 0;
   0xA1000006; 0; 0x00010002; 0x80400020; 0x80001858;
   0x10000000; 0x58002331; 0;
   0x10000000; 0x58000007; 0;
   0;
   0x70000001; 0x04000003; 7; 0;
   0x90400007; 0x04000003; 0x00010003; 0; 0; 0; 0x58000007; 0x10000000; 0xC0000009].

Definition scan_to_entry : Z := 0x0400000F.

Definition shift_all_entry : Z := 0x04000013.


(** An image whose entry block is a GOTO to itself. *)
Definition recursive_image : list Z :=
  [0; 0; 0; 0x24000003].

Definition recursive_entry : Z := 0x24000003.

(** A straight-line image: a CONSUME of nothing, a REDUCE of one symbol
    with rule 0, its SET_PRODUCTION and a PASS. *)
Definition straight_image : list Z :=
  [0; 0; 0; 0x10000001; 0x40010000; 0x30000000; 0].

(** An image with the same dispatch laid out twice, on the production id:
    at word 3 as an INDEX_JUMP with basis 4 and two rows of one word, at
    word 9 as a HASH_JUMP with two cells, for the keys 4 and 5. *)
Definition jump_image : list Z :=
  [0; 0; 0;
   0x90000004; 0; 0x00020001; 0; 0; 0;
   0xA0000002; 0; 0x00010002; 0x80000004; 0x80000805; 0; 0; 0].

(** An image whose entry block matches an 'x' and then does a GOTO to the
    PASS block at word 0. *)
Definition goto_image : list Z :=
  [0; 0; 0; 0xE2000078; 0x24000000; 0].

(** The same image with the REDUCE in its dynamic encoding: the rule field
    is the sentinel 0xFFFF and the length is left to the accumulator. *)
Definition xy_dynamic_image : list Z :=
  [0; 0; 0; 0xE2000078; 0xE2000079; 0x4000FFFF; 0].

(** The dynamic REDUCE in a block of its own, entered by a GOTO: the entry
    block at word 3 takes an x and pushes the block at word 7, which takes
    a y and reduces what has been accumulated since the GOTO. *)
Definition nested_dynamic_image : list Z :=
  [0; 0; 0; 0xE2000078; 0x24000007; 0; 0; 0xE2000079; 0x4000FFFF; 0].

End Sample.


(** * Specification-level definitions *)

Unset Implicit Arguments.

Section Specification.

Context {R : Type} {BR : Reader.ByteReader R} {K : KernelConstants}.

Import Iterator.

(** The ERROR action of the driver, for the lookahead token of [it]. *)
Definition error_at (it : StateIterator (R := R)) (last_good_state : Z) : ParseAction :=
  ERROR (type (tokens_1 (tokens it))) (codepoint_offset (tokens_1 (tokens it)))
        (codepoint_length (tokens_1 (tokens it))) last_good_state (production_id it).

(** The finalisation rule, case by case as the spec words it. *)
Inductive finalizes (it : StateIterator (R := R)) (root : Z) (fail_mode : bool)
    (last_good_state : Z) : ParseAction -> Prop :=
| finalizes_token :
    SCANNER it = true ->
    finalizes it root fail_mode last_good_state (TOKEN (tokens_0 (tokens it)))
| finalizes_failed :
    SCANNER it = false -> fail_mode = true ->
    finalizes it root fail_mode last_good_state (error_at it last_good_state)
| finalizes_goal :
    SCANNER it = false -> fail_mode = false ->
    0 <= root -> production_id it = root ->
    finalizes it root fail_mode last_good_state ACCEPT
| finalizes_exhausted :
    SCANNER it = false -> fail_mode = false ->
    Reader.offset_at_end (reader it) (byte_offset (tokens_1 (tokens it))) = true ->
    finalizes it root fail_mode last_good_state ACCEPT
| finalizes_error :
    SCANNER it = false -> fail_mode = false ->
    ~ (0 <= root /\ production_id it = root) ->
    Reader.offset_at_end (reader it) (byte_offset (tokens_1 (tokens it))) = false ->
    finalizes it root fail_mode last_good_state (error_at it last_good_state).

(** What ASSERT_CONSUME looks at, by mode: the value to compare and the
    byte and codepoint lengths it gives the lookahead token first. *)
Definition asserted_input (r : R) (mode : Z) : option (Z * Z * Z) :=
  if mode =? 0x00000000 then
    Some (Reader.class r, Reader.codepoint_byte_length r, Reader.codepoint_length r)
  else if mode =? 0x01000000 then
    Some (Reader.codepoint r, Reader.codepoint_byte_length r, Reader.codepoint_length r)
  else if mode =? 0x02000000 then Some (Reader.byte r, 1, 1)
  else None.

(** The lookahead token with the lengths ASSERT_CONSUME gives it. *)
Definition sized_lookahead (it : StateIterator (R := R)) (bl cl : Z) : KernelToken :=
  Token.set_codepoint_length (Token.set_byte_length (tokens_1 (tokens it)) bl) cl.

End Specification.

(** ** Images and traces *)

(** An image is a sequence of 32-bit words. *)
Definition image_ok (bytecode : list Z) : Prop :=
  Forall (fun w => 0 <= w < 2 ^ 32) bytecode.

(** The opcode of a word: its top four bits. *)
Definition opcode (w : Z) : Z := (w / 2 ^ 28) mod 2 ^ 4.

(** What the symbol accumulator should hold after the events of a trace,
    by the rule of the spec: a shift counts one, a reduce of [length]
    symbols takes [length - 1] away. *)
Fixpoint accumulated (trace : list ParseAction) : Z :=
  match trace with
  | [] => 0
  | SHIFT _ :: trace' => 1 + accumulated trace'
  | REDUCE _ length _ :: trace' => accumulated trace' - (length - 1)
  | _ :: trace' => accumulated trace'
  end.

(** ** SCAN_TO and the scanner *)

Section ScanSpecification.

Context {R : Type} {BR : Reader.ByteReader R} {K : KernelConstants}.

Import Iterator.

(** The inline list of target ids of a SCAN_TO: the [length] words from
    [start] on, as far as the image goes. *)
Definition inline_targets (bytecode : list Z) (start length : Z) : list Z :=
  firstn (Z.to_nat length) (skipn (Z.to_nat start) bytecode).

(** The token SCAN_TO starts scanning from: the lookahead token, or for a
    backward scan the start of the current token. *)
Definition scratch_token (it : StateIterator (R := R)) (scan_back : bool) : KernelToken :=
  let t1 := tokens_1 (tokens it) in
  let t0 := tokens_0 (tokens it) in
  if scan_back
  then mkToken (byte_offset t0) 0 (codepoint_offset t0) 0 (line_number t1) (line_offset t1) 0
  else mkToken (byte_offset t1) (byte_length t1) (codepoint_offset t1) (codepoint_length t1)
               (line_number t1) (line_offset t1) 0.

Section WithScanner.

Variable scanner : StateIterator (R := R) -> KernelToken -> Z -> outcome KernelToken.

(** Scanning from [temp] exhausts the input: every token the scanner
    resolves has a type outside [targets], and the last one lies at the
    end of the input. *)
Inductive scan_exhausts (it : StateIterator) (scanner_index : Z) (targets : list Z)
    : KernelToken -> nat -> Prop :=
| scan_exhausts_now temp token :
    scanner it temp scanner_index = Done token ->
    ~ In (type token) targets ->
    Reader.offset_at_end (reader it) (byte_offset token) = true ->
    scan_exhausts it scanner_index targets temp 1
| scan_exhausts_later temp token turns :
    scanner it temp scanner_index = Done token ->
    ~ In (type token) targets ->
    Reader.offset_at_end (reader it) (byte_offset token) = false ->
    scan_exhausts it scanner_index targets (scan_past token) turns ->
    scan_exhausts it scanner_index targets temp (S turns).

(** Scanning from [temp] finds [found], the first token whose type is in
    [targets], before the input is exhausted. *)
Inductive scan_finds (it : StateIterator) (scanner_index : Z) (targets : list Z)
    : KernelToken -> nat -> KernelToken -> Prop :=
| scan_finds_now temp token :
    scanner it temp scanner_index = Done token ->
    In (type token) targets ->
    scan_finds it scanner_index targets temp 1 token
| scan_finds_later temp token turns found :
    scanner it temp scanner_index = Done token ->
    ~ In (type token) targets ->
    Reader.offset_at_end (reader it) (byte_offset token) = false ->
    scan_finds it scanner_index targets (scan_past token) turns found ->
    scan_finds it scanner_index targets temp (S turns) found.

End WithScanner.

(** One run of the nested iterator of [scanner], at nesting budget [f]. *)
Definition scanner_run (f : nat) (sc : StateIterator (R := R)) : outcome StateIterator :=
  start_with (scanner f) f sc scanner_sink no_forks (-1).





End ScanSpecification.

(** ** Jump tables *)

Section JumpSpecification.

(** A dispatch in the abstract: discriminant values and the number of the
    block each selects. *)
Definition dispatch (table : list (Z * Z)) (v : Z) : option Z :=
  option_map snd (find (fun entry => fst entry =? v) table).

(** *** The dense layout of INDEX_JUMP *)

(** The instruction carries the basis in its low 16 bits; the word behind
    the scanner pointer carries the number of rows and the row size. *)
Definition index_table_at (bytecode : list Z) (index instruction : Z)
    (basis rows row_size : Z) : Prop :=
  instruction mod 2 ^ 16 = basis /\
  word bytecode (index + 1) = Some (rows * 2 ^ 16 + row_size) /\
  0 <= rows < 2 ^ 16 /\ 0 <= row_size < 2 ^ 16.

(** Row [r] serves the value [basis + r]. *)
Definition index_encodes (basis rows : Z) (table : list (Z * Z)) : Prop :=
  forall v, dispatch table v
            = if (basis <=? v) && (v <? basis + rows) then Some (v - basis) else None.

(** Where the blocks of an INDEX_JUMP lie: the default block first, then
    the rows. *)
Definition index_block (index row_size : Z) (block : option Z) : Z :=
  match block with
  | None => index + 2
  | Some row => index + 2 + row_size + row * row_size
  end.

(** *** The open-addressing layout of HASH_JUMP *)

Definition hash_table_at (bytecode : list Z) (index instruction : Z)
    (bits table_size field_size : Z) : Prop :=
  instruction mod 2 ^ 16 = field_size /\
  word bytecode (index + 1) = Some (bits * 2 ^ 16 + table_size) /\
  0 <= bits <= 30 /\ 0 <= table_size < 2 ^ 16.

(** A cell packs a value in 11 bits, the offset of its block in 11 bits
    and a step, biased by 512, in 10 bits. *)
Definition cell_value (w : Z) : Z := w mod 2 ^ 11.

Definition cell_start (w : Z) : Z := (w / 2 ^ 11) mod 2 ^ 11.

Definition cell_step (w : Z) : Z := (w / 2 ^ 22) mod 2 ^ 10 - 512.

Definition cell (bytecode : list Z) (index slot : Z) : Z :=
  num (word bytecode (index + 2 + slot)).

(** The slots a probe visits from [slot] on, up to the cell whose step is
    zero. *)
Inductive probe_path (bytecode : list Z) (index : Z) : Z -> list Z -> Prop :=
| probe_stop slot :
    cell_step (cell bytecode index slot) = 0 ->
    probe_path bytecode index slot [slot]
| probe_step slot path :
    cell_step (cell bytecode index slot) <> 0 ->
    probe_path bytecode index (slot + cell_step (cell bytecode index slot)) path ->
    probe_path bytecode index slot (slot :: path).

(** The table holds [table]: from every home slot the probe ends, every
    cell on its way holds an entry of [table] with the offset of its block,
    and every entry is met on the way from its own home slot. *)
Definition hash_encodes (bytecode : list Z) (index bits : Z) (offset_of : Z -> Z)
    (table : list (Z * Z)) : Prop :=
  forall home, 0 <= home < 2 ^ bits ->
  exists path,
    probe_path bytecode index home path /\
    (forall slot, In slot path ->
       exists block,
         dispatch table (cell_value (cell bytecode index slot)) = Some block /\
         cell_start (cell bytecode index slot) = offset_of block) /\
    (forall key block,
       dispatch table key = Some block -> key mod 2 ^ bits = home ->
       exists slot, In slot path /\ cell_value (cell bytecode index slot) = key).

(** Where the blocks of a HASH_JUMP lie: behind the cells, the default
    block last. *)
Definition hash_block (index table_size field_size : Z) (offset_of : Z -> Z)
    (block : option Z) : Z :=
  match block with
  | None => index + 2 + table_size + field_size
  | Some b => index + 2 + table_size + offset_of b
  end.

End JumpSpecification.

(** ** Sessions *)

Section SessionSpecification.

Context {R : Type} {BR : Reader.ByteReader R} {K : KernelConstants}.

Import Iterator.

(** The actions that end a session. *)
Definition terminal (a : ParseAction) : Prop :=
  match a with
  | ACCEPT | ERROR _ _ _ _ _ | TOKEN _ => True
  | _ => False
  end.

(** A fork handler that replays no terminal action and leaves the record of
    what the sink has seen alone. *)
Definition replays_no_terminal (fh : ForkHandler (R := R)) : Prop :=
  forall a it,
    Forall (fun x => ~ terminal x) (fst (fh a it)) /\
    emitted (snd (fh a it)) = emitted it.


(** [it'] has reported what [it] had, and then only actions that do not
    end a session. *)
Definition grows (it it' : StateIterator (R := R)) : Prop :=
  exists body, emitted it' = emitted it ++ body /\ Forall (fun a => ~ terminal a) body.


(** The sink takes every action. *)
Definition accepting (it : StateIterator (R := R)) : Prop := forall a, handler it a = None.

End SessionSpecification.

(** ** Shifts in input order *)

Section OrderSpecification.

Context {R : Type} {BR : Reader.ByteReader R} {K : KernelConstants}.

Import Iterator.

(** The tokens a trace shifts, in the order of the trace. *)
Definition shifted (trace : list ParseAction) : list KernelToken :=
  flat_map (fun a => match a with SHIFT t => [t] | _ => [] end) trace.

Definition end_of (t : KernelToken) : Z := byte_offset t + byte_length t.

(** Every shifted token ends before any token shifted after it begins. *)
Definition in_input_order (trace : list ParseAction) : Prop :=
  StronglySorted (fun t t' => end_of t <= byte_offset t') (shifted trace).

(** A Skip is never reported on its own: a Shift follows it at once. *)
Definition skips_lead_shifts (trace : list ParseAction) : Prop :=
  forall before after offset length line token_type,
    trace = before ++ SKIP offset length line token_type :: after ->
    exists t rest, after = SHIFT t :: rest.

(** The same, read off the trace from its start. *)
Fixpoint skips_paired (trace : list ParseAction) : Prop :=
  match trace with
  | [] => True
  | SKIP _ _ _ _ :: rest =>
      match rest with
      | SHIFT _ :: _ => skips_paired rest
      | _ => False
      end
  | _ :: rest => skips_paired rest
  end.

(** The Skip that [emitShift] reports for the gap between the current
    token and the lookahead token. *)
Definition skip_between (prev_token token : KernelToken) : ParseAction :=
  SKIP (codepoint_offset prev_token)
       (codepoint_offset token - (codepoint_length prev_token + codepoint_offset prev_token))
       (line_number prev_token) 0.

(** A fork handler that leaves the tokens and the record of the sink alone
    and replays neither Shift, Skip nor Token actions. *)
Definition replays_no_shift (fh : ForkHandler (R := R)) : Prop :=
  forall a it,
    tokens (snd (fh a it)) = tokens it /\
    emitted (snd (fh a it)) = emitted it /\
    Forall (fun x => match x with
                     | SHIFT _ | SKIP _ _ _ _ | TOKEN _ => False
                     | _ => True
                     end) (fst (fh a it)).

(** A reader never measures a codepoint with a negative number of bytes. *)
Definition measures (reader_type : Type) {_ : Reader.ByteReader reader_type} : Prop :=
  forall r : reader_type, 0 <= Reader.codepoint_byte_length r.

(** What the tokens and the record of an iterator satisfy all along a
    session: the two live tokens have a length, the current token does not
    lie behind the lookahead, what has been shifted is in input order and
    ends before the lookahead begins, and every Skip leads a Shift. *)
Record orderly (it : StateIterator (R := R)) : Prop := {
  orderly_lookahead : 0 <= byte_length (tokens_1 (tokens it));
  orderly_current : 0 <= byte_length (tokens_0 (tokens it));
  orderly_offsets : byte_offset (tokens_0 (tokens it)) <= byte_offset (tokens_1 (tokens it));
  orderly_shifts : in_input_order (emitted it);
  orderly_mark :
    Forall (fun t => end_of t <= byte_offset (tokens_1 (tokens it))) (shifted (emitted it));
  orderly_skips : skips_paired (emitted it);
  orderly_tokens :
    Forall (fun a => match a with TOKEN t => 0 <= byte_length t | _ => True end)
           (emitted it)
}.

(** What [scanner] owes its caller: the token it returns does not start
    before the one it was given, and has a length. *)
Definition scanner_advances
    (scanner : StateIterator (R := R) -> KernelToken -> Z -> outcome KernelToken) : Prop :=
  forall it current pointer token,
    0 <= byte_length current ->
    scanner it current pointer = Done token ->
    byte_offset current <= byte_offset token /\ 0 <= byte_length token.

End OrderSpecification.
(** ** Blocks, the stack and the accumulator *)

Section BlockSpecification.

Context {R : Type} {BR : Reader.ByteReader R} {K : KernelConstants}.

Import Iterator.

(** The words at the head of [rest] that carry the GOTO tag. *)
Fixpoint goto_run (rest : list Z) : list Z :=
  match rest with
  | w :: rest' =>
      if JS.and w 0xF0000000 =? 0x20000000 then w :: goto_run rest' else []
  | [] => []
  end.

(** The actions the instructions themselves report. *)
Definition engine_action (a : ParseAction) : Prop :=
  match a with
  | SHIFT _ | SKIP _ _ _ _ | REDUCE _ _ _ => True
  | _ => False
  end.

(** A fork handler that replays nothing and leaves the iterator alone. *)
Definition answers_nothing (fh : ForkHandler (R := R)) : Prop :=
  forall a it, fh a it = ([], it).

(** Every REDUCE word of the image carries its length: none has the body
    id 0xFFFF that asks for the length to be measured. *)
Definition fixed_reduces (bytecode : list Z) : Prop :=
  Forall (fun w => opcode w = 4 -> w mod 2 ^ 16 <> 0xFFFF) bytecode.

(** No word of the image is a GOTO or a PUSH_FAIL_STATE. *)
Definition pushes_nothing (bytecode : list Z) : Prop :=
  Forall (fun w => opcode w <> 2 /\ opcode w <> 11) bytecode.

(** [it'] is [it] some instructions later: same image, role and sink; what
    has been reported since are actions of the instructions, each one
    taken by the sink; if [counted] holds the accumulator has followed
    them, and if [level] holds the stack is as it was. *)
Definition follows (counted level : Prop) (it it' : StateIterator (R := R)) : Prop :=
  bytecode it' = bytecode it /\
  SCANNER it' = SCANNER it /\
  handler it' = handler it /\
  (level -> stack it' = stack it) /\
  exists body,
    emitted it' = emitted it ++ body /\
    Forall (fun a => engine_action a /\ handler it a = None) body /\
    (counted -> symbol_accumulator it' = symbol_accumulator it + accumulated body).

(** No state on the stack of [it] carries the fail bit. *)
Definition no_fail_state (it : StateIterator (R := R)) : Prop :=
  forall i, 1 <= i <= Stack.pointer (stack it) ->
    JS.truthy (JS.and (Stack.get (Stack.state_stack (stack it)) i)
                      (JS.shl normal_state_mask 1)) = false.

(** The stack of [it] with every state popped. *)
Definition drained (it : StateIterator (R := R)) : StateIterator :=
  with_stack it (Stack.mkStack (Stack.state_stack (stack it))
                               (Stack.meta_stack (stack it)) 0).

End BlockSpecification.
(** ** Images that only move forward *)

Section ForwardSpecification.

Context {R : Type} {BR : Reader.ByteReader R} {K : KernelConstants}.

Import Iterator.


(** The block a GOTO or PUSH_FAIL_STATE word names: the index field of the
    word, read as the state pointer the instruction pushes. *)
Definition target (w : Z) : Z := JS.and (JS.ToUint32 w) state_index_mask.







End ForwardSpecification.
(** ** The turns of a block *)

Section BlockSpecification.

Context {R : Type} {BR : Reader.ByteReader R} {K : KernelConstants}.

Import Iterator.

(** The instruction loop, entered at word [i] with the iterator [it] and
    [fuel] turns left, arrives at word [j] with the iterator [it'] and
    [fuel'] turns left: every turn in between has ended in a [continue].
    [recover_data] and [fail_mode] are the two values the loop hands to
    every instruction of the block. *)
Inductive arrives
    (scanner : StateIterator (R := R) -> KernelToken -> Z -> outcome KernelToken)
    (fork_handler : option (ForkHandler (R := R))) (recover_data : Z) (fail_mode : bool)
    : nat -> StateIterator (R := R) -> Z -> nat -> StateIterator (R := R) -> Z -> Prop :=
| arrives_here fuel it i :
    arrives scanner fork_handler recover_data fail_mode fuel it i fuel it i
| arrives_on fuel it i j it1 fuel' it' k :
    execute scanner fuel fork_handler it (num (word (bytecode it) i)) (i + 1)
            recover_data fail_mode = Done (Continue j it1) ->
    arrives scanner fork_handler recover_data fail_mode fuel it1 j fuel' it' k ->
    arrives scanner fork_handler recover_data fail_mode (S fuel) it i fuel' it' k.

End BlockSpecification.
(** ** Skips and the gaps between shifted tokens *)

Section MarkSpecification.

Context {R : Type} {BR : Reader.ByteReader R} {K : KernelConstants}.

Import Iterator.

(** Reads a trace from its start.  [mark] is where the token shifted last
    has ended; [pending] tells that a Skip has just been reported.  A Skip
    is followed by a Shift at once; a Shift that follows a Skip begins
    somewhere else than at the mark, and a Shift that follows none begins at
    the mark. *)
Fixpoint gaps (pending : bool) (mark : Z) (trace : list ParseAction) : Prop :=
  match trace with
  | [] => pending = false
  | SKIP _ _ _ _ :: rest => pending = false /\ gaps true mark rest
  | SHIFT t :: rest =>
      (if pending then byte_offset t <> mark else byte_offset t = mark) /\
      gaps false (end_of t) rest
  | _ :: rest => pending = false /\ gaps false mark rest
  end.

(** A Skip leads a Shift exactly when the shifted token does not begin
    where the token shifted before it has ended, or at [mark] for the first
    Shift of the trace. *)
Definition skips_mark_gaps (mark : Z) (trace : list ParseAction) : Prop :=
  gaps false mark trace.

(** Where the token shifted last in [trace] has ended; [mark] if none is
    shifted. *)
Fixpoint mark_after (mark : Z) (trace : list ParseAction) : Z :=
  match trace with
  | [] => mark
  | SHIFT t :: rest => mark_after (end_of t) rest
  | _ :: rest => mark_after mark rest
  end.

(** What [it] has reported since [base] marks its gaps, and the current
    token ends where the token shifted last has ended. *)
Definition marked (mark : Z) (base : list ParseAction) (it : StateIterator (R := R)) : Prop :=
  exists body,
    emitted it = base ++ body /\
    skips_mark_gaps mark body /\
    end_of (tokens_0 (tokens it)) = mark_after mark body.

(** Where the word [w] at [p] can send the instruction loop, and the blocks
    it can push, are all in [P]; and if [w] is a SET_TOKEN, it is not of the
    form that closes the current token (flag 0x08), which moves the end of
    that token to where the lookahead begins. *)
Definition stays (P : Z -> Prop) (bytecode : list Z) (p w : Z) : Prop :=
  match opcode w with
  | 1 | 3 => P (p + 1)
  | 2 | 11 => P (target w) /\ P (p + 1)
  | 4 => P (p + 1) /\ P (p + 2)
  | 5 => JS.and w 0x08000000 = 0 /\ P (p + 1)
  | 6 => P 0 /\ P 1
  | 7 => P 1 /\ P (p + 2 + w mod 2 ^ 16)
  | 8 | 9 => forall v, P (index_jump_target bytecode (p + 1) w v)
  | 10 => forall n v t, hash_jump_target n bytecode (p + 1) w v = Done t -> P t
  | 12 => P (repeat (p + 1) w)
  | 13 => P (p + 3)
  | 14 => P (p + 1) /\ P 2
  | _ => True
  end.

(** [P] holds the words the iterator can execute in its own role: it is
    closed under the control flow of the image of 32-bit words, and none of
    its SET_TOKEN words closes the current token.  The blocks the nested
    scanner runs need not be in [P]. *)
Definition parser_words (P : Z -> Prop) (bytecode : list Z) : Prop :=
  image_ok bytecode /\
  forall p w, P p -> word bytecode p = Some w -> stays P bytecode p w.

(** Every state on the stack names a block in [P]. *)
Definition stack_within (P : Z -> Prop) (it : StateIterator (R := R)) : Prop :=
  forall j, 1 <= j <= Stack.pointer (stack it) ->
    P (JS.and (Stack.get (Stack.state_stack (stack it)) j) state_index_mask).

End MarkSpecification.

(** ** Proof automation *)

(** Reading a field of an iterator that has just been updated. *)
Ltac fields :=
  cbn [Iterator.stack Iterator.reader Iterator.tokens Iterator.bytecode
       Iterator.symbol_accumulator Iterator.ACTION_BUFFER_EMPTY
       Iterator.production_id Iterator.SCANNER Iterator.handler Iterator.emitted
       Iterator.with_stack Iterator.with_reader Iterator.with_tokens
       Iterator.with_symbol_accumulator Iterator.with_ACTION_BUFFER_EMPTY
       Iterator.with_production_id Iterator.with_handler Iterator.with_emitted
       Iterator.with_tokens_0 Iterator.with_tokens_1 Iterator.error
       Iterator.set_production
       tokens_0 tokens_1 tokens_peek Tokens.set_0 Tokens.set_1 Tokens.truncate
       Tokens.push
       byte_offset byte_length codepoint_offset codepoint_length line_number
       line_offset type Token.set_byte_offset Token.set_byte_length
       Token.set_codepoint_offset Token.set_codepoint_length Token.set_line_number
       Token.set_line_offset Token.set_type Token.copy Token.impersonate
       fst snd].

Tactic Notation "fields" "in" "*" :=
  cbn [Iterator.stack Iterator.reader Iterator.tokens Iterator.bytecode
       Iterator.symbol_accumulator Iterator.ACTION_BUFFER_EMPTY
       Iterator.production_id Iterator.SCANNER Iterator.handler Iterator.emitted
       Iterator.with_stack Iterator.with_reader Iterator.with_tokens
       Iterator.with_symbol_accumulator Iterator.with_ACTION_BUFFER_EMPTY
       Iterator.with_production_id Iterator.with_handler Iterator.with_emitted
       Iterator.with_tokens_0 Iterator.with_tokens_1 Iterator.error
       Iterator.set_production
       tokens_0 tokens_1 tokens_peek Tokens.set_0 Tokens.set_1 Tokens.truncate
       Tokens.push
       byte_offset byte_length codepoint_offset codepoint_length line_number
       line_offset type Token.set_byte_offset Token.set_byte_length
       Token.set_codepoint_offset Token.set_codepoint_length Token.set_line_number
       Token.set_line_offset Token.set_type Token.copy Token.impersonate
       fst snd] in *.

(** Takes apart a run [H : ... = Done _] along the binds and tests of the
    function that made it. *)
Ltac invert_run H :=
  lazymatch type of H with
  | Done _ = Done _ => inversion H; subst; try clear H
  | Thrown _ = Done _ => discriminate H
  | OutOfFuel = Done _ => discriminate H
  | bind ?m _ = Done _ =>
      let E := fresh "E" in
      destruct m eqn:E; cbn [bind] in H;
      [invert_run E; invert_run H | discriminate H | discriminate H]
  | (if ?x then _ else _) = Done _ => destruct x eqn:?; invert_run H
  | (match ?x with _ => _ end) = Done _ => destruct x eqn:?; invert_run H
  | _ => idtac
  end.

(** Splits a run of [execute] by the opcode of its instruction. *)
Ltac opcode_cases H :=
  unfold Iterator.execute, Iterator.continue in H;
  repeat match type of H with
         | context [match ?x with _ => _ end] => destruct x eqn:?
         end.

(** * Facts about the 32-bit operators *)

Module BitFacts.

Lemma ToInt32_small x : - 2 ^ 31 <= x < 2 ^ 31 -> JS.ToInt32 x = x.
Proof.
  intros H. unfold JS.ToInt32. rewrite Z.mod_small; lia.
Qed.

Lemma ToUint32_small x : 0 <= x < 2 ^ 32 -> JS.ToUint32 x = x.
Proof. intros H. unfold JS.ToUint32. now rewrite Z.mod_small. Qed.

Lemma land_ones_bounds x k : 0 <= k -> 0 <= Z.land x (Z.ones k) < 2 ^ k.
Proof.
  intros Hk. rewrite Z.land_ones by assumption. apply Z.mod_pos_bound. 
  apply Z.pow_pos_nonneg; lia.
Qed.

(** [x & (2^k - 1)] keeps the low [k] bits, for masks that fit 31 bits. *)
Lemma and_ones x k : 0 <= k <= 31 -> JS.and x (Z.ones k) = x mod 2 ^ k.
Proof.
  intros Hk. unfold JS.and. rewrite Z.land_ones by lia.
  apply ToInt32_small.
  assert (0 <= x mod 2 ^ k < 2 ^ k) by (apply Z.mod_pos_bound; apply Z.pow_pos_nonneg; lia).
  assert (2 ^ k <= 2 ^ 31) by (apply Z.pow_le_mono_r; lia).
  lia.
Qed.

Lemma and_0xFFFF x : JS.and x 0xFFFF = x mod 2 ^ 16.
Proof. exact (and_ones x 16 ltac:(lia)). Qed.

Lemma and_0x7FF x : JS.and x 0x7FF = x mod 2 ^ 11.
Proof. exact (and_ones x 11 ltac:(lia)). Qed.

Lemma and_0x3FF x : JS.and x 0x3FF = x mod 2 ^ 10.
Proof. exact (and_ones x 10 ltac:(lia)). Qed.

Lemma and_0xFFF x : JS.and x 0xFFF = x mod 2 ^ 12.
Proof. exact (and_ones x 12 ltac:(lia)). Qed.

Lemma and_0xFFFFFF x : JS.and x 0xFFFFFF = x mod 2 ^ 24.
Proof. exact (and_ones x 24 ltac:(lia)). Qed.

Lemma and_0xFFFFFFF x : JS.and x 0xFFFFFFF = x mod 2 ^ 28.
Proof. exact (and_ones x 28 ltac:(lia)). Qed.

Lemma and_1 x : JS.and x 1 = x mod 2.
Proof. exact (and_ones x 1 ltac:(lia)). Qed.

Lemma ToInt32_congr x : exists c, JS.ToInt32 x = x + c * 2 ^ 32.
Proof.
  unfold JS.ToInt32. exists (- ((x + 2 ^ 31) / 2 ^ 32)).
  pose proof (Z.div_mod (x + 2 ^ 31) (2 ^ 32) ltac:(lia)). lia.
Qed.

(** [(w >> s) & (2^k - 1)] reads the [k] bits of [w] from bit [s] up, as
    long as they lie within the 32-bit word. *)
Lemma sar_and_ones w s k :
  0 <= s -> 0 <= k -> s + k <= 32 -> s < 32 -> k <= 31 ->
  JS.and (JS.sar w s) (Z.ones k) = (w / 2 ^ s) mod 2 ^ k.
Proof.
  intros Hs Hk Hsk Hs32 Hk31.
  rewrite and_ones by lia. unfold JS.sar.
  rewrite (Z.mod_small s 32) by lia.
  rewrite Z.shiftr_div_pow2 by lia.
  destruct (ToInt32_congr w) as [c Hc]. rewrite Hc.
  replace (2 ^ 32) with (2 ^ (32 - s) * 2 ^ s) by (rewrite <- Z.pow_add_r by lia; f_equal; lia).
  rewrite Z.mul_assoc, Z.div_add by (apply Z.pow_nonzero; lia).
  replace (2 ^ (32 - s)) with (2 ^ (32 - s - k) * 2 ^ k)
    by (rewrite <- Z.pow_add_r by lia; f_equal; lia).
  rewrite Z.mul_assoc. apply Z.mod_add. apply Z.pow_nonzero; lia.
Qed.

Lemma shr_and_ones w s k :
  0 <= s -> 0 <= k -> s + k <= 32 -> s < 32 -> k <= 31 ->
  JS.and (JS.shr w s) (Z.ones k) = (w / 2 ^ s) mod 2 ^ k.
Proof.
  intros Hs Hk Hsk Hs32 Hk31.
  rewrite and_ones by lia. unfold JS.shr, JS.ToUint32.
  rewrite (Z.mod_small s 32) by lia.
  rewrite Z.shiftr_div_pow2 by lia.
  pose proof (Z.div_mod w (2 ^ 32) ltac:(lia)) as Hw.
  assert (Hm : w mod 2 ^ 32 = w + (- (w / 2 ^ 32)) * 2 ^ 32) by lia.
  rewrite Hm.
  replace (2 ^ 32) with (2 ^ (32 - s) * 2 ^ s) by (rewrite <- Z.pow_add_r by lia; f_equal; lia).
  rewrite Z.mul_assoc, Z.div_add by (apply Z.pow_nonzero; lia).
  replace (2 ^ (32 - s)) with (2 ^ (32 - s - k) * 2 ^ k)
    by (rewrite <- Z.pow_add_r by lia; f_equal; lia).
  rewrite Z.mul_assoc. apply Z.mod_add. apply Z.pow_nonzero; lia.
Qed.

(** The opcode of a word. *)
Lemma opcode_bits w : JS.and (JS.sar w 28) 0xF = (w / 2 ^ 28) mod 2 ^ 4.
Proof. exact (sar_and_ones w 28 4 ltac:(lia) ltac:(lia) ltac:(lia) ltac:(lia) ltac:(lia)). Qed.

Lemma testbit_above_32 w n : 0 <= w < 2 ^ 32 -> 32 <= n -> Z.testbit w n = false.
Proof.
  intros Hw Hn. destruct (Z.eq_dec w 0) as [->|Hz]; [apply Z.bits_0|].
  apply Z.bits_above_log2; [lia|].
  assert (Z.log2 w < 32) by (apply Z.log2_lt_pow2; lia). lia.
Qed.

Lemma land_top_nibble w : 0 <= w < 2 ^ 32 -> Z.land w 0xF0000000 = (w / 2 ^ 28) * 2 ^ 28.
Proof.
  intros Hw. rewrite <- Z.shiftr_div_pow2, <- Z.shiftl_mul_pow2 by lia.
  apply Z.bits_inj'. intros n Hn.
  rewrite Z.land_spec.
  destruct (Z.lt_ge_cases n 28) as [Hlt|Hge].
  - rewrite Z.shiftl_spec_low by assumption.
    change 0xF0000000 with (Z.shiftl 15 28).
    rewrite Z.shiftl_spec_low by assumption. apply andb_false_r.
  - rewrite Z.shiftl_spec by lia. rewrite Z.shiftr_spec by lia.
    replace (n - 28 + 28) with n by lia.
    change 0xF0000000 with (Z.shiftl 15 28).
    rewrite Z.shiftl_spec by lia.
    destruct (Z.lt_ge_cases n 32) as [Hlt32|Hge32].
    + assert (Hc : n - 28 = 0 \/ n - 28 = 1 \/ n - 28 = 2 \/ n - 28 = 3) by lia.
      destruct Hc as [-> | [-> | [-> | ->]]]; cbn; apply andb_true_r.
    + rewrite testbit_above_32 by assumption. reflexivity.
Qed.

(** The test [(w & 0xF0000000) == t << 28] reads the opcode of a word. *)
Lemma tag_test w t :
  0 <= w < 2 ^ 32 -> 0 <= t < 8 ->
  (JS.and w 0xF0000000 =? t * 2 ^ 28) = ((w / 2 ^ 28) mod 2 ^ 4 =? t).
Proof.
  intros Hw Ht. unfold JS.and. rewrite land_top_nibble by assumption.
  assert (Hq : 0 <= w / 2 ^ 28 < 2 ^ 4).
  { split; [apply Z.div_pos; lia|]. apply Z.div_lt_upper_bound; lia. }
  rewrite (Z.mod_small (w / 2 ^ 28)) by assumption.
  unfold JS.ToInt32.
  destruct (Z.lt_ge_cases (w / 2 ^ 28) 8) as [Hlo|Hhi].
  - rewrite Z.mod_small by lia.
    destruct (w / 2 ^ 28 =? t) eqn:He; [apply Z.eqb_eq; lia | apply Z.eqb_neq; lia].
  - replace (w / 2 ^ 28 * 2 ^ 28 + 2 ^ 31)
      with ((w / 2 ^ 28 * 2 ^ 28 - 2 ^ 31) + 1 * 2 ^ 32) by lia.
    rewrite Z.mod_add by lia. rewrite Z.mod_small by lia.
    destruct (w / 2 ^ 28 =? t) eqn:He; [lia | apply Z.eqb_neq; lia].
Qed.

End BitFacts.

(** * The driver loop *)

Section DriverProperties.

Context {R : Type} {BR : Reader.ByteReader R} {K : KernelConstants}.

Import Iterator.

Lemma final_action_finalizes (it : StateIterator (R := R)) root fm lgs :
  finalizes it root fm lgs (final_action it root fm lgs).
Proof.
  unfold final_action.
  destruct (SCANNER it) eqn:Hs; [now constructor|].
  destruct fm; [now constructor|].
  destruct (root >=? 0) eqn:Hr; simpl.
  - destruct (production_id it =? root) eqn:Hp.
    + apply finalizes_goal; auto; lia.
    + destruct (Reader.offset_at_end _ _) eqn:He.
      * now apply finalizes_exhausted.
      * apply finalizes_error; auto. lia.
  - destruct (Reader.offset_at_end _ _) eqn:He.
    + now apply finalizes_exhausted.
    + apply finalizes_error; auto. lia.
Qed.

Lemma finalizes_functional (it : StateIterator (R := R)) root fm lgs a b :
  finalizes it root fm lgs a -> finalizes it root fm lgs b -> a = b.
Proof.
  intros Ha Hb; destruct Ha; destruct Hb; try congruence; try reflexivity; tauto.
Qed.

(** C2.  When the driver loop finds the stack empty it reports exactly one
    action and returns: TOKEN in the scanner role; otherwise ERROR in fail
    mode; otherwise ACCEPT when a goal production was given and is the
    current one, or when the reader is at its end at the lookahead token's
    offset; otherwise ERROR. *)
Theorem start_finalizes_on_empty_stack
    (scanner : StateIterator -> KernelToken -> Z -> outcome KernelToken)
    (fuel : nat) fork_handler root (it : StateIterator (R := R)) fail_mode last_good_state :
  Stack.pointer (stack it) < 1 ->
  exists action,
    finalizes it root fail_mode last_good_state action /\
    (forall other, finalizes it root fail_mode last_good_state other -> other = action) /\
    start_loop scanner (S fuel) fork_handler root it fail_mode last_good_state
      = emit it action /\
    (handler it action = None ->
     start_loop scanner (S fuel) fork_handler root it fail_mode last_good_state
       = Done (with_emitted it (emitted it ++ [action]))).
Proof.
  intros Hempty.
  exists (final_action it root fail_mode last_good_state).
  assert (Hloop : start_loop scanner (S fuel) fork_handler root it fail_mode last_good_state
                  = emit it (final_action it root fail_mode last_good_state)).
  { simpl. destruct (Stack.pointer (stack it) <? 1) eqn:Hp; [reflexivity | lia]. }
  repeat split.
  - apply final_action_finalizes.
  - intros other Ho. eapply finalizes_functional; eauto using final_action_finalizes.
  - exact Hloop.
  - intros Hsink. rewrite Hloop. unfold emit. now rewrite Hsink.
Qed.

End DriverProperties.

(** C2 at an iterator whose stack has been emptied, in the parser role at
    the end of the input. *)
Lemma start_finalizes_on_empty_stack_witness :
  let it := Iterator.with_stack
              (Iterator.new (Sample.reader_of []) Sample.xy_image Sample.xy_entry false)
              Stack.new in
  Stack.pointer (Iterator.stack it) < 1 /\
  exists action,
    finalizes it (-1) false (-1) action /\
    (forall other, finalizes it (-1) false (-1) other -> other = action) /\
    Iterator.start_loop (Iterator.scanner 0) 1 (Some Iterator.no_forks) (-1) it false (-1)
      = Iterator.emit it action /\
    (Iterator.handler it action = None ->
     Iterator.start_loop (Iterator.scanner 0) 1 (Some Iterator.no_forks) (-1) it false (-1)
       = Done (Iterator.with_emitted it (Iterator.emitted it ++ [action]))).
Proof.
  intros it. split; [vm_compute; reflexivity|].
  apply (start_finalizes_on_empty_stack (Iterator.scanner 0) 0 (Some Iterator.no_forks)
           (-1) it false (-1)).
  vm_compute; reflexivity.
Defined.

(** * ASSERT_CONSUME *)

Section AssertConsume.

Context {R : Type} {BR : Reader.ByteReader R} {K : KernelConstants}.

Import Iterator.

(** [consume(0)] in the scanner role: the cursor and the lookahead move past
    the lookahead's span. *)
Lemma consume_0_scanner (it : StateIterator (R := R)) :
  SCANNER it = true ->
  exists it',
    consume it 0 = Done it' /\
    reader it' = Reader.next (reader it) (byte_length (tokens_1 (tokens it))) /\
    byte_offset (tokens_1 (tokens it'))
      = byte_offset (tokens_1 (tokens it)) + byte_length (tokens_1 (tokens it)) /\
    emitted it' = emitted it /\
    symbol_accumulator it' = symbol_accumulator it.
Proof.
  intros Hs. unfold consume. cbn. rewrite Hs. eexists; split; [reflexivity|].
  cbn. auto.
Qed.

(** [consume(0)] in the parser role, with a sink that takes every action:
    the lookahead is shifted as it stands, then passed. *)
Lemma consume_0_parser (it : StateIterator (R := R)) :
  SCANNER it = false -> (forall a, handler it a = None) ->
  exists it' skip,
    consume it 0 = Done it' /\
    reader it' = Reader.next (reader it) (byte_length (tokens_1 (tokens it))) /\
    byte_offset (tokens_1 (tokens it'))
      = byte_offset (tokens_1 (tokens it)) + byte_length (tokens_1 (tokens it)) /\
    emitted it' = emitted it ++ skip ++ [SHIFT (tokens_1 (tokens it))] /\
    symbol_accumulator it' = symbol_accumulator it + 1.
Proof.
  intros Hs Hsink. unfold consume, emitShift, emit. cbn. rewrite Hs.
  destruct (negb _); cbn; rewrite ?Hsink; cbn; rewrite ?Hsink; cbn.
  - eexists; eexists [_]; split; [reflexivity|]. cbn.
    rewrite <- app_assoc. repeat split; reflexivity.
  - eexists; exists []; split; [reflexivity|]. cbn. repeat split; reflexivity.
Qed.

(** C7, as the code has it.  ASSERT_CONSUME first gives the lookahead token
    the length of the upcoming codepoint (or of one byte), then compares
    the class, codepoint or byte with its literal.  On a mismatch the
    instruction loop goes on at word 2 of the image, whatever the address of
    the instruction, and nothing has been consumed.  On a match it calls
    [consume(0)], which passes the whole span just measured: the cursor and
    the lookahead advance by that length and, in the parser role, the token
    is shifted; the loop goes on at the next instruction. *)
Theorem assert_consume_outcome (it : StateIterator (R := R)) index instruction v bl cl :
  asserted_input (reader it) (JS.and instruction 0x0F000000) = Some (v, bl, cl) ->
  let sized := with_tokens_1 it (sized_lookahead it bl cl) in
  (JS.and instruction 0x00FFFFFF <> v ->
   assert_consume it index instruction = Done (2, sized)) /\
  (JS.and instruction 0x00FFFFFF = v -> SCANNER it = true ->
   exists it',
     assert_consume it index instruction = Done (index, it') /\
     reader it' = Reader.next (reader it) bl /\
     byte_offset (tokens_1 (tokens it')) = byte_offset (tokens_1 (tokens it)) + bl /\
     emitted it' = emitted it) /\
  (JS.and instruction 0x00FFFFFF = v -> SCANNER it = false ->
   (forall a, handler it a = None) ->
   exists it' skip,
     assert_consume it index instruction = Done (index, it') /\
     reader it' = Reader.next (reader it) bl /\
     byte_offset (tokens_1 (tokens it')) = byte_offset (tokens_1 (tokens it)) + bl /\
     emitted it' = emitted it ++ skip ++ [SHIFT (sized_lookahead it bl cl)]).
Proof.
  intros Hin sized.
  assert (Hcmp :
            assert_consume it index instruction
            = if negb (JS.and instruction 0x00FFFFFF =? v) then Done (2, sized)
              else (it'' <- consume sized 0 ;; Done (index, it''))).
  { unfold assert_consume, asserted_input in *.
    destruct (JS.and instruction 0x0F000000 =? 0x00000000);
      [inversion Hin; subst; reflexivity|].
    destruct (JS.and instruction 0x0F000000 =? 0x01000000);
      [inversion Hin; subst; reflexivity|].
    destruct (JS.and instruction 0x0F000000 =? 0x02000000);
      [inversion Hin; subst; reflexivity|discriminate]. }
  repeat split.
  - intros Hne. rewrite Hcmp.
    destruct (JS.and instruction 0x00FFFFFF =? v) eqn:He; [lia|reflexivity].
  - intros Heq Hs. rewrite Hcmp.
    destruct (JS.and instruction 0x00FFFFFF =? v) eqn:He; [|lia]. cbn [negb].
    destruct (consume_0_scanner sized) as (it' & Hc & Hr & Ho & He' & _); [exact Hs|].
    exists it'. rewrite Hc. cbn [bind]. repeat split; auto.
  - intros Heq Hs Hsink. rewrite Hcmp.
    destruct (JS.and instruction 0x00FFFFFF =? v) eqn:He; [|lia]. cbn [negb].
    destruct (consume_0_parser sized) as (it' & skip & Hc & Hr & Ho & He' & _);
      [exact Hs|exact Hsink|].
    exists it', skip. rewrite Hc. cbn [bind]. repeat split; auto.
Qed.

End AssertConsume.

(** C7 on the image of [A -> 'x' 'y'], before the input [x]: the first
    ASSERT_CONSUME is in byte mode and looks for 'x'. *)
Lemma assert_consume_outcome_witness :
  let it := Iterator.new (Sample.reader_of [120]) Sample.xy_image Sample.xy_entry false in
  asserted_input (Iterator.reader it) (JS.and 0xE2000078 0x0F000000) = Some (120, 1, 1) /\
  (exists it' skip,
     Iterator.assert_consume it 4 0xE2000078 = Done (4, it') /\
     Iterator.reader it' = Reader.next (Iterator.reader it) 1 /\
     byte_offset (tokens_1 (Iterator.tokens it'))
       = byte_offset (tokens_1 (Iterator.tokens it)) + 1 /\
     Iterator.emitted it'
       = Iterator.emitted it ++ skip ++ [SHIFT (sized_lookahead it 1 1)]).
Proof.
  intros it.
  assert (Hin : asserted_input (Iterator.reader it) (JS.and 0xE2000078 0x0F000000)
                = Some (120, 1, 1)) by (vm_compute; reflexivity).
  split; [exact Hin|].
  apply (proj2 (proj2 (assert_consume_outcome it 4 0xE2000078 120 1 1 Hin)));
    [vm_compute; reflexivity | vm_compute; reflexivity | intros a; reflexivity].
Defined.

(** C7 as stated fails twice on that image.  Before the input [z] the
    ASSERT_CONSUME for 'x' at word 3 does not go on two words further, at
    word 6, but at word 2; before the input [x] it matches and the consume
    it performs is not of length zero: the cursor moves by one byte and the
    token it shifts is one byte long. *)
Lemma assert_consume_skips_to_word_2_and_consumes :
  (exists it',
     Iterator.assert_consume
       (Iterator.new (Sample.reader_of [122]) Sample.xy_image Sample.xy_entry false)
       4 0xE2000078 = Done (2, it') /\ 2 <> 4 + 2) /\
  (exists it',
     Iterator.assert_consume
       (Iterator.new (Sample.reader_of [120]) Sample.xy_image Sample.xy_entry false)
       4 0xE2000078 = Done (4, it') /\
     Sample.cursor (Iterator.reader it') = 1 /\
     Iterator.emitted it' = [SHIFT (mkToken 0 1 0 1 0 0 0)] /\
     byte_length (mkToken 0 1 0 1 0 0 0) <> 0).
Proof.
  split.
  - eexists. split; [vm_compute; reflexivity | lia].
  - eexists. split; [vm_compute; reflexivity|].
    repeat split; try reflexivity. cbn. lia.
Qed.

(** * REDUCE and the symbol accumulator *)

Section StackFacts.

Lemma set_nat_get a i v : nth i (Stack.set_nat a i v) 0 = v.
Proof.
  revert a; induction i as [|i IH]; intros [|x a]; cbn; auto.
Qed.

Lemma stack_get_set a i v : 0 <= i -> Stack.get (Stack.set a i v) i = JS.ToUint32 v.
Proof.
  intros Hi. unfold Stack.get, Stack.set.
  destruct (i <? 0) eqn:Hlt; [lia|]. apply set_nat_get.
Qed.

(** The state popped right after a push is the one pushed, and its meta
    slot, which the instruction loop reads at [pointer + 1], holds the
    32-bit image of the value pushed with it. *)
Lemma pop_push_state s kernel_state meta :
  0 <= Stack.pointer s ->
  let '(state, s') := Stack.pop_state (Stack.push_state s kernel_state meta) in
  state = JS.ToUint32 kernel_state /\
  Stack.pointer s' = Stack.pointer s /\
  Stack.get (Stack.meta_stack s') (Stack.pointer s' + 1) = JS.ToUint32 meta.
Proof.
  intros Hp. unfold Stack.pop_state, Stack.push_state, Stack.read_state. cbn.
  rewrite stack_get_set by lia.
  replace (Stack.pointer s + 1 - 1 + 1) with (Stack.pointer s + 1) by lia.
  rewrite stack_get_set by lia. repeat split; lia.
Qed.

(** Of a snapshot pushed with a state, the low 16 bits are what the meta
    slot of the popped state gives back. *)
Lemma snapshot_low_bits s kernel_state snapshot :
  0 <= Stack.pointer s ->
  let popped := Stack.pop_state (Stack.push_state s kernel_state snapshot) in
  Stack.get (Stack.meta_stack (snd popped)) (Stack.pointer (snd popped) + 1) mod 2 ^ 16
  = snapshot mod 2 ^ 16.
Proof.
  intros Hp popped. subst popped.
  pose proof (pop_push_state s kernel_state snapshot Hp) as Hpp.
  destruct (Stack.pop_state (Stack.push_state s kernel_state snapshot)) as [st s'].
  cbn [snd]. destruct Hpp as (_ & _ & ->). unfold JS.ToUint32.
  apply Z.mod_mod_divide. exists (2 ^ 16). reflexivity.
Qed.

End StackFacts.

Section Reduce.

Context {R : Type} {BR : Reader.ByteReader R} {K : KernelConstants}.

Import Iterator.

Lemma word_in_range bytecode index : image_ok bytecode -> 0 <= num (word bytecode index) < 2 ^ 32.
Proof.
  intros Hok. unfold word. destruct (index <? 0); [cbn; lia|].
  destruct (nth_error bytecode (Z.to_nat index)) as [w|] eqn:Hw; [|cbn; lia].
  cbn. unfold image_ok in Hok. rewrite Forall_forall in Hok.
  apply Hok. eapply nth_error_In; eauto.
Qed.

(** What REDUCE does after it has emitted its action: a SET_PRODUCTION word
    right behind it is applied and skipped. *)
Lemma reduce_tail (it : StateIterator (R := R)) index :
  image_ok (bytecode it) ->
  (if JS.and (num (word (bytecode it) index)) 0xF0000000 =? 0x30000000
   then Done (index + 1, set_production it (num (word (bytecode it) index)))
   else Done (index, it))
  = if opcode (num (word (bytecode it) index)) =? 3
    then Done (index + 1,
               with_production_id it (num (word (bytecode it) index) mod 2 ^ 28))
    else Done (index, it).
Proof.
  intros Hok. pose proof (word_in_range _ index Hok) as Hw.
  change 0x30000000 with (3 * 2 ^ 28).
  rewrite BitFacts.tag_test by (assumption || lia).
  unfold opcode, set_production. now rewrite BitFacts.and_0xFFFFFFF.
Qed.

End Reduce.

(** C4 at the failing input.  On the input [xy] the image with the dynamic
    REDUCE shifts twice and reduces two symbols; by the rule of the spec the
    accumulator should then hold 2 - (2 - 1) = 1, and with the fixed
    encoding it does, but the dynamic branch never touches it and it still
    holds 2. *)
Theorem dynamic_reduce_leaves_accumulator :
  (exists it',
     Iterator.start 20
       (Iterator.new (Sample.reader_of [120; 121]) Sample.xy_dynamic_image Sample.xy_entry false)
       Sample.quiet Iterator.no_forks (-1) = Done it' /\
     Iterator.emitted it'
       = [SHIFT (mkToken 0 1 0 1 0 0 0); SHIFT (mkToken 1 1 1 1 0 0 0);
          REDUCE 0 2 (-1); ACCEPT] /\
     accumulated (Iterator.emitted it') = 1 /\
     Iterator.symbol_accumulator it' = 2) /\
  (exists it',
     Iterator.start 20
       (Iterator.new (Sample.reader_of [120; 121]) Sample.xy_image Sample.xy_entry false)
       Sample.quiet Iterator.no_forks (-1) = Done it' /\
     Iterator.emitted it'
       = [SHIFT (mkToken 0 1 0 1 0 0 0); SHIFT (mkToken 1 1 1 1 0 0 0);
          REDUCE 0 2 (-1); ACCEPT] /\
     accumulated (Iterator.emitted it') = 1 /\
     Iterator.symbol_accumulator it' = 1).
Proof.
  split; eexists; (split; [vm_compute; reflexivity|]); repeat split; reflexivity.
Qed.
(** * The arrays of the stack *)

Lemma shr_0 x : JS.shr x 0 = JS.ToUint32 x.
Proof. unfold JS.shr. change (0 mod 32) with 0. apply Z.shiftr_0_r. Qed.

Lemma ToUint32_idem x : JS.ToUint32 (JS.ToUint32 x) = JS.ToUint32 x.
Proof. unfold JS.ToUint32. apply Z.mod_mod. lia. Qed.

Lemma set_nat_idem a i v : Stack.set_nat (Stack.set_nat a i v) i v = Stack.set_nat a i v.
Proof.
  revert a; induction i as [|i IH]; intros [|x a]; cbn; try reflexivity;
    f_equal; apply IH.
Qed.

Lemma set_idem a i v : Stack.set (Stack.set a i v) i v = Stack.set a i v.
Proof. unfold Stack.set. destruct (i <? 0); [reflexivity | apply set_nat_idem]. Qed.

Lemma set_nat_nth_other a i j v : i <> j -> nth j (Stack.set_nat a i v) 0 = nth j a 0.
Proof.
  revert a j; induction i as [|i IH]; intros [|x a] [|j] Hij; cbn; try congruence;
    try reflexivity.
  - now destruct j.
  - rewrite IH by congruence. now destruct j.
  - apply IH. congruence.
Qed.

Lemma get_set_other a i j v : i <> j -> Stack.get (Stack.set a i v) j = Stack.get a j.
Proof.
  intros Hij. unfold Stack.get, Stack.set.
  destruct (j <? 0) eqn:Hj; [reflexivity|]. destruct (i <? 0) eqn:Hi; [reflexivity|].
  apply set_nat_nth_other. lia.
Qed.


Lemma opcode_range w : 0 <= opcode w < 16.
Proof. unfold opcode. apply Z.mod_pos_bound. lia. Qed.


(** * SCAN_TO *)

Section ScanTo.

Context {R : Type} {BR : Reader.ByteReader R} {K : KernelConstants}.

Import Iterator.

Lemma nth_error_inline_targets bytecode start length k :
  (k < Z.to_nat length)%nat ->
  nth_error (inline_targets bytecode start length) k
  = nth_error bytecode (Z.to_nat start + k).
Proof.
  intros Hk. unfold inline_targets.
  rewrite nth_error_firstn.
  destruct (Nat.ltb_spec k (Z.to_nat length)); [|lia].
  now rewrite nth_error_skipn.
Qed.

(** The [for] loop of [scan_to] decides membership in the inline list. *)
Lemma type_listed_spec bytecode start length t :
  0 <= start ->
  type_listed bytecode start length t = true <-> In t (inline_targets bytecode start length).
Proof.
  intros Hs. unfold type_listed. rewrite existsb_exists. split.
  - intros (k & Hk & Hw). apply in_seq in Hk. unfold word in Hw.
    destruct (start + Z.of_nat k <? 0) eqn:Hneg; [discriminate|].
    destruct (nth_error bytecode (Z.to_nat (start + Z.of_nat k))) as [w|] eqn:Hnth;
      [|discriminate].
    apply Z.eqb_eq in Hw; subst w.
    apply nth_error_In with (n := k).
    rewrite nth_error_inline_targets by lia.
    rewrite <- Hnth. f_equal. lia.
  - intros Hin. apply In_nth_error in Hin. destruct Hin as (k & Hk).
    assert (Hlt : (k < Z.to_nat length)%nat).
    { assert (Hsome : nth_error (inline_targets bytecode start length) k <> None)
        by congruence.
      apply nth_error_Some in Hsome. unfold inline_targets in Hsome.
      rewrite length_firstn in Hsome. lia. }
    exists k. split; [apply in_seq; lia|].
    rewrite nth_error_inline_targets in Hk by assumption.
    unfold word. destruct (start + Z.of_nat k <? 0) eqn:Hneg; [lia|].
    replace (Z.to_nat (start + Z.of_nat k)) with (Z.to_nat start + k)%nat by lia.
    rewrite Hk. apply Z.eqb_refl.
Qed.

Lemma type_listed_false bytecode start length t :
  0 <= start ->
  ~ In t (inline_targets bytecode start length) ->
  type_listed bytecode start length t = false.
Proof.
  intros Hs Hn. destruct (type_listed bytecode start length t) eqn:Hl; [|reflexivity].
  apply type_listed_spec in Hl; tauto.
Qed.

Section WithScanner.

Variable scanner : StateIterator (R := R) -> KernelToken -> Z -> outcome KernelToken.

Lemma scan_to_loop_exhausts (it : StateIterator (R := R)) scanner_index start length temp turns :
  0 <= start ->
  scan_exhausts scanner it scanner_index (inline_targets (bytecode it) start length) temp turns ->
  forall fuel, (turns <= fuel)%nat ->
  scan_to_loop scanner fuel it scanner_index start length temp = Done None.
Proof.
  intros Hs Hex. induction Hex as [temp token Hsc Hnot Hend | temp token turns Hsc Hnot Hend Hex IH];
    intros fuel Hfuel; (destruct fuel as [|fuel]; [lia|]); cbn [scan_to_loop];
    rewrite Hsc; cbn [bind]; rewrite (type_listed_false _ _ _ _ Hs Hnot), Hend.
  - reflexivity.
  - apply IH. lia.
Qed.

Lemma scan_to_loop_finds (it : StateIterator (R := R)) scanner_index start length temp turns found :
  0 <= start ->
  scan_finds scanner it scanner_index (inline_targets (bytecode it) start length) temp turns found ->
  forall fuel, (turns <= fuel)%nat ->
  scan_to_loop scanner fuel it scanner_index start length temp = Done (Some found).
Proof.
  intros Hs Hex.
  induction Hex as [temp token Hsc Hin | temp token turns found Hsc Hnot Hend Hex IH];
    intros fuel Hfuel; (destruct fuel as [|fuel]; [lia|]); cbn [scan_to_loop];
    rewrite Hsc; cbn [bind].
  - apply (type_listed_spec _ _ _ _ Hs) in Hin. now rewrite Hin.
  - rewrite (type_listed_false _ _ _ _ Hs Hnot), Hend. apply IH. lia.
Qed.

Lemma scan_to_scratch (it : StateIterator (R := R)) instruction :
  (let temp_token := Token.set_type (Token.copy (tokens_1 (tokens it))) 0 in
   if JS.and instruction 0x00100000 >? 0 then
     Token.set_codepoint_length
       (Token.set_byte_length
          (Token.set_codepoint_offset
             (Token.set_byte_offset temp_token (byte_offset (tokens_0 (tokens it))))
             (codepoint_offset (tokens_0 (tokens it)))) 0) 0
   else temp_token)
  = scratch_token it (JS.and instruction 0x00100000 >? 0).
Proof.
  unfold scratch_token. destruct (JS.and instruction 0x00100000 >? 0); reflexivity.
Qed.

(** C10.  When the scan of a SCAN_TO exhausts the input, no resolved token
    having a type of the inline list, the instruction loop goes on at word
    1 of the image and the iterator, its lookahead token included, is as it
    was.  When instead a listed type is found, the loop goes on behind the
    inline list, at [index + 1 + length], and a forward scan has put the
    found token in the lookahead. *)
Theorem scan_to_exhausted_continues_at_word_1 (it : StateIterator (R := R)) index instruction :
  0 <= index ->
  let length := instruction mod 2 ^ 16 in
  let scanner_index := num (word (bytecode it) index) in
  let scan_back := JS.and instruction 0x00100000 >? 0 in
  let targets := inline_targets (bytecode it) (index + 1) length in
  (forall turns,
     scan_exhausts scanner it scanner_index targets (scratch_token it scan_back) turns ->
     forall fuel, (turns <= fuel)%nat ->
     scan_to scanner fuel it index instruction = Done (1, it)) /\
  (forall turns found,
     scan_finds scanner it scanner_index targets (scratch_token it scan_back) turns found ->
     forall fuel, (turns <= fuel)%nat ->
     scan_to scanner fuel it index instruction
     = Done (index + 1 + length,
             if scan_back then it else with_tokens_1 it found)).
Proof.
  intros Hi length scanner_index scan_back targets. split.
  - intros turns Hex fuel Hfuel. unfold scan_to.
    rewrite BitFacts.and_0xFFFF. cbv zeta. rewrite scan_to_scratch.
    rewrite (scan_to_loop_exhausts it scanner_index (index + 1) length _ turns);
      [reflexivity | lia | exact Hex | exact Hfuel].
  - intros turns found Hf fuel Hfuel. unfold scan_to.
    rewrite BitFacts.and_0xFFFF. cbv zeta. rewrite scan_to_scratch.
    rewrite (scan_to_loop_finds it scanner_index (index + 1) length _ turns found);
      [| lia | exact Hf | exact Hfuel].
    cbn [bind]. fold scan_back. destruct scan_back; reflexivity.
Qed.

End WithScanner.

End ScanTo.

(** C10 on the sample image, before the input of two blanks and an [a]:
    the scanner, started at offset 0, skips the blanks and resolves an
    untyped token at offset 2; the scan steps over it and resolves another
    at offset 3, the end of the input. *)
Lemma scan_to_exhausted_continues_at_word_1_witness :
  let it := Iterator.new (Sample.reader_of [32; 32; 97]) Sample.lexer_image
                         Sample.scan_to_entry false in
  0 <= 16 /\
  scan_exhausts (Iterator.scanner 30) it (num (word (Iterator.bytecode it) 16))
    (inline_targets (Iterator.bytecode it) (16 + 1) (0x70000001 mod 2 ^ 16))
    (scratch_token it (JS.and 0x70000001 0x00100000 >? 0)) 2 /\
  Iterator.scan_to (Iterator.scanner 30) 2 it 16 0x70000001 = Done (1, it).
Proof.
  intros it.
  assert (Hex : scan_exhausts (Iterator.scanner 30) it (num (word (Iterator.bytecode it) 16))
            (inline_targets (Iterator.bytecode it) (16 + 1) (0x70000001 mod 2 ^ 16))
            (scratch_token it (JS.and 0x70000001 0x00100000 >? 0)) 2).
  { eapply scan_exhausts_later with (token := mkToken 2 0 2 0 0 0 0).
    - vm_compute; reflexivity.
    - vm_compute. intros [H|[]]; discriminate.
    - vm_compute; reflexivity.
    - eapply scan_exhausts_now with (token := mkToken 3 0 3 0 0 0 0).
      + vm_compute; reflexivity.
      + vm_compute. intros [H|[]]; discriminate.
      + vm_compute; reflexivity. }
  split; [lia|]. split; [exact Hex|].
  exact (proj1 (scan_to_exhausted_continues_at_word_1 (Iterator.scanner 30) it
                  16 0x70000001 ltac:(lia)) 2%nat Hex 2%nat (le_n 2)).
Defined.

(** * The scanner *)

Section Scanner.

Context {R : Type} {BR : Reader.ByteReader R} {K : KernelConstants}.

Import Iterator.



End Scanner.


(** * DebugIterator.next_state *)

(** C9 at the failing input.  A debug iterator is made for the image whose
    entry block matches an 'x' and does a GOTO, and [next_state] is called
    twice on the snapshot the constructor made, with the same goal.  The
    first call shifts, so the iterator's [symbol_accumulator] goes from 0 to
    1; [next_state] restores the reader, the production, the tokens and the
    stack from the snapshot but not the accumulator, so the second call
    starts from 1: the GOTO pushes the snapshot 1 in the first step and 2 in
    the second, and the two resulting snapshots differ in their stack.  On
    the image with the dynamic REDUCE the emitted actions differ as well:
    the first step reduces 2 symbols, the second 4. *)
Theorem next_state_depends_on_earlier_steps :
  (let d0 := Debug.new (Sample.reader_of [120; 121]) Sample.goto_image Sample.xy_entry in
   let prev := Debug.active_debug_state d0 in
   exists s1 d1 s2 d2,
     Debug.next_state 20 d0 prev (-1) = Done (s1, d1) /\
     Debug.next_state 20 d1 prev (-1) = Done (s2, d2) /\
     Stack.meta_stack (Debug.stack s1) = [0; 1] /\
     Stack.meta_stack (Debug.stack s2) = [0; 2] /\
     s1 <> s2) /\
  (let d0 := Debug.new (Sample.reader_of [120; 121]) Sample.xy_dynamic_image Sample.xy_entry in
   let prev := Debug.active_debug_state d0 in
   exists s1 d1 s2 d2,
     Debug.next_state 20 d0 prev (-1) = Done (s1, d1) /\
     Debug.next_state 20 d1 prev (-1) = Done (s2, d2) /\
     List.last (Debug.actions s1) ACCEPT = REDUCE 0 2 (-1) /\
     List.last (Debug.actions s2) ACCEPT = REDUCE 0 4 (-1) /\
     Debug.actions s1 <> Debug.actions s2).
Proof.
  split; cbv zeta.
  - eexists; eexists; eexists; eexists.
    split; [vm_compute; reflexivity|].
    split; [vm_compute; reflexivity|].
    split; [reflexivity|]. split; [reflexivity|].
    intros H. apply (f_equal (fun s => Stack.meta_stack (Debug.stack s))) in H.
    vm_compute in H. discriminate.
  - eexists; eexists; eexists; eexists.
    split; [vm_compute; reflexivity|].
    split; [vm_compute; reflexivity|].
    split; [reflexivity|]. split; [reflexivity|].
    intros H. apply (f_equal (fun l => List.last l ACCEPT)) in H.
    vm_compute in H. discriminate.
Qed.

(** * INDEX_JUMP and HASH_JUMP *)

Section JumpTargets.

Lemma cell_decode w :
  JS.and w 0x7FF = cell_value w /\
  JS.and (JS.sar w 11) 0x7FF = cell_start w /\
  JS.and (JS.shr w 22) 0x3FF - 512 = cell_step w.
Proof.
  unfold cell_value, cell_start, cell_step. split; [apply BitFacts.and_0x7FF|]. split.
  - change 0x7FF with (Z.ones 11). apply BitFacts.sar_and_ones; lia.
  - change 0x3FF with (Z.ones 10). rewrite BitFacts.shr_and_ones by lia. reflexivity.
Qed.

(** The probe loop follows the probe path and stops at the first cell that
    holds the input value. *)
Lemma hash_probe_follows_path bytecode index start size v home path :
  probe_path bytecode index home path ->
  forall fuel, (List.length path <= fuel)%nat ->
  Iterator.hash_probe fuel bytecode (index + 2) start size v home
  = Done (match find (fun slot => cell_value (cell bytecode index slot) =? v) path with
          | Some slot => start + cell_start (cell bytecode index slot)
          | None => size + start
          end).
Proof.
  induction 1 as [slot Hstop | slot path Hstep Hpath IH]; intros fuel Hfuel;
    (destruct fuel as [|fuel]; [cbn in Hfuel; lia|]); cbn [Iterator.hash_probe find];
    fold (cell bytecode index slot);
    destruct (cell_decode (cell bytecode index slot)) as (-> & -> & ->).
  - destruct (cell_value (cell bytecode index slot) =? v); [reflexivity|].
    rewrite Hstop. reflexivity.
  - destruct (cell_value (cell bytecode index slot) =? v); [reflexivity|].
    destruct (cell_step (cell bytecode index slot) =? 0) eqn:Hz; [lia|].
    apply IH. cbn in Hfuel. lia.
Qed.

Lemma dispatch_key_bound bytecode index bits offset_of table key block :
  0 <= bits ->
  hash_encodes bytecode index bits offset_of table ->
  dispatch table key = Some block -> 0 <= key < 2 ^ 11.
Proof.
  intros Hbits Henc Hd.
  assert (Hhome : 0 <= key mod 2 ^ bits < 2 ^ bits)
    by (apply Z.mod_pos_bound, Z.pow_pos_nonneg; lia).
  destruct (Henc _ Hhome) as (path & _ & _ & Hmeet).
  destruct (Hmeet key block Hd eq_refl) as (slot & _ & Hv).
  rewrite <- Hv. unfold cell_value. apply Z.mod_pos_bound. lia.
Qed.

(** HASH_JUMP lands on the block of the entry for the input value, and on
    the default block when there is none. *)
Lemma hash_jump_target_dispatch bytecode index instruction bits table_size field_size
    offset_of table v :
  hash_table_at bytecode index instruction bits table_size field_size ->
  hash_encodes bytecode index bits offset_of table ->
  exists fuel0, forall fuel, (fuel0 <= fuel)%nat ->
    Iterator.hash_jump_target fuel bytecode index instruction v
    = Done (hash_block index table_size field_size offset_of (dispatch table v)).
Proof.
  intros (Hsize & Hdata & Hbits & Hts) Henc.
  assert (Hpow : 0 < 2 ^ bits) by (apply Z.pow_pos_nonneg; lia).
  assert (Hpow' : 2 ^ bits <= 2 ^ 30) by (apply Z.pow_le_mono_r; lia).
  assert (Hhome : 0 <= v mod 2 ^ bits < 2 ^ bits) by (apply Z.mod_pos_bound; lia).
  destruct (Henc _ Hhome) as (path & Hpath & Hheld & Hmeet).
  exists (List.length path). intros fuel Hfuel.
  unfold Iterator.hash_jump_target. rewrite Hdata. cbn [num].
  assert (Hq : (bits * 2 ^ 16 + table_size) / 2 ^ 16 = bits).
  { rewrite Z.add_comm, Z.div_add by lia. rewrite Z.div_small by lia. lia. }
  assert (Hr : (bits * 2 ^ 16 + table_size) mod 2 ^ 16 = table_size).
  { rewrite Z.add_comm, Z.mod_add by lia. apply Z.mod_small; lia. }
  assert (Hhi : JS.and (JS.shr (bits * 2 ^ 16 + table_size) 16) 0xFFFF = bits).
  { change 0xFFFF with (Z.ones 16). rewrite BitFacts.shr_and_ones by lia.
    rewrite Hq. apply Z.mod_small; lia. }
  rewrite Hhi, !BitFacts.and_0xFFFF, Hsize, Hr.
  assert (Hmod : JS.shl 1 bits - 1 = Z.ones bits).
  { unfold JS.shl. rewrite (Z.mod_small bits 32) by lia.
    rewrite Z.shiftl_1_l, BitFacts.ToInt32_small by lia.
    rewrite Z.ones_equiv. lia. }
  rewrite Hmod, BitFacts.and_ones by lia.
  rewrite (hash_probe_follows_path _ _ _ _ _ _ _ Hpath) by exact Hfuel.
  f_equal. unfold hash_block.
  destruct (find (fun slot => cell_value (cell bytecode index slot) =? v) path)
    as [slot|] eqn:Hfind.
  - apply find_some in Hfind. destruct Hfind as (Hin & Hv). apply Z.eqb_eq in Hv.
    destruct (Hheld slot Hin) as (block & Hd & Hstart).
    rewrite Hv in Hd. rewrite Hd, Hstart. reflexivity.
  - destruct (dispatch table v) as [block|] eqn:Hd; [|lia].
    destruct (Hmeet v block Hd eq_refl) as (slot & Hin & Hv).
    pose proof (find_none _ _ Hfind slot Hin) as Hno. cbn in Hno.
    apply Z.eqb_neq in Hno. tauto.
Qed.

(** INDEX_JUMP lands on the row of the input value, and on the default
    block when the value is outside the rows. *)
Lemma index_jump_target_dispatch bytecode index instruction basis rows row_size table v :
  index_table_at bytecode index instruction basis rows row_size ->
  rows < 2 ^ 15 ->
  index_encodes basis rows table ->
  Iterator.index_jump_target bytecode index instruction v
  = index_block index row_size (dispatch table v).
Proof.
  intros (Hbasis & Hdata & Hrows & Hrs) Hsmall Henc.
  unfold Iterator.index_jump_target. rewrite Hdata. cbn [num].
  rewrite !BitFacts.and_0xFFFF, Hbasis.
  assert (Hq : (rows * 2 ^ 16 + row_size) / 2 ^ 16 = rows).
  { rewrite Z.add_comm, Z.div_add by lia. rewrite Z.div_small by lia. lia. }
  assert (Hr : (rows * 2 ^ 16 + row_size) mod 2 ^ 16 = row_size).
  { rewrite Z.add_comm, Z.mod_add by lia. apply Z.mod_small; lia. }
  assert (Hsar : JS.sar (rows * 2 ^ 16 + row_size) 16 = rows).
  { unfold JS.sar. rewrite BitFacts.ToInt32_small by nia.
    rewrite (Z.mod_small 16 32) by lia. now rewrite Z.shiftr_div_pow2 by lia. }
  rewrite Hsar, Hr, Henc. unfold index_block.
  destruct (basis <=? v) eqn:Hlo; destruct (v <? basis + rows) eqn:Hhi; cbn [andb];
    destruct (v - basis >=? 0) eqn:Ha; destruct (v - basis <? rows) eqn:Hb; cbn [andb];
    lia.
Qed.

End JumpTargets.

Section Jumps.

Context {R : Type} {BR : Reader.ByteReader R} {K : KernelConstants}.

Import Iterator.

Variable scanner : StateIterator (R := R) -> KernelToken -> Z -> outcome KernelToken.

Lemma read_input_bytecode (it : StateIterator (R := R)) at_end token input_type pointer v it' :
  read_input scanner it at_end token input_type pointer = Done (v, it') ->
  bytecode it' = bytecode it.
Proof.
  unfold read_input. intros H. destruct at_end; invert_run H; reflexivity.
Qed.

Lemma get_input_value_bytecode (it : StateIterator (R := R)) input_type transition pointer v it' :
  get_input_value scanner it input_type transition pointer = Done (v, it') ->
  bytecode it' = bytecode it.
Proof.
  unfold get_input_value. intros H.
  repeat match type of H with
         | read_input _ _ _ _ _ _ = _ => apply read_input_bytecode in H; fields in *
         | Done _ = Done _ => inversion H; subst; clear H
         | context [match ?x with _ => _ end] => destruct x eqn:?
         end; try reflexivity; try assumption.
Qed.

(** C6.  Let an INDEX_JUMP and a HASH_JUMP of one image hold the same
    dispatch [table], and let them select their input in the same way.
    From the same iterator both resolve the same input value and both
    leave the iterator in the same state; INDEX_JUMP goes on at its block
    for that value and HASH_JUMP at its own block for that value, both at
    their default block when [table] has no entry for it. *)
Theorem index_and_hash_jump_agree (it : StateIterator (R := R))
    index_i instruction_i basis rows row_size
    index_h instruction_h bits table_size field_size offset_of table :
  index_table_at (bytecode it) index_i instruction_i basis rows row_size ->
  index_encodes basis rows table ->
  hash_table_at (bytecode it) index_h instruction_h bits table_size field_size ->
  hash_encodes (bytecode it) index_h bits offset_of table ->
  JS.and (JS.sar instruction_i 22) 0x7 = JS.and (JS.sar instruction_h 22) 0x7 ->
  JS.and (JS.sar instruction_i 26) 0x3 = JS.and (JS.sar instruction_h 26) 0x3 ->
  num (word (bytecode it) index_i) = num (word (bytecode it) index_h) ->
  forall v it',
    get_input_value scanner it (JS.and (JS.sar instruction_i 22) 0x7)
      (JS.and (JS.sar instruction_i 26) 0x3) (num (word (bytecode it) index_i))
    = Done (v, it') ->
    index_jump scanner it index_i instruction_i
    = Done (index_block index_i row_size (dispatch table v), it') /\
    exists fuel0, forall fuel, (fuel0 <= fuel)%nat ->
      hash_jump scanner fuel it index_h instruction_h
      = Done (hash_block index_h table_size field_size offset_of (dispatch table v), it').
Proof.
  intros Hit Hie Hht Hhe Htype Hlexer Hpointer v it' Hvalue.
  pose proof (get_input_value_bytecode _ _ _ _ _ _ Hvalue) as Hbc.
  assert (Hsmall : rows < 2 ^ 15).
  { destruct Hit as (Hbasis & _ & Hrows & _).
    destruct (Z.eq_dec rows 0) as [->|Hnz]; [lia|].
    assert (Hd : dispatch table (basis + (rows - 1)) = Some (rows - 1)).
    { rewrite Hie.
      destruct (basis <=? basis + (rows - 1)) eqn:Hlo; [|lia].
      destruct (basis + (rows - 1) <? basis + rows) eqn:Hhi; [|lia].
      cbn [andb]. f_equal. lia. }
    destruct Hht as (_ & _ & Hbits & _).
    pose proof (dispatch_key_bound _ _ _ _ _ _ _ (proj1 Hbits) Hhe Hd) as Hkey.
    assert (0 <= basis) by (rewrite <- Hbasis; apply Z.mod_pos_bound; lia).
    lia. }
  split.
  - unfold index_jump. rewrite Hvalue. cbn [bind]. rewrite Hbc.
    now rewrite (index_jump_target_dispatch _ _ _ _ _ _ _ v Hit Hsmall Hie).
  - destruct (hash_jump_target_dispatch _ _ _ _ _ _ _ _ v Hht Hhe) as (fuel0 & Hfuel0).
    exists fuel0. intros fuel Hfuel. unfold hash_jump.
    rewrite <- Htype, <- Hlexer, <- Hpointer, Hvalue. cbn [bind]. rewrite Hbc.
    now rewrite (Hfuel0 fuel Hfuel).
Qed.

End Jumps.

(** C6 on the sample image with the two layouts of the dispatch
    [4 -> block 0, 5 -> block 1], the production id being 5. *)
Lemma index_and_hash_jump_agree_witness :
  let it := Iterator.with_production_id
              (Iterator.new (Sample.reader_of []) Sample.jump_image Sample.xy_entry false) 5 in
  let table := [(4, 0); (5, 1)] in
  let offset_of := fun block : Z => block in
  index_table_at (Iterator.bytecode it) 4 0x90000004 4 2 1 /\
  index_encodes 4 2 table /\
  hash_table_at (Iterator.bytecode it) 10 0xA0000002 1 2 2 /\
  hash_encodes (Iterator.bytecode it) 10 1 offset_of table /\
  Iterator.index_jump (Iterator.scanner 5) it 4 0x90000004 = Done (8, it) /\
  exists fuel0, forall fuel, (fuel0 <= fuel)%nat ->
    Iterator.hash_jump (Iterator.scanner 5) fuel it 10 0xA0000002 = Done (15, it).
Proof.
  intros it table offset_of.
  assert (Hit : index_table_at (Iterator.bytecode it) 4 0x90000004 4 2 1)
    by (repeat split; vm_compute; congruence).
  assert (Hdis : forall key block, dispatch table key = Some block ->
                   (key = 4 /\ block = 0) \/ (key = 5 /\ block = 1)).
  { intros key block. unfold dispatch, table. cbn [find fst snd].
    destruct (4 =? key) eqn:H4; [apply Z.eqb_eq in H4; cbn; intros [= <-]; lia|].
    destruct (5 =? key) eqn:H5; [apply Z.eqb_eq in H5; cbn; intros [= <-]; lia|].
    cbn. discriminate. }
  assert (Hie : index_encodes 4 2 table).
  { intros v. unfold dispatch, table. cbn [find fst snd].
    destruct (4 =? v) eqn:H4; [apply Z.eqb_eq in H4; subst v; reflexivity|].
    destruct (5 =? v) eqn:H5; [apply Z.eqb_eq in H5; subst v; reflexivity|].
    apply Z.eqb_neq in H4, H5. cbn [option_map].
    destruct (4 <=? v) eqn:Hlo; destruct (v <? 4 + 2) eqn:Hhi; cbn [andb]; try reflexivity.
    lia. }
  assert (Hht : hash_table_at (Iterator.bytecode it) 10 0xA0000002 1 2 2)
    by (repeat split; vm_compute; congruence).
  assert (Hhe : hash_encodes (Iterator.bytecode it) 10 1 offset_of table).
  { intros home Hhome. assert (Hcase : home = 0 \/ home = 1) by lia.
    exists [home]. destruct Hcase as [-> | ->].
    - split; [apply probe_stop; vm_compute; reflexivity|]. split.
      + intros slot [<-|[]]. exists 0. split; vm_compute; reflexivity.
      + intros key block Hd Hm. exists 0. split; [now left|].
        destruct (Hdis _ _ Hd) as [[-> _]|[-> _]]; [vm_compute; reflexivity|].
        vm_compute in Hm. discriminate.
    - split; [apply probe_stop; vm_compute; reflexivity|]. split.
      + intros slot [<-|[]]. exists 1. split; vm_compute; reflexivity.
      + intros key block Hd Hm. exists 1. split; [now left|].
        destruct (Hdis _ _ Hd) as [[-> _]|[-> _]]; [|vm_compute; reflexivity].
        vm_compute in Hm. discriminate. }
  split; [exact Hit|]. split; [exact Hie|]. split; [exact Hht|]. split; [exact Hhe|].
  exact (index_and_hash_jump_agree (Iterator.scanner 5) it
           4 0x90000004 4 2 1 10 0xA0000002 1 2 2 offset_of table
           Hit Hie Hht Hhe eq_refl eq_refl eq_refl 5 it eq_refl).
Defined.

(** * Sessions: what a run of [start] reports *)

Section Growth.

Context {R : Type} {BR : Reader.ByteReader R} {K : KernelConstants}.

Import Iterator.

Lemma grows_same (it it' : StateIterator (R := R)) : emitted it' = emitted it -> grows it it'.
Proof. intros H. exists []. rewrite app_nil_r. auto. Qed.

Lemma grows_refl (it : StateIterator (R := R)) : grows it it.
Proof. now apply grows_same. Qed.

Lemma grows_trans (a b c : StateIterator (R := R)) : grows a b -> grows b c -> grows a c.
Proof.
  intros (l1 & H1 & F1) (l2 & H2 & F2). exists (l1 ++ l2).
  rewrite H2, H1, app_assoc. split; [reflexivity | now apply Forall_app].
Qed.

Lemma emit_inv (it it' : StateIterator (R := R)) a :
  emit it a = Done it' -> it' = with_emitted it (emitted it ++ [a]).
Proof. unfold emit. destruct (handler it a); [discriminate|]. now intros [= <-]. Qed.

Lemma grows_emit (it it' : StateIterator (R := R)) a :
  ~ terminal a -> emit it a = Done it' -> grows it it'.
Proof.
  intros Ha H. apply emit_inv in H. subst it'. exists [a]. split; [reflexivity|].
  now constructor.
Qed.

Lemma emitShift_grows (it it' : StateIterator (R := R)) :
  emitShift it = Done it' -> grows it it'.
Proof.
  unfold emitShift. intros H. invert_run H.
  - apply grows_emit in E; [|cbn; tauto]. apply grows_emit in H; [|cbn; tauto].
    eapply grows_trans; [|exact H]. eapply grows_trans; [|exact E].
    now apply grows_same.
  - apply grows_emit in H; [|cbn; tauto]. eapply grows_trans; [|exact H].
    now apply grows_same.
Qed.

Lemma consume_grows (it it' : StateIterator (R := R)) instruction :
  consume it instruction = Done it' -> grows it it'.
Proof.
  unfold consume, advance_token. intros H. invert_run H;
    try (now apply grows_same);
    apply emitShift_grows in E; (eapply grows_trans; [|eapply grows_trans; [exact E|]]);
    now apply grows_same.
Qed.

Lemma emitReduce_grows (it it' : StateIterator (R := R)) n b :
  emitReduce it n b = Done it' -> grows it it'.
Proof.
  unfold emitReduce. intros H. apply grows_emit in H; [|cbn; tauto].
  eapply grows_trans; [|exact H]. now apply grows_same.
Qed.

Lemma reduce_grows (it it' : StateIterator (R := R)) instruction index rd index' :
  reduce it instruction index rd = Done (index', it') -> grows it it'.
Proof.
  unfold reduce. intros H. invert_run H;
    apply emitReduce_grows in E;
    (eapply grows_trans; [|eapply grows_trans; [exact E|]]); now apply grows_same.
Qed.

Lemma set_token_grows (it it' : StateIterator (R := R)) instruction index index' :
  set_token it instruction index = Done (index', it') -> grows it it'.
Proof.
  unfold set_token. intros H. invert_run H;
    try (apply consume_grows in E; eapply grows_trans; [exact E|]);
    now apply grows_same.
Qed.

Lemma assert_consume_grows (it it' : StateIterator (R := R)) index instruction index' :
  assert_consume it index instruction = Done (index', it') -> grows it it'.
Proof.
  unfold assert_consume. intros H. invert_run H;
    try (now apply grows_same);
    apply consume_grows in E; (eapply grows_trans; [|exact E]); now apply grows_same.
Qed.

Lemma goto_emitted (it : StateIterator (R := R)) instruction index :
  emitted (snd (goto it instruction index)) = emitted it.
Proof.
  unfold goto. destruct (goto_chain _ _ _ _). reflexivity.
Qed.

Lemma push_fail_state_emitted (it : StateIterator (R := R)) instruction :
  emitted (push_fail_state it instruction) = emitted it.
Proof. unfold push_fail_state. destruct (negb _); reflexivity. Qed.

Lemma emit_all_grows (it it' : StateIterator (R := R)) buffer :
  Forall (fun a => ~ terminal a) buffer -> emit_all it buffer = Done it' -> grows it it'.
Proof.
  intros HF; revert it; induction HF as [|a buffer Ha HF IH]; intros it H; cbn in H.
  - inversion H; subst. apply grows_refl.
  - invert_run H. apply grows_emit in E; [|exact Ha]. eapply grows_trans; eauto.
Qed.

Lemma fork_grows fh (it it' : StateIterator (R := R)) instruction index index' :
  replays_no_terminal fh ->
  fork (Some fh) it instruction index = Done (index', it') -> grows it it'.
Proof.
  intros Hfh. unfold fork. intros H.
  destruct (Hfh (FORK (index - 1)) (with_ACTION_BUFFER_EMPTY it false)) as (Hbuf & Hem).
  destruct (fh (FORK (index - 1)) (with_ACTION_BUFFER_EMPTY it false)) as [buffer it1].
  cbn [fst snd] in *. invert_run H.
  - apply emit_all_grows in E; [|exact Hbuf]. eapply grows_trans; [|exact E].
    now apply grows_same.
  - now apply grows_same.
Qed.

Section WithScanner.

Variable scanner : StateIterator (R := R) -> KernelToken -> Z -> outcome KernelToken.

Lemma read_input_emitted (it it' : StateIterator (R := R)) at_end token input_type pointer v :
  read_input scanner it at_end token input_type pointer = Done (v, it') ->
  emitted it' = emitted it.
Proof. unfold read_input. intros H. destruct at_end; invert_run H; reflexivity. Qed.

Lemma get_input_value_emitted (it it' : StateIterator (R := R)) input_type transition pointer v :
  get_input_value scanner it input_type transition pointer = Done (v, it') ->
  emitted it' = emitted it.
Proof.
  unfold get_input_value. intros H.
  repeat match type of H with
         | read_input _ _ _ _ _ _ = _ => apply read_input_emitted in H; fields in *
         | Done _ = Done _ => inversion H; subst; clear H
         | context [match ?x with _ => _ end] => destruct x eqn:?
         end; try reflexivity; try assumption.
Qed.

Lemma index_jump_grows (it it' : StateIterator (R := R)) index instruction index' :
  index_jump scanner it index instruction = Done (index', it') -> grows it it'.
Proof.
  unfold index_jump. intros H. invert_run H.
  apply get_input_value_emitted in E. now apply grows_same.
Qed.

Lemma hash_jump_grows fuel (it it' : StateIterator (R := R)) index instruction index' :
  hash_jump scanner fuel it index instruction = Done (index', it') -> grows it it'.
Proof.
  unfold hash_jump. intros H. invert_run H.
  apply get_input_value_emitted in E. now apply grows_same.
Qed.

Lemma scan_to_grows fuel (it it' : StateIterator (R := R)) index instruction index' :
  scan_to scanner fuel it index instruction = Done (index', it') -> grows it it'.
Proof.
  unfold scan_to. intros H. invert_run H; now apply grows_same.
Qed.

Lemma execute_grows fuel fh (it : StateIterator (R := R)) instruction index rd fm r :
  replays_no_terminal fh ->
  execute scanner fuel (Some fh) it instruction index rd fm = Done r ->
  match r with
  | Continue _ it' => grows it it'
  | Return _ it' => grows it it'
  end.
Proof.
  intros Hfh H. opcode_cases H; invert_run H;
    eauto using grows_refl, consume_grows, reduce_grows, set_token_grows, fork_grows,
      scan_to_grows, index_jump_grows, hash_jump_grows, assert_consume_grows,
      grows_same, push_fail_state_emitted.
  all: try (apply grows_same;
            match goal with
            | E : goto ?i ?a ?b = _ |- _ =>
                pose proof (goto_emitted i a b) as Hg; rewrite E in Hg; exact Hg
            end).
Qed.

Lemma instruction_loop_grows fh fuel :
  replays_no_terminal fh ->
  forall (it : StateIterator (R := R)) index rd fm fm' it',
    instruction_loop scanner fuel (Some fh) it index rd fm = Done (fm', it') ->
    grows it it'.
Proof.
  intros Hfh. induction fuel as [|fuel IH]; intros it index rd fm fm' it' H;
    [discriminate|].
  cbn [instruction_loop] in H.
  destruct (execute scanner fuel (Some fh) it (num (word (bytecode it) index))
              (index + 1) rd fm) as [r| |] eqn:E; cbn [bind] in H; try discriminate.
  apply execute_grows in E; [|exact Hfh]. destruct r as [index1 it1 | fm1 it1].
  - eapply grows_trans; [exact E|]. eapply IH; eauto.
  - inversion H; subst. exact E.
Qed.

(** Whatever the driver loop has done when it returns, the last thing it
    did was to report the action of the empty stack, and nothing it reported
    before ends a session. *)
Lemma start_loop_grows fh fuel :
  replays_no_terminal fh ->
  forall root (it : StateIterator (R := R)) fm lgs it',
    start_loop scanner fuel (Some fh) root it fm lgs = Done it' ->
    exists last fm' lgs',
      grows it last /\
      it' = with_emitted last
              (emitted last ++ [final_action last root fm' lgs']).
Proof.
  intros Hfh. induction fuel as [|fuel IH]; intros root it fm lgs it' H; [discriminate|].
  cbn [start_loop] in H.
  destruct (Stack.pointer (stack it) <? 1).
  - apply emit_inv in H. exists it, fm, lgs. split; [apply grows_refl | exact H].
  - destruct (Stack.pop_state (stack it)) as [state s].
    destruct (state >? 0).
    + destruct (JS.truthy _).
      * unfold instruction_executor in H.
        destruct (instruction_loop _ _ _ _ _ _ _) as [[fm1 it1]| |] eqn:E;
          cbn [bind] in H; try discriminate.
        apply instruction_loop_grows in E; [|exact Hfh].
        destruct (IH _ _ _ _ _ H) as (last & fm' & lgs' & Hg & Hlast).
        exists last, fm', lgs'. split; [|exact Hlast].
        eapply grows_trans; [|exact Hg]. eapply grows_trans; [|exact E].
        now apply grows_same.
      * destruct (IH _ _ _ _ _ H) as (last & fm' & lgs' & Hg & Hlast).
        exists last, fm', lgs'. split; [|exact Hlast].
        eapply grows_trans; [|exact Hg]. now apply grows_same.
    + destruct (IH _ _ _ _ _ H) as (last & fm' & lgs' & Hg & Hlast).
      exists last, fm', lgs'. split; [|exact Hlast].
      eapply grows_trans; [|exact Hg]. now apply grows_same.
Qed.

End WithScanner.

End Growth.

(** * Straight-line images terminate *)

Section StraightLine.

Context {R : Type} {BR : Reader.ByteReader R} {K : KernelConstants}.

Import Iterator.









Section WithScanner.

Variable scanner : StateIterator (R := R) -> KernelToken -> Z -> outcome KernelToken.



Lemma word_outside bytecode index :
  index < 0 \/ Z.of_nat (List.length bytecode) <= index -> num (word bytecode index) = 0.
Proof.
  intros H. unfold word. destruct (index <? 0) eqn:Hn; [reflexivity|].
  destruct (nth_error bytecode (Z.to_nat index)) eqn:Hw; [|reflexivity].
  assert (nth_error bytecode (Z.to_nat index) <> None) by congruence.
  apply nth_error_Some in H0. lia.
Qed.




End WithScanner.

End StraightLine.
(** * Images that only move forward terminate *)

Section Weights.




Lemma word_some_range bytecode p w :
  word bytecode p = Some w -> 0 <= p < Z.of_nat (List.length bytecode).
Proof.
  unfold word. destruct (p <? 0) eqn:Hp; [discriminate|]. intros H.
  assert (Hs : nth_error bytecode (Z.to_nat p) <> None) by congruence.
  apply nth_error_Some in Hs. lia.
Qed.



End Weights.

Section ForwardSteps.

Context {R : Type} {BR : Reader.ByteReader R} {K : KernelConstants}.

Import Iterator.





End ForwardSteps.

Section ForwardImages.

Context {R : Type} {BR : Reader.ByteReader R} {K : KernelConstants}.

Import Iterator.

Variable scanner : StateIterator (R := R) -> KernelToken -> Z -> outcome KernelToken.










Lemma skipn_cons (l : list Z) n a rest :
  skipn n l = a :: rest -> nth_error l n = Some a /\ skipn (S n) l = rest.
Proof.
  revert l; induction n as [|n IH]; intros [|x l] H; cbn in *; try discriminate.
  - inversion H. split; reflexivity.
  - apply IH in H. exact H.
Qed.










End ForwardImages.

Section Session.

Context {R : Type} {BR : Reader.ByteReader R} {K : KernelConstants}.

Import Iterator.

Lemma final_action_terminal (it : StateIterator (R := R)) root fm lgs :
  terminal (final_action it root fm lgs) /\
  (SCANNER it = true -> exists t, final_action it root fm lgs = TOKEN t) /\
  (SCANNER it = false ->
   final_action it root fm lgs = ACCEPT \/
   exists a b c d e, final_action it root fm lgs = ERROR a b c d e).
Proof.
  unfold final_action. destruct (SCANNER it).
  - split; [exact I|]. split; [eauto | discriminate].
  - split; [|split; [discriminate|intros _]];
      destruct fm; cbn; try destruct (_ && _); try destruct (Reader.offset_at_end _ _);
      cbn; eauto 10.
Qed.


End Session.




(** The conditions on GOTO cannot be dropped either: the image whose entry
    block pushes itself gives the driver the same stack turn after turn. *)
Lemma goto_recurses_for_ever :
  image_ok Sample.recursive_image /\
  forall fuel,
    Iterator.start fuel
      (Iterator.new (Sample.reader_of []) Sample.recursive_image Sample.recursive_entry false)
      Sample.quiet Iterator.no_forks (-1) = OutOfFuel.
Proof.
  split; [repeat constructor; vm_compute; congruence|].
  set (it0 := Iterator.with_handler
                (Iterator.new (Sample.reader_of []) Sample.recursive_image
                              Sample.recursive_entry false) Sample.quiet).
  assert (Hturn : forall fuel scanner fm,
            Iterator.instruction_executor scanner (S (S fuel)) (Some Iterator.no_forks)
              (Iterator.with_stack it0 (snd (Stack.pop_state (Iterator.stack it0))))
              Sample.recursive_entry fm
            = Done (false, it0)).
  { intros fuel scanner fm. reflexivity. }
  assert (Hloop : forall fuel scanner lgs,
            Iterator.start_loop scanner fuel (Some Iterator.no_forks) (-1) it0 false lgs
            = OutOfFuel).
  { induction fuel as [|fuel IH]; intros scanner lgs; [reflexivity|].
    cbn [Iterator.start_loop].
    change (Stack.pointer (Iterator.stack it0) <? 1) with false. cbv iota.
    change (Stack.pop_state (Iterator.stack it0))
      with (Sample.recursive_entry, snd (Stack.pop_state (Iterator.stack it0))).
    cbv iota beta.
    change (Sample.recursive_entry >? 0) with true. cbv iota.
    change (JS.truthy (JS.and Sample.recursive_entry
                         (JS.shl normal_state_mask (JS.of_bool false)))) with true.
    cbv iota.
    destruct fuel as [|[|fuel]]; [reflexivity | reflexivity |].
    rewrite Hturn. cbn [bind]. apply IH. }
  intros fuel. unfold Iterator.start, Iterator.start_with. fold it0.
  change (Iterator.SCANNER it0) with false. cbv iota. apply Hloop.
Qed.

(** * Shifts are reported in input order *)

Section Order.

Context {R : Type} {BR : Reader.ByteReader R} {K : KernelConstants}.

Import Iterator.

Lemma shifted_app l l' : shifted (l ++ l') = shifted l ++ shifted l'.
Proof. apply flat_map_app. Qed.

Lemma sorted_snoc {A : Type} (rel : A -> A -> Prop) l x :
  StronglySorted rel l -> Forall (fun y => rel y x) l -> StronglySorted rel (l ++ [x]).
Proof.
  induction 1 as [|a l Hs IH Ha]; intros Hx; cbn.
  - repeat constructor.
  - inversion Hx; subst. constructor; [now apply IH|].
    apply Forall_app. split; [exact Ha | now repeat constructor].
Qed.

Lemma skips_paired_snoc trace a :
  skips_paired trace ->
  (forall o n l t, a <> SKIP o n l t) ->
  skips_paired (trace ++ [a]).
Proof.
  intros Hs Ha. induction trace as [|x trace IH]; cbn.
  - destruct a; try exact I. now specialize (Ha offset length line token_type).
  - destruct x; cbn in Hs; try (now apply IH).
    destruct trace as [|y trace]; [contradiction|].
    destruct y; try contradiction. cbn. now apply IH.
Qed.

Lemma skips_paired_skip_shift trace o n l ty t :
  skips_paired trace ->
  skips_paired ((trace ++ [SKIP o n l ty]) ++ [SHIFT t]).
Proof.
  intros Hs. rewrite <- app_assoc. cbn.
  induction trace as [|x trace IH]; cbn.
  - exact I.
  - destruct x; cbn in Hs; try (now apply IH).
    destruct trace as [|y trace]; [contradiction|].
    destruct y; try contradiction. cbn. now apply IH.
Qed.

Lemma skips_paired_lead trace : skips_paired trace -> skips_lead_shifts trace.
Proof.
  intros Hs before. revert trace Hs.
  induction before as [|x before IH]; intros trace Hs after o n l ty ->; cbn in Hs.
  - destruct after as [|y after]; [contradiction|].
    destruct y; try contradiction. eauto.
  - destruct x; try (eapply IH; [exact Hs | reflexivity]).
    destruct (before ++ SKIP o n l ty :: after) as [|y rest] eqn:Hrest; [contradiction|].
    destruct y; try contradiction.
    eapply IH; [exact Hs | symmetry; exact Hrest].
Qed.

(** The tokens and the record are all [orderly] looks at. *)
Lemma orderly_same (it it' : StateIterator (R := R)) :
  tokens it' = tokens it -> emitted it' = emitted it -> orderly it -> orderly it'.
Proof.
  intros Ht He [H1 H2 H3 H4 H5 H6 H7].
  constructor; rewrite ?Ht, ?He; assumption.
Qed.

(** The lookahead may move forward and the live tokens may change their
    lengths, as long as the record stays as it is. *)
Lemma orderly_tokens_moved (it it' : StateIterator (R := R)) :
  emitted it' = emitted it ->
  0 <= byte_length (tokens_1 (tokens it')) ->
  0 <= byte_length (tokens_0 (tokens it')) ->
  byte_offset (tokens_0 (tokens it')) <= byte_offset (tokens_1 (tokens it')) ->
  byte_offset (tokens_1 (tokens it)) <= byte_offset (tokens_1 (tokens it')) ->
  orderly it -> orderly it'.
Proof.
  intros He H1' H2' H3' Hmove [H1 H2 H3 H4 H5 H6 H7].
  constructor; rewrite ?He; try assumption.
  eapply Forall_impl; [|exact H5]. cbn. intros t Ht. lia.
Qed.

(** An action other than Shift, Skip and Token may be added to the
    record. *)
Lemma orderly_emit (it it' : StateIterator (R := R)) a :
  match a with SHIFT _ | SKIP _ _ _ _ | TOKEN _ => False | _ => True end ->
  emit it a = Done it' -> orderly it -> orderly it'.
Proof.
  intros Ha He [H1 H2 H3 H4 H5 H6 H7]. apply emit_inv in He. subst it'.
  assert (Hsh : shifted (emitted it ++ [a]) = shifted (emitted it)).
  { rewrite shifted_app. destruct a; cbn; try tauto; apply app_nil_r. }
  constructor; fields; try assumption.
  - unfold in_input_order. now rewrite Hsh.
  - now rewrite Hsh.
  - apply skips_paired_snoc; [assumption|]. intros; destruct a; try discriminate; tauto.
  - apply Forall_app. split; [assumption|]. constructor; [|constructor].
    destruct a; tauto.
Qed.

(** CONSUME keeps the iterator orderly: in the parser role the lookahead is
    shifted where it stands, behind everything shifted before, and the
    lookahead then moves to its end. *)
Lemma consume_orderly (it it' : StateIterator (R := R)) instruction :
  consume it instruction = Done it' -> orderly it -> orderly it'.
Proof.
  unfold consume, advance_token. intros H Hord.
  set (token := if JS.truthy (JS.and instruction 1)
                then Token.set_byte_length
                       (Token.set_codepoint_length (tokens_1 (tokens it)) 0) 0
                else tokens_1 (tokens it)) in *.
  assert (Hoff : byte_offset token = byte_offset (tokens_1 (tokens it)))
    by (subst token; destruct (JS.truthy _); reflexivity).
  assert (Hlen : 0 <= byte_length token).
  { subst token; destruct (JS.truthy _); cbn; [lia | apply Hord]. }
  destruct Hord as [H1 H2 H3 H4 H5 H6 H7].
  destruct (SCANNER (with_tokens_1 it token)) eqn:Hrole.
  - inversion H; subst it'; clear H.
    constructor; fields; try lia; try assumption.
    eapply Forall_impl; [|exact H5]. cbn. intros t Ht. lia.
  - unfold emitShift in H. fields in *.
    match type of H with context [if ?c then _ else _] => destruct c eqn:Hgap end.
    + invert_run H. apply emit_inv in E0, E. subst. fields.
      constructor; fields; try lia.
      * unfold in_input_order. rewrite !shifted_app. cbn. rewrite app_nil_r.
        apply sorted_snoc; [exact H4|].
        eapply Forall_impl; [|exact H5]. cbn. intros t Ht. lia.
      * rewrite !shifted_app. cbn. rewrite app_nil_r. apply Forall_app. split.
        -- eapply Forall_impl; [|exact H5]. cbn. intros t Ht. lia.
        -- repeat constructor. unfold end_of. lia.
      * now apply skips_paired_skip_shift.
      * repeat (apply Forall_app; split); try assumption; repeat constructor.
    + invert_run H. apply emit_inv in E. subst. fields.
      constructor; fields; try lia.
      * unfold in_input_order. rewrite !shifted_app. cbn.
        apply sorted_snoc; [exact H4|].
        eapply Forall_impl; [|exact H5]. cbn. intros t Ht. lia.
      * rewrite !shifted_app. cbn. apply Forall_app. split.
        -- eapply Forall_impl; [|exact H5]. cbn. intros t Ht. lia.
        -- repeat constructor. unfold end_of. lia.
      * apply skips_paired_snoc; [assumption | discriminate].
      * apply Forall_app; split; try assumption; repeat constructor.
Qed.

Lemma reduce_orderly (it it' : StateIterator (R := R)) instruction index rd index' :
  reduce it instruction index rd = Done (index', it') -> orderly it -> orderly it'.
Proof.
  unfold reduce, emitReduce. intros H Hord. invert_run H;
    (eapply orderly_emit in E; [|exact I|eapply orderly_same; [| |exact Hord]; reflexivity]);
    (eapply orderly_same; [| |exact E]; reflexivity).
Qed.

Lemma set_token_orderly (it it' : StateIterator (R := R)) instruction index index' :
  set_token it instruction index = Done (index', it') -> orderly it -> orderly it'.
Proof.
  unfold set_token. intros H Hord.
  assert (Hvalue : 0 <= JS.and instruction 0xFFFFFF).
  { rewrite BitFacts.and_0xFFFFFF. apply Z.mod_pos_bound. lia. }
  invert_run H; try (apply consume_orderly in E; [|exact Hord]);
    match goal with
    | Ho : orderly ?i |- orderly _ =>
        apply (orderly_tokens_moved i); fields; try reflexivity; try lia; try apply Ho;
        destruct Ho; lia
    end.
Qed.

Section WithReader.

Hypothesis reader_measures : measures R.

Lemma assert_consume_orderly (it it' : StateIterator (R := R)) index instruction index' :
  assert_consume it index instruction = Done (index', it') -> orderly it -> orderly it'.
Proof.
  unfold assert_consume. intros H Hord.
  pose proof (reader_measures (reader it)) as Hm.
  assert (Hsized : forall bl cl, 0 <= bl ->
            orderly (with_tokens_1 it
                       (Token.set_codepoint_length
                          (Token.set_byte_length (tokens_1 (tokens it)) bl) cl))).
  { intros bl cl Hbl. apply (orderly_tokens_moved it); fields; try reflexivity; try lia;
      try apply Hord. }
  invert_run H;
    try (apply Hsized; lia);
    try (apply consume_orderly in E; [exact E|]; try (apply Hsized; lia); exact Hord).
Qed.

Lemma goto_orderly (it : StateIterator (R := R)) instruction index :
  orderly it -> orderly (snd (goto it instruction index)).
Proof.
  unfold goto. destruct (goto_chain _ _ _ _). apply orderly_same; reflexivity.
Qed.

Lemma push_fail_state_orderly (it : StateIterator (R := R)) instruction :
  orderly it -> orderly (push_fail_state it instruction).
Proof.
  unfold push_fail_state. destruct (negb _); apply orderly_same; reflexivity.
Qed.

Lemma emit_all_orderly (it it' : StateIterator (R := R)) buffer :
  Forall (fun x => match x with
                   | SHIFT _ | SKIP _ _ _ _ | TOKEN _ => False
                   | _ => True
                   end) buffer ->
  emit_all it buffer = Done it' -> orderly it -> orderly it'.
Proof.
  intros HF; revert it; induction HF as [|a buffer Ha HF IH]; intros it H Hord; cbn in H.
  - now inversion H; subst.
  - invert_run H. eapply IH; [exact H|]. eapply orderly_emit; eauto.
Qed.

Lemma fork_orderly fh (it it' : StateIterator (R := R)) instruction index index' :
  replays_no_shift fh ->
  fork (Some fh) it instruction index = Done (index', it') -> orderly it -> orderly it'.
Proof.
  intros Hfh. unfold fork. intros H Hord.
  destruct (Hfh (FORK (index - 1)) (with_ACTION_BUFFER_EMPTY it false)) as (Htok & Hem & Hbuf).
  destruct (fh (FORK (index - 1)) (with_ACTION_BUFFER_EMPTY it false)) as [buffer it1].
  cbn [fst snd] in *.
  assert (Hord1 : orderly it1) by exact (orderly_same it it1 Htok Hem Hord).
  invert_run H; [|exact Hord1].
  eapply emit_all_orderly; eauto.
Qed.

Lemma set_last_push ts t t' :
  Tokens.set_last (Tokens.push ts t) t'
  = mkTokens (tokens_0 ts) (tokens_1 ts) (tokens_peek ts ++ [t']).
Proof.
  unfold Tokens.set_last, Tokens.push. cbn [tokens_peek tokens_0 tokens_1].
  destruct (tokens_peek ts ++ [t]) eqn:Hp.
  - apply app_eq_nil in Hp. destruct Hp as (_ & Hp). discriminate.
  - rewrite <- Hp, removelast_last. reflexivity.
Qed.

Section WithScanner.

Variable scanner : StateIterator (R := R) -> KernelToken -> Z -> outcome KernelToken.

Hypothesis scanner_ok : scanner_advances scanner.

(** Reading an input value for the lookahead token. *)
Lemma read_input_lookahead (it it' : StateIterator (R := R)) input_type pointer v :
  read_input scanner it false (tokens_1 (tokens it)) input_type pointer = Done (v, it') ->
  orderly it -> orderly it'.
Proof.
  unfold read_input. intros H Hord.
  pose proof (reader_measures (reader it)) as Hm.
  invert_run H;
    try exact Hord;
    try (apply (orderly_tokens_moved it); fields; try reflexivity; try lia;
         try apply Hord; fail).
  destruct (scanner_ok _ _ _ _ (orderly_lookahead _ Hord) E) as (Hoff & Hlen).
  apply (orderly_tokens_moved it); fields; try reflexivity; try lia; try apply Hord.
  destruct Hord; lia.
Qed.

(** Reading an input value for a peeked token leaves the live tokens
    alone. *)
Lemma read_input_peek (it it' : StateIterator (R := R)) token input_type pointer v :
  tokens_peek (tokens it) <> [] ->
  read_input scanner it true token input_type pointer = Done (v, it') ->
  orderly it -> orderly it'.
Proof.
  unfold read_input, Tokens.set_last. intros Hpeek H Hord.
  destruct (tokens_peek (tokens it)) as [|p peek] eqn:Hp; [congruence|].
  invert_run H; try exact Hord;
    apply (orderly_tokens_moved it); fields; rewrite ?Hp; fields;
      try reflexivity; try lia; apply Hord.
Qed.

Lemma get_input_value_orderly (it it' : StateIterator (R := R)) input_type transition pointer v :
  get_input_value scanner it input_type transition pointer = Done (v, it') ->
  orderly it -> orderly it'.
Proof.
  unfold get_input_value. intros H Hord.
  destruct (input_type >? 0); [|inversion H; subst; exact Hord].
  assert (Hdefault :
    (if Reader.END (reader it) then Done (1, it)
     else
       let token := tokens_1 (tokens it) in
       if Tokens.length (tokens it) >? 2 then
         let it := with_tokens it (Tokens.truncate (tokens it)) in
         let '(ok, r) := Reader.setCursorTo (reader it) token in
         let it := with_reader it r in
         if negb ok then Done (0, error it)
         else
           let token := Token.set_type token 0 in
           let it := with_tokens_1 it token in
           read_input scanner it false token input_type pointer
       else read_input scanner it false token input_type pointer) = Done (v, it') ->
    orderly it').
  { clear H. intros H. cbv zeta in H.
    destruct (Reader.END (reader it)); [inversion H; subst; exact Hord|].
    destruct (Tokens.length (tokens it) >? 2).
    - fields in *.
      destruct (Reader.setCursorTo (reader it) (tokens_1 (tokens it))) as [ok r].
      destruct (negb ok).
      + inversion H; subst.
        apply (orderly_tokens_moved it); fields; try reflexivity; try lia; apply Hord.
      + eapply read_input_lookahead;
          [exact H|].
        apply (orderly_tokens_moved it); fields; try reflexivity; try lia; apply Hord.
    - eapply read_input_lookahead; [exact H | exact Hord]. }
  destruct transition as [|p|p]; try (now apply Hdefault).
  destruct p; try (now apply Hdefault).
  cbv zeta in H.
  destruct (Reader.END _); [inversion H; subst; eapply orderly_same; [| |exact Hord]; reflexivity|].
  match type of H with
  | read_input _ ?i _ _ _ _ = _ => set (it2 := i) in *
  end.
  assert (Htok : tokens it2
                 = mkTokens (tokens_0 (tokens it)) (tokens_1 (tokens it))
                     (tokens_peek (tokens it)
                      ++ [Token.set_byte_offset
                            (Token.set_type (Token.copy (Tokens.last (tokens it))) 0)
                            (byte_offset (Tokens.last (tokens it))
                             + byte_length (Tokens.last (tokens it)))]))
    by (subst it2; cbn [tokens with_tokens]; apply set_last_push).
  eapply read_input_peek; [| exact H |].
  - rewrite Htok. cbn [tokens_peek]. intros Hnil. apply app_eq_nil in Hnil.
    destruct Hnil as (_ & Hnil). discriminate.
  - apply (orderly_tokens_moved it); rewrite ?Htok; cbn [tokens_0 tokens_1];
      try reflexivity; try lia; apply Hord.
Qed.

Lemma index_jump_orderly (it it' : StateIterator (R := R)) index instruction index' :
  index_jump scanner it index instruction = Done (index', it') -> orderly it -> orderly it'.
Proof.
  unfold index_jump. intros H Hord. invert_run H.
  eapply get_input_value_orderly; eauto.
Qed.

Lemma hash_jump_orderly fuel (it it' : StateIterator (R := R)) index instruction index' :
  hash_jump scanner fuel it index instruction = Done (index', it') ->
  orderly it -> orderly it'.
Proof.
  unfold hash_jump. intros H Hord. invert_run H.
  eapply get_input_value_orderly; eauto.
Qed.

Lemma scan_past_advances token :
  0 <= byte_length token ->
  byte_offset token <= byte_offset (scan_past token) /\ byte_length (scan_past token) = 0.
Proof.
  intros Hlen. unfold scan_past. destruct (byte_length token >? 0) eqn:Hpos; cbn; lia.
Qed.

Lemma scan_to_loop_advances fuel :
  forall (it : StateIterator (R := R)) scanner_index start length temp found,
    0 <= byte_length temp ->
    scan_to_loop scanner fuel it scanner_index start length temp = Done (Some found) ->
    byte_offset temp <= byte_offset found /\ 0 <= byte_length found.
Proof.
  induction fuel as [|fuel IH]; intros it scanner_index start length temp found Hlen H;
    [discriminate|].
  cbn [scan_to_loop] in H.
  destruct (scanner it temp scanner_index) as [token| |] eqn:E; cbn [bind] in H;
    try discriminate.
  destruct (scanner_ok _ _ _ _ Hlen E) as (Hoff & Hlen').
  destruct (type_listed _ _ _ _); [inversion H; subst; lia|].
  destruct (Reader.offset_at_end _ _); [discriminate|].
  destruct (scan_past_advances token Hlen') as (Hoff' & Hz).
  apply IH in H; [|lia]. lia.
Qed.

Lemma scan_to_orderly fuel (it it' : StateIterator (R := R)) index instruction index' :
  scan_to scanner fuel it index instruction = Done (index', it') ->
  orderly it -> orderly it'.
Proof.
  unfold scan_to. intros H Hord.
  destruct (JS.and instruction 0x00100000 >? 0) eqn:Hback.
  - cbn [negb] in H. invert_run H; exact Hord.
  - match type of H with
    | bind ?m _ = _ => destruct m as [[found|]| |] eqn:E; cbn [bind] in H; try discriminate
    end; [|inversion H; subst; exact Hord].
    cbn [negb] in H. inversion H; subst; clear H.
    apply scan_to_loop_advances in E; [|fields; apply Hord].
    destruct E as (Hoff & Hlen). unfold Token.copy in Hoff. fields in *.
    apply (orderly_tokens_moved it); unfold Token.impersonate; fields;
      try reflexivity; try lia; try apply Hord.
    destruct Hord; lia.
Qed.

Lemma execute_orderly fuel fh (it : StateIterator (R := R)) instruction index rd fm r :
  replays_no_shift fh ->
  execute scanner fuel (Some fh) it instruction index rd fm = Done r ->
  orderly it ->
  match r with
  | Continue _ it' => orderly it'
  | Return _ it' => orderly it'
  end.
Proof.
  intros Hfh H Hord. opcode_cases H; invert_run H;
    eauto using consume_orderly, reduce_orderly, set_token_orderly, fork_orderly,
      scan_to_orderly, index_jump_orderly, hash_jump_orderly, assert_consume_orderly,
      push_fail_state_orderly.
  all: try (eapply orderly_same; [| |exact Hord]; reflexivity).
  all: match goal with
       | E : goto ?i ?a ?b = _ |- _ =>
           pose proof (goto_orderly i a b Hord) as Hg; rewrite E in Hg; exact Hg
       end.
Qed.

Lemma instruction_loop_orderly fh fuel :
  replays_no_shift fh ->
  forall (it : StateIterator (R := R)) index rd fm fm' it',
    instruction_loop scanner fuel (Some fh) it index rd fm = Done (fm', it') ->
    orderly it -> orderly it'.
Proof.
  intros Hfh. induction fuel as [|fuel IH]; intros it index rd fm fm' it' H Hord;
    [discriminate|].
  cbn [instruction_loop] in H.
  destruct (execute scanner fuel (Some fh) it (num (word (bytecode it) index))
              (index + 1) rd fm) as [r| |] eqn:E; cbn [bind] in H; try discriminate.
  apply execute_orderly in E; [|exact Hfh|exact Hord].
  destruct r as [index1 it1 | fm1 it1].
  - eapply IH; eauto.
  - inversion H; subst. exact E.
Qed.

(** The driver loop keeps the iterator orderly up to the state in which it
    reports the action of the empty stack. *)
Lemma start_loop_orderly fh fuel :
  replays_no_shift fh ->
  forall root (it : StateIterator (R := R)) fm lgs it',
    start_loop scanner fuel (Some fh) root it fm lgs = Done it' ->
    orderly it ->
    exists last fm' lgs',
      orderly last /\
      it' = with_emitted last (emitted last ++ [final_action last root fm' lgs']).
Proof.
  intros Hfh. induction fuel as [|fuel IH]; intros root it fm lgs it' H Hord;
    [discriminate|].
  cbn [start_loop] in H.
  destruct (Stack.pointer (stack it) <? 1).
  - apply emit_inv in H. exists it, fm, lgs. split; [exact Hord | exact H].
  - destruct (Stack.pop_state (stack it)) as [state s].
    assert (Hord1 : orderly (with_stack it s))
      by (eapply orderly_same; [| |exact Hord]; reflexivity).
    destruct (state >? 0); [|eapply IH; eauto].
    destruct (JS.truthy _); [|eapply IH; eauto].
    unfold instruction_executor in H.
    destruct (instruction_loop _ _ _ _ _ _ _) as [[fm1 it1]| |] eqn:E;
      cbn [bind] in H; try discriminate.
    apply instruction_loop_orderly in E; [|exact Hfh|exact Hord1].
    eapply IH; eauto.
Qed.

End WithScanner.

Lemma orderly_final (last : StateIterator (R := R)) root fm lgs :
  orderly last ->
  orderly (with_emitted last (emitted last ++ [final_action last root fm lgs])).
Proof.
  intros [H1 H2 H3 H4 H5 H6 H7].
  assert (Hsh : shifted (emitted last ++ [final_action last root fm lgs])
                = shifted (emitted last)).
  { rewrite shifted_app. unfold final_action.
    destruct (SCANNER last); [apply app_nil_r|].
    destruct fm; [apply app_nil_r|].
    destruct (_ && _); [apply app_nil_r|].
    destruct (Reader.offset_at_end _ _); apply app_nil_r. }
  constructor; fields; try assumption.
  - unfold in_input_order. now rewrite Hsh.
  - now rewrite Hsh.
  - apply skips_paired_snoc; [assumption|]. intros o n l t. unfold final_action.
    destruct (SCANNER last); [discriminate|].
    destruct fm; [discriminate|].
    destruct (_ && _); [discriminate|].
    destruct (Reader.offset_at_end _ _); discriminate.
  - apply Forall_app. split; [assumption|]. constructor; [|constructor].
    unfold final_action.
    destruct (SCANNER last); [exact H2|].
    destruct fm; [exact I|].
    destruct (_ && _); [exact I|].
    destruct (Reader.offset_at_end _ _); exact I.
Qed.

Lemma no_forks_replays_no_shift : replays_no_shift (no_forks (R := R)).
Proof. intros a it. repeat split; constructor. Qed.

(** One run of the nested iterator of [scanner] keeps it orderly, and a
    Token it reports has a length. *)
Lemma scanner_run_orderly f (sc sc' : StateIterator (R := R)) :
  scanner_advances (scanner f) ->
  scanner_run f sc = Done sc' -> orderly sc ->
  orderly sc' /\
  forall token, List.last (emitted sc') ACCEPT = TOKEN token -> 0 <= byte_length token.
Proof.
  intros Hsc Hrun Hord. unfold scanner_run, start_with in Hrun.
  apply (start_loop_orderly (scanner f) Hsc no_forks f no_forks_replays_no_shift) in Hrun.
  - destruct Hrun as (last & fm' & lgs' & Hlast & ->).
    pose proof (orderly_final last (-1) fm' lgs' Hlast) as Hfin.
    split; [exact Hfin|].
    intros token Htok. fields in *. rewrite last_last in Htok.
    destruct Hfin as [_ _ _ _ _ _ H7]. fields in *.
    apply Forall_app in H7. destruct H7 as (_ & H7). inversion H7; subst.
    rewrite Htok in *. assumption.
  - destruct (SCANNER (with_handler sc scanner_sink));
      (apply (orderly_tokens_moved sc); fields; try reflexivity; try lia; apply Hord).
Qed.

Lemma scanner_loop_advances f fuel :
  scanner_advances (scanner f) ->
  forall (sc : StateIterator (R := R)) current pointer token,
    orderly sc ->
    scanner_loop (scanner_run f) fuel sc current pointer = Done token ->
    byte_offset current <= byte_offset token /\ 0 <= byte_length token.
Proof.
  intros Hsc. induction fuel as [|fuel IH]; intros sc current pointer token Hord H;
    [discriminate|].
  cbn [scanner_loop] in H.
  destruct (scanner_run f sc) as [sc'| |] eqn:Hrun; cbn [bind] in H; try discriminate.
  destruct (scanner_run_orderly f sc sc' Hsc Hrun Hord) as (Hord' & Htoken).
  destruct (List.last (emitted sc') ACCEPT) as [| | | | | |found|] eqn:Hlast;
    try discriminate.
  specialize (Htoken found eq_refl).
  destruct (type found =? skipped_scan_prod).
  - apply IH in H.
    + fields in *. lia.
    + apply (orderly_tokens_moved sc'); unfold Token.impersonate; fields;
        try reflexivity; try lia; apply Hord'.
  - inversion H; subst. fields. lia.
Qed.

(** The scanner of the kernel advances, whatever its budget. *)
Lemma scanner_advances_always fuel : scanner_advances (scanner (R := R) fuel).
Proof.
  induction fuel as [|fuel IH]; intros it current pointer token Hlen H; [discriminate|].
  cbn [scanner] in H. fold (scanner_run fuel) in H.
  apply (scanner_loop_advances fuel fuel IH) in H; [exact H|].
  unfold scanner_iterator, new, Token.impersonate.
  constructor; fields; try lia; try constructor.
Qed.

End WithReader.

End Order.
(** * What the instructions report, count and push *)

Lemma accumulated_app l l' : accumulated (l ++ l') = accumulated l + accumulated l'.
Proof.
  induction l as [|a l IH]; [reflexivity|].
  destruct a; cbn [app accumulated]; rewrite IH; lia.
Qed.

(** A property of every word of the image, and of the zero a missing word
    reads as, holds of whatever the instruction loop fetches. *)
Lemma word_forall (F : Z -> Prop) bytecode index :
  Forall F bytecode -> F 0 -> F (num (word bytecode index)).
Proof.
  intros HF H0. unfold word. destruct (index <? 0); [exact H0|].
  destruct (nth_error bytecode (Z.to_nat index)) as [w|] eqn:Hw; [|exact H0].
  cbn. rewrite Forall_forall in HF. apply HF. eapply nth_error_In; eauto.
Qed.

Section Following.

Context {R : Type} {BR : Reader.ByteReader R} {K : KernelConstants}.

Import Iterator.

Variables counted level : Prop.

Lemma follows_same (it it' : StateIterator (R := R)) :
  bytecode it' = bytecode it -> SCANNER it' = SCANNER it -> handler it' = handler it ->
  stack it' = stack it -> emitted it' = emitted it ->
  symbol_accumulator it' = symbol_accumulator it ->
  follows counted level it it'.
Proof.
  intros Hb Hs Hh Hst He Ha. repeat split; auto. exists [].
  rewrite app_nil_r. repeat split; auto. cbn. lia.
Qed.

Lemma follows_refl (it : StateIterator (R := R)) : follows counted level it it.
Proof. now apply follows_same. Qed.

Lemma follows_trans (a b c : StateIterator (R := R)) :
  follows counted level a b -> follows counted level b c -> follows counted level a c.
Proof.
  intros (Hb1 & Hs1 & Hh1 & Hst1 & l1 & He1 & F1 & Ha1)
         (Hb2 & Hs2 & Hh2 & Hst2 & l2 & He2 & F2 & Ha2).
  repeat split; try congruence.
  - intros Hl. rewrite Hst2, Hst1; auto.
  - exists (l1 ++ l2). rewrite He2, He1, app_assoc. split; [reflexivity|].
    split; [apply Forall_app; split; [exact F1|]; now rewrite <- Hh1|].
    intros Hc. rewrite accumulated_app, Ha2, Ha1 by assumption. lia.
Qed.

Lemma emit_taken (it it' : StateIterator (R := R)) a :
  emit it a = Done it' -> handler it a = None.
Proof. unfold emit. destruct (handler it a); [discriminate | reflexivity]. Qed.

Lemma emitShift_follows (it it' : StateIterator (R := R)) :
  emitShift it = Done it' -> follows counted level it it'.
Proof.
  unfold emitShift. intros H. invert_run H.
  - pose proof (emit_taken _ _ _ E) as T1. pose proof (emit_taken _ _ _ H) as T2.
    apply emit_inv in E. subst. apply emit_inv in H. subst. repeat split; auto.
    eexists. fields. rewrite <- app_assoc. split; [reflexivity|].
    split; [repeat constructor; assumption|]. intros _. cbn. lia.
  - pose proof (emit_taken _ _ _ H) as T1.
    apply emit_inv in H. subst. repeat split; auto.
    eexists. fields. split; [reflexivity|].
    split; [repeat constructor; assumption|]. intros _. cbn. lia.
Qed.

Lemma consume_follows (it it' : StateIterator (R := R)) instruction :
  consume it instruction = Done it' -> follows counted level it it'.
Proof.
  unfold consume, advance_token. intros H. invert_run H;
    try (now apply follows_same);
    apply emitShift_follows in E;
    (eapply follows_trans; [|eapply follows_trans; [exact E|]]);
    now apply follows_same.
Qed.

Lemma emitReduce_inv (it it' : StateIterator (R := R)) n b :
  emitReduce it n b = Done it' ->
  it' = with_emitted (with_ACTION_BUFFER_EMPTY it false)
          (emitted it ++ [REDUCE b n (production_id it)]).
Proof. unfold emitReduce. intros H. apply emit_inv in H. exact H. Qed.

Lemma emitReduce_taken (it it' : StateIterator (R := R)) n b :
  emitReduce it n b = Done it' -> handler it (REDUCE b n (production_id it)) = None.
Proof. unfold emitReduce. intros H. apply emit_taken in H. exact H. Qed.

Lemma reduce_follows (it it' : StateIterator (R := R)) instruction index rd index' :
  (counted -> instruction mod 2 ^ 16 <> 0xFFFF) ->
  reduce it instruction index rd = Done (index', it') -> follows counted level it it'.
Proof.
  intros Hfix. unfold reduce.
  rewrite !BitFacts.and_0xFFFF, Z.mod_mod by lia.
  intros H. invert_run H; pose proof (emitReduce_taken _ _ _ _ E) as T;
    apply emitReduce_inv in E; subst;
    (repeat split; auto; eexists; fields; split; [reflexivity|];
     split; [repeat constructor; exact T|]; intros Hc; cbn;
     try (apply Hfix in Hc; apply Z.eqb_eq in Heqb; contradiction);
     lia).
Qed.

Lemma set_token_follows (it it' : StateIterator (R := R)) instruction index index' :
  set_token it instruction index = Done (index', it') -> follows counted level it it'.
Proof.
  unfold set_token. intros H. invert_run H;
    try (apply consume_follows in E; eapply follows_trans; [exact E|]);
    now apply follows_same.
Qed.

Lemma assert_consume_follows (it it' : StateIterator (R := R)) index instruction index' :
  assert_consume it index instruction = Done (index', it') -> follows counted level it it'.
Proof.
  unfold assert_consume. intros H. invert_run H;
    try (now apply follows_same);
    apply consume_follows in E; (eapply follows_trans; [|exact E]); now apply follows_same.
Qed.

Lemma fork_follows fh (it it' : StateIterator (R := R)) instruction index index' :
  answers_nothing fh ->
  fork (Some fh) it instruction index = Done (index', it') -> follows counted level it it'.
Proof.
  intros Hfh. unfold fork. rewrite Hfh. cbn. intros [= <- <-]. now apply follows_same.
Qed.

Lemma goto_follows (it : StateIterator (R := R)) instruction index :
  ~ level -> follows counted level it (snd (goto it instruction index)).
Proof.
  intros Hl. unfold goto. destruct (goto_chain _ _ _ _). cbn [snd].
  repeat split; auto; try tauto. exists []. rewrite app_nil_r. repeat split; auto.
  cbn. fields. lia.
Qed.

Lemma push_fail_state_follows (it : StateIterator (R := R)) instruction :
  ~ level -> follows counted level it (push_fail_state it instruction).
Proof.
  intros Hl. unfold push_fail_state.
  destruct (negb _); (repeat split; auto; try tauto; exists []; rewrite app_nil_r;
    repeat split; auto; cbn; fields; lia).
Qed.

Section WithScanner.

Variable scanner : StateIterator (R := R) -> KernelToken -> Z -> outcome KernelToken.

Lemma read_input_follows (it it' : StateIterator (R := R)) at_end token input_type pointer v :
  read_input scanner it at_end token input_type pointer = Done (v, it') ->
  follows counted level it it'.
Proof.
  unfold read_input. intros H. destruct at_end; invert_run H; now apply follows_same.
Qed.

Lemma get_input_value_follows (it it' : StateIterator (R := R)) input_type transition pointer v :
  get_input_value scanner it input_type transition pointer = Done (v, it') ->
  follows counted level it it'.
Proof.
  unfold get_input_value. intros H.
  repeat match type of H with
         | read_input _ _ _ _ _ _ = _ =>
             apply read_input_follows in H; (eapply follows_trans; [|exact H])
         | Done _ = Done _ => inversion H; subst; clear H
         | context [match ?x with _ => _ end] => destruct x eqn:?
         end; now apply follows_same.
Qed.

Lemma index_jump_follows (it it' : StateIterator (R := R)) index instruction index' :
  index_jump scanner it index instruction = Done (index', it') -> follows counted level it it'.
Proof.
  unfold index_jump. intros H. invert_run H. now apply get_input_value_follows in E.
Qed.

Lemma hash_jump_follows fuel (it it' : StateIterator (R := R)) index instruction index' :
  hash_jump scanner fuel it index instruction = Done (index', it') ->
  follows counted level it it'.
Proof.
  unfold hash_jump. intros H. invert_run H. now apply get_input_value_follows in E.
Qed.

Lemma scan_to_follows fuel (it it' : StateIterator (R := R)) index instruction index' :
  scan_to scanner fuel it index instruction = Done (index', it') ->
  follows counted level it it'.
Proof.
  unfold scan_to. intros H. invert_run H; now apply follows_same.
Qed.

Lemma execute_follows fuel fh (it : StateIterator (R := R)) instruction index rd fm r :
  answers_nothing fh ->
  (counted -> opcode instruction = 4 -> instruction mod 2 ^ 16 <> 0xFFFF) ->
  (level -> opcode instruction <> 2 /\ opcode instruction <> 11) ->
  execute scanner fuel (Some fh) it instruction index rd fm = Done r ->
  follows counted level it (match r with Continue _ it' => it' | Return _ it' => it' end).
Proof.
  intros Hfh Hfix Hlev H. unfold execute, continue in H.
  rewrite BitFacts.opcode_bits in H. fold (opcode instruction) in H.
  pose proof (opcode_range instruction) as Hr.
  assert (Hcases : opcode instruction = 0 \/ opcode instruction = 1 \/ opcode instruction = 2
                   \/ opcode instruction = 3 \/ opcode instruction = 4
                   \/ opcode instruction = 5 \/ opcode instruction = 6
                   \/ opcode instruction = 7 \/ opcode instruction = 8
                   \/ opcode instruction = 9 \/ opcode instruction = 10
                   \/ opcode instruction = 11 \/ opcode instruction = 12
                   \/ opcode instruction = 13 \/ opcode instruction = 14
                   \/ opcode instruction = 15) by lia.
  repeat (destruct Hcases as [Hop | Hcases]; [rewrite Hop in H; cbv iota in H|]);
    try (rewrite Hcases in H; cbv iota in H).
  - invert_run H. apply follows_refl.
  - invert_run H. eapply consume_follows; eauto.
  - pose proof (goto_follows it instruction index) as Hg.
    destruct (goto it instruction index) as [index1 it1]. invert_run H.
    apply Hg. intros Hl. apply Hlev in Hl. tauto.
  - invert_run H. now apply follows_same.
  - invert_run H. eapply reduce_follows; eauto.
  - invert_run H. eapply set_token_follows; eauto.
  - invert_run H. eapply fork_follows; eauto.
  - invert_run H. eapply scan_to_follows; eauto.
  - invert_run H. eapply index_jump_follows; eauto.
  - invert_run H. eapply index_jump_follows; eauto.
  - invert_run H. eapply hash_jump_follows; eauto.
  - invert_run H. apply push_fail_state_follows. intros Hl. apply Hlev in Hl. tauto.
  - invert_run H. apply follows_refl.
  - invert_run H. apply follows_refl.
  - invert_run H. eapply assert_consume_follows; eauto.
  - invert_run H. apply follows_refl.
Qed.

Lemma instruction_loop_follows fh image fuel :
  answers_nothing fh ->
  (counted -> fixed_reduces image) ->
  (level -> pushes_nothing image) ->
  forall (it : StateIterator (R := R)) index rd fm fm' it',
    bytecode it = image ->
    instruction_loop scanner fuel (Some fh) it index rd fm = Done (fm', it') ->
    follows counted level it it'.
Proof.
  intros Hfh Hfix Hlev. induction fuel as [|fuel IH]; intros it index rd fm fm' it' Hb H;
    [discriminate|].
  cbn [instruction_loop] in H.
  destruct (execute scanner fuel (Some fh) it (num (word (bytecode it) index))
              (index + 1) rd fm) as [r| |] eqn:E; cbn [bind] in H; try discriminate.
  apply execute_follows in E; try assumption.
  - destruct r as [index1 it1 | fm1 it1].
    + eapply follows_trans; [exact E|]. eapply IH; eauto.
      destruct E as (Hb1 & _). congruence.
    + inversion H; subst. exact E.
  - intros Hc. rewrite Hb.
    apply (word_forall (fun w => opcode w = 4 -> w mod 2 ^ 16 <> 0xFFFF));
      [now apply Hfix | discriminate].
  - intros Hl. rewrite Hb.
    apply (word_forall (fun w => opcode w <> 2 /\ opcode w <> 11));
      [now apply Hlev | split; discriminate].
Qed.

End WithScanner.

End Following.

Section Sessions.

Context {R : Type} {BR : Reader.ByteReader R} {K : KernelConstants}.

Import Iterator.

Lemma follows_unlevel counted level (a b : StateIterator (R := R)) :
  follows counted level a b -> follows counted False a b.
Proof.
  intros (Hb & Hs & Hh & _ & Hbody). repeat split; auto. tauto.
Qed.

Lemma accumulated_final (it : StateIterator (R := R)) root fm lgs :
  accumulated [final_action it root fm lgs] = 0.
Proof.
  unfold final_action.
  repeat match goal with |- context [if ?c then _ else _] => destruct c end; reflexivity.
Qed.

Section WithScanner.

Variable scanner : StateIterator (R := R) -> KernelToken -> Z -> outcome KernelToken.

Lemma start_loop_follows counted fh image fuel :
  answers_nothing fh ->
  (counted -> fixed_reduces image) ->
  forall root (it : StateIterator (R := R)) fm lgs it',
    bytecode it = image ->
    start_loop scanner fuel (Some fh) root it fm lgs = Done it' ->
    exists last fm' lgs',
      follows counted False it last /\
      handler last (final_action last root fm' lgs') = None /\
      it' = with_emitted last (emitted last ++ [final_action last root fm' lgs']).
Proof.
  intros Hfh Hfix. induction fuel as [|fuel IH]; intros root it fm lgs it' Hb H;
    [discriminate|].
  cbn [start_loop] in H.
  assert (Hpop : forall s, follows counted False it (with_stack it s)).
  { intros s. repeat split; auto; try tauto. exists []. rewrite app_nil_r.
    repeat split; auto. cbn. fields. lia. }
  destruct (Stack.pointer (stack it) <? 1).
  - pose proof (emit_taken _ _ _ H) as T. apply emit_inv in H.
    exists it, fm, lgs. split; [apply follows_refl | split; [exact T | exact H]].
  - destruct (Stack.pop_state (stack it)) as [state s].
    destruct (state >? 0).
    + destruct (JS.truthy _).
      * unfold instruction_executor in H.
        destruct (instruction_loop _ _ _ _ _ _ _) as [[fm1 it1]| |] eqn:E;
          cbn [bind] in H; try discriminate.
        apply (instruction_loop_follows counted False scanner fh image) in E;
          try assumption; try tauto.
        assert (Hb1 : bytecode it1 = image) by (destruct E as (Hb1 & _); rewrite Hb1; exact Hb).
        destruct (IH _ _ _ _ _ Hb1 H) as (last & fm' & lgs' & Hg & Hlast).
        exists last, fm', lgs'. split; [|exact Hlast].
        eapply follows_trans; [|exact Hg]. eapply follows_trans; [|exact E]. apply Hpop.
      * destruct (IH root (with_stack it s) fm (if fm then lgs else state) it' Hb H)
          as (last & fm' & lgs' & Hg & Hlast).
        exists last, fm', lgs'. split; [|exact Hlast].
        eapply follows_trans; [|exact Hg]. apply Hpop.
    + destruct (IH root (with_stack it s) fm lgs it' Hb H)
        as (last & fm' & lgs' & Hg & Hlast).
      exists last, fm', lgs'. split; [|exact Hlast].
      eapply follows_trans; [|exact Hg]. apply Hpop.
Qed.

(** X4.  A block of an image without GOTO and PUSH_FAIL_STATE words leaves the
    stack as it found it, whatever else it does: nothing but those two
    instructions pushes or swaps a state. *)
Theorem block_without_pushes_keeps_stack fuel fh (it : StateIterator (R := R))
    state_pointer fm fm' it' :
  answers_nothing fh ->
  pushes_nothing (bytecode it) ->
  instruction_executor scanner fuel (Some fh) it state_pointer fm = Done (fm', it') ->
  stack it' = stack it.
Proof.
  intros Hfh Hpush H. unfold instruction_executor in H.
  apply (instruction_loop_follows False True scanner fh (bytecode it)) in H;
    try tauto.
  destruct H as (_ & _ & _ & Hst & _). now apply Hst.
Qed.

End WithScanner.

(** X2.  While a session runs, the engine hands the sink only Shift, Skip and
    Reduce actions, and then the one action that ends the session: with a
    fork handler that replays nothing, no Fork or Lazy action ever reaches
    the sink. *)
Theorem start_reports_engine_actions fuel (it : StateIterator (R := R)) sink fh root it' :
  answers_nothing fh ->
  start fuel it sink fh root = Done it' ->
  exists body final,
    emitted it' = emitted it ++ body ++ [final] /\
    Forall engine_action body /\
    terminal final.
Proof.
  intros Hfh H. unfold start, start_with in H.
  apply (start_loop_follows (scanner fuel) False fh (bytecode it)) in H;
    try tauto; [|destruct (SCANNER _); reflexivity].
  destruct H as (last & fm' & lgs' & (_ & _ & _ & _ & body & He & HF & _) & _ & ->).
  exists body, (final_action last root fm' lgs'). fields. rewrite He.
  split; [|split; [revert HF; apply Forall_impl; tauto | apply final_action_terminal]].
  rewrite <- app_assoc. f_equal. destruct (SCANNER _); reflexivity.
Qed.

(** X1.  In an image whose REDUCE words all carry their length, the symbol
    accumulator follows the rule of the trace through a whole session:
    when [start] returns it has grown by one for every Shift reported and
    shrunk by [length - 1] for every Reduce. *)
Theorem accumulator_counts_reported_symbols fuel (it : StateIterator (R := R))
    sink fh root it' :
  answers_nothing fh ->
  fixed_reduces (bytecode it) ->
  start fuel it sink fh root = Done it' ->
  exists reported,
    emitted it' = emitted it ++ reported /\
    symbol_accumulator it' = symbol_accumulator it + accumulated reported.
Proof.
  intros Hfh Hfix H. unfold start, start_with in H.
  apply (start_loop_follows (scanner fuel) True fh (bytecode it)) in H;
    try tauto; [|destruct (SCANNER _); reflexivity].
  destruct H as (last & fm' & lgs' & (_ & _ & _ & _ & body & He & _ & Ha) & _ & ->).
  exists (body ++ [final_action last root fm' lgs']). fields. rewrite He.
  split.
  - rewrite <- app_assoc. f_equal. destruct (SCANNER _); reflexivity.
  - rewrite accumulated_app, accumulated_final, Ha by exact I.
    destruct (SCANNER _); fields; lia.
Qed.

(** X3.  A run of the nested iterator of [scanner] that returns was made in the
    scanner role and has reported one action, a Token, and that Token holds
    the current token, [tokens[0]], of the nested iterator as the run left
    it: the sink of [scanner] throws on everything else, so a scanner block
    that shifts in the parser role or reduces never returns. *)
Theorem scanner_run_reports_one_token f (sc sc' : StateIterator (R := R)) :
  scanner_run f sc = Done sc' ->
  SCANNER sc = true /\
  SCANNER sc' = true /\
  emitted sc' = emitted sc ++ [TOKEN (tokens_0 (tokens sc'))].
Proof.
  intros H. unfold scanner_run, start_with in H.
  match type of H with start_loop _ _ _ _ ?x _ _ = _ => set (sc0 := x) in * end.
  assert (F0 : handler sc0 = scanner_sink /\ SCANNER sc0 = SCANNER sc
               /\ emitted sc0 = emitted sc)
    by (subst sc0; fields; destruct (SCANNER sc) eqn:Hrole0; fields; auto).
  destruct F0 as (Hh0 & Hs0 & He0).
  apply (start_loop_follows (scanner f) False no_forks (bytecode sc0)) in H;
    try tauto; [|intros a i; reflexivity].
  destruct H as (final & fm' & lgs' & (_ & Hs & Hh & _ & body & He & HF & _) & T & ->).
  rewrite Hh0 in *. rewrite Hs0 in Hs. rewrite He0 in He.
  assert (Hbody : body = []).
  { destruct body as [|a body]; [reflexivity|]. exfalso.
    apply Forall_inv in HF. destruct HF as (Ha & Hk).
    destruct a; cbn in Ha, Hk; try contradiction; discriminate. }
  subst body. rewrite app_nil_r in He.
  rewrite Hh in T. unfold final_action in T.
  assert (Hrole : SCANNER final = true).
  { destruct (SCANNER final); [reflexivity|].
    repeat match type of T with
           | context [if ?c then _ else _] => destruct c
           end; discriminate. }
  split; [congruence|]. split; [exact Hrole|].
  fields. rewrite He. unfold final_action. rewrite Hrole. reflexivity.
Qed.

End Sessions.

(** The entry block of the sample image, run over the input "xy": it pushes
    nothing, and the stack is as before. *)
Lemma block_without_pushes_keeps_stack_witness :
  let it := Iterator.new (Sample.reader_of [120; 121]) Sample.xy_image Sample.xy_entry false in
  answers_nothing (Iterator.no_forks (R := Sample.AsciiReader)) /\
  pushes_nothing (Iterator.bytecode it) /\
  exists fm' it',
    Iterator.instruction_executor (Iterator.scanner 10) 10 (Some Iterator.no_forks) it
      Sample.xy_entry false = Done (fm', it') /\
    Iterator.stack it' = Iterator.stack it.
Proof.
  intros it.
  assert (Hfh : answers_nothing (Iterator.no_forks (R := Sample.AsciiReader)))
    by (intros a i; reflexivity).
  assert (Hpush : pushes_nothing (Iterator.bytecode it))
    by (unfold pushes_nothing; repeat constructor; intros H; vm_compute in H; discriminate H).
  split; [exact Hfh|]. split; [exact Hpush|].
  destruct (Iterator.instruction_executor (Iterator.scanner 10) 10 (Some Iterator.no_forks) it
              Sample.xy_entry false) as [[fm' it']| |] eqn:Hrun;
    [|vm_compute in Hrun; discriminate|vm_compute in Hrun; discriminate].
  exists fm', it'. split; [reflexivity|].
  exact (block_without_pushes_keeps_stack (Iterator.scanner 10) 10%nat Iterator.no_forks it
           Sample.xy_entry false fm' it' Hfh Hpush Hrun).
Defined.

(** A session of the sample image over "xy": two Shifts and a Reduce, then
    the final action. *)
Lemma start_reports_engine_actions_witness :
  let it := Iterator.new (Sample.reader_of [120; 121]) Sample.xy_image Sample.xy_entry false in
  answers_nothing (Iterator.no_forks (R := Sample.AsciiReader)) /\
  exists it',
    Iterator.start 40 it Sample.quiet Iterator.no_forks (-1) = Done it' /\
    exists body final,
      Iterator.emitted it' = Iterator.emitted it ++ body ++ [final] /\
      Forall engine_action body /\
      terminal final.
Proof.
  intros it.
  assert (Hfh : answers_nothing (Iterator.no_forks (R := Sample.AsciiReader)))
    by (intros a i; reflexivity).
  split; [exact Hfh|].
  destruct (Iterator.start 40 it Sample.quiet Iterator.no_forks (-1)) as [it'| |] eqn:Hrun;
    [|vm_compute in Hrun; discriminate|vm_compute in Hrun; discriminate].
  exists it'. split; [reflexivity|].
  exact (start_reports_engine_actions 40%nat it Sample.quiet Iterator.no_forks (-1) it'
           Hfh Hrun).
Defined.

(** The same session: two Shifts and a Reduce of two symbols leave the
    accumulator at 1. *)
Lemma accumulator_counts_reported_symbols_witness :
  let it := Iterator.new (Sample.reader_of [120; 121]) Sample.xy_image Sample.xy_entry false in
  answers_nothing (Iterator.no_forks (R := Sample.AsciiReader)) /\
  fixed_reduces (Iterator.bytecode it) /\
  exists it',
    Iterator.start 40 it Sample.quiet Iterator.no_forks (-1) = Done it' /\
    Iterator.symbol_accumulator it' = 1 /\
    exists reported,
      Iterator.emitted it' = Iterator.emitted it ++ reported /\
      Iterator.symbol_accumulator it'
      = Iterator.symbol_accumulator it + accumulated reported.
Proof.
  intros it.
  assert (Hfh : answers_nothing (Iterator.no_forks (R := Sample.AsciiReader)))
    by (intros a i; reflexivity).
  assert (Hfix : fixed_reduces (Iterator.bytecode it))
    by (unfold fixed_reduces; repeat constructor; intros _ H; vm_compute in H; discriminate H).
  split; [exact Hfh|]. split; [exact Hfix|].
  destruct (Iterator.start 40 it Sample.quiet Iterator.no_forks (-1)) as [it'| |] eqn:Hrun;
    [|vm_compute in Hrun; discriminate|vm_compute in Hrun; discriminate].
  exists it'. split; [reflexivity|].
  split; [vm_compute in Hrun; inversion Hrun; reflexivity|].
  exact (accumulator_counts_reported_symbols 40%nat it Sample.quiet Iterator.no_forks (-1) it'
           Hfh Hfix Hrun).
Defined.

(** One run of the nested iterator of the sample lexer before an 'X'. *)
Lemma scanner_run_reports_one_token_witness :
  let it := Iterator.new (Sample.reader_of [88]) Sample.lexer_image
                         Sample.shift_all_entry false in
  let sc := Iterator.scanner_iterator it (tokens_1 (Iterator.tokens it)) Sample.lexer_entry in
  exists sc',
    scanner_run 10 sc = Done sc' /\
    Iterator.SCANNER sc = true /\
    Iterator.SCANNER sc' = true /\
    Iterator.emitted sc' = Iterator.emitted sc ++ [TOKEN (tokens_0 (Iterator.tokens sc'))].
Proof.
  intros it sc.
  destruct (scanner_run 10 sc) as [sc'| |] eqn:Hrun;
    [|vm_compute in Hrun; discriminate|vm_compute in Hrun; discriminate].
  exists sc'. split; [reflexivity|].
  exact (scanner_run_reports_one_token 10%nat sc sc' Hrun).
Defined.
(** * GOTO and PUSH_FAIL_STATE on the stack *)

Section Pushes.

Variable symbols : Z.

Lemma pushed_pointer ws s :
  Stack.pointer (fold_left (fun s w => Stack.push_state s w symbols) ws s) = Stack.pointer s + Z.of_nat (List.length ws).
Proof.
  revert s; induction ws as [|w ws IH]; intros s; [cbn; lia|].
  cbn [fold_left]. rewrite IH.
  cbn [Stack.push_state Stack.pointer List.length]. lia.
Qed.

Lemma pushed_below ws s j :
  j <= Stack.pointer s ->
  Stack.get (Stack.state_stack (fold_left (fun s w => Stack.push_state s w symbols) ws s)) j = Stack.get (Stack.state_stack s) j /\
  Stack.get (Stack.meta_stack (fold_left (fun s w => Stack.push_state s w symbols) ws s)) j = Stack.get (Stack.meta_stack s) j.
Proof.
  revert s; induction ws as [|w ws IH]; intros s Hj; [split; reflexivity|].
  cbn [fold_left].
  destruct (IH (Stack.push_state s w symbols)) as (H1 & H2);
    [cbn [Stack.push_state Stack.pointer]; lia|].
  rewrite H1, H2. cbn [Stack.push_state Stack.state_stack Stack.meta_stack].
  split; apply get_set_other; lia.
Qed.


Lemma pushed_meta ws s j :
  0 <= Stack.pointer s ->
  Stack.pointer s < j <= Stack.pointer s + Z.of_nat (List.length ws) ->
  Stack.get (Stack.meta_stack (fold_left (fun s w => Stack.push_state s w symbols) ws s)) j = JS.ToUint32 symbols.
Proof.
  revert s; induction ws as [|w ws IH]; intros s Hp Hj; [cbn in Hj; lia|].
  cbn [fold_left].
  destruct (Z.eq_dec j (Stack.pointer s + 1)) as [->|Hne].
  - destruct (pushed_below ws (Stack.push_state s w symbols) (Stack.pointer s + 1))
      as (_ & H2); [cbn [Stack.push_state Stack.pointer]; lia|].
    rewrite H2. cbn [Stack.push_state Stack.meta_stack]. apply stack_get_set. lia.
  - apply IH; cbn [Stack.push_state Stack.pointer List.length] in *; lia.
Qed.

Lemma goto_chain_run rest s index :
  Iterator.goto_chain rest symbols s index
  = (index + Z.of_nat (List.length (goto_run rest)), fold_left (fun s w => Stack.push_state s w symbols) (goto_run rest) s).
Proof.
  revert s index; induction rest as [|w rest IH]; intros s index;
    cbn [Iterator.goto_chain goto_run].
  - cbn. f_equal. lia.
  - destruct (JS.and w 0xF0000000 =? 0x20000000).
    + rewrite IH. cbn [List.length fold_left]. f_equal. lia.
    + cbn. f_equal. lia.
Qed.

End Pushes.

Section StackInstructions.

Context {R : Type} {BR : Reader.ByteReader R} {K : KernelConstants}.

Import Iterator.


(** X6.  PUSH_FAIL_STATE puts its word on top of the stack as a state.  If the
    state that was on top names another instruction, the word is pushed,
    with the accumulator as its snapshot, above what was there; if it names
    the same instruction, the word replaces it in place and the stack keeps
    its depth and its snapshots.  Either way the entries below are left
    alone.  Done again with the same word it therefore finds that state on
    top and replaces it by itself: the second execution changes nothing,
    and no second copy is pushed. *)
Theorem push_fail_state_twice (it : StateIterator (R := R)) instruction :
  0 <= Stack.pointer (stack it) ->
  let once := push_fail_state it instruction in
  let same :=
    JS.and (Stack.read_state (stack it)) instruction_pointer_mask
    =? JS.and (JS.ToUint32 instruction) instruction_pointer_mask in
  Stack.read_state (stack once) = JS.ToUint32 instruction /\
  (if same
   then Stack.pointer (stack once) = Stack.pointer (stack it) /\
        Stack.meta_stack (stack once) = Stack.meta_stack (stack it)
   else Stack.pointer (stack once) = Stack.pointer (stack it) + 1 /\
        Stack.get (Stack.meta_stack (stack once)) (Stack.pointer (stack once))
        = JS.ToUint32 (symbol_accumulator it) /\
        Stack.get (Stack.state_stack (stack once)) (Stack.pointer (stack it))
        = Stack.read_state (stack it)) /\
  (forall j, j < Stack.pointer (stack it) ->
     Stack.get (Stack.state_stack (stack once)) j = Stack.get (Stack.state_stack (stack it)) j /\
     Stack.get (Stack.meta_stack (stack once)) j = Stack.get (Stack.meta_stack (stack it)) j) /\
  push_fail_state once instruction = once /\
  Stack.pointer (stack (push_fail_state once instruction)) = Stack.pointer (stack once).
Proof.
  intros Hp once same.
  assert (Htwice : push_fail_state once instruction = once).
  { subst once. unfold push_fail_state. rewrite !shr_0, !ToUint32_idem.
    destruct (negb (JS.and (Stack.read_state (stack it)) instruction_pointer_mask
                    =? JS.and (JS.ToUint32 instruction) instruction_pointer_mask)) eqn:Hfirst;
      fields; unfold Stack.read_state, Stack.push_state, Stack.swap_state;
      cbn [Stack.state_stack Stack.meta_stack Stack.pointer];
      rewrite stack_get_set by lia; rewrite ToUint32_idem, Z.eqb_refl; cbn [negb];
      unfold with_stack; fields; cbn [Stack.state_stack Stack.meta_stack Stack.pointer];
      rewrite set_idem; reflexivity. }
  split; [|split; [|split; [|split; [exact Htwice | now rewrite Htwice]]]].
  - subst once. unfold push_fail_state. rewrite !shr_0, !ToUint32_idem. fold same.
    destruct same; cbn [negb]; fields;
      unfold Stack.read_state, Stack.push_state, Stack.swap_state;
      cbn [Stack.state_stack Stack.pointer];
      rewrite stack_get_set by lia; apply ToUint32_idem.
  - subst once. unfold push_fail_state. rewrite !shr_0, !ToUint32_idem. fold same.
    destruct same; cbn [negb]; fields;
      unfold Stack.read_state, Stack.push_state, Stack.swap_state;
      cbn [Stack.state_stack Stack.meta_stack Stack.pointer].
    + split; reflexivity.
    + split; [reflexivity|]. split; [apply stack_get_set; lia|].
      apply get_set_other. lia.
  - intros j Hj. subst once. unfold push_fail_state. rewrite !shr_0, !ToUint32_idem.
    fold same.
    destruct same; cbn [negb]; fields;
      unfold Stack.push_state, Stack.swap_state;
      cbn [Stack.state_stack Stack.meta_stack Stack.pointer];
      (split; [apply get_set_other; lia | try reflexivity; apply get_set_other; lia]).
Qed.

End StackInstructions.


(** PUSH_FAIL_STATE on a fresh iterator, whose only state is the entry
    state at word 3: the fail state for word 5 is pushed above it, once. *)
Lemma push_fail_state_twice_witness :
  let it := Iterator.new (Sample.reader_of [120]) Sample.xy_image Sample.xy_entry false in
  let once := Iterator.push_fail_state it 0xB8000005 in
  0 <= Stack.pointer (Iterator.stack it) /\
  Stack.read_state (Iterator.stack once) = 0xB8000005 /\
  Stack.pointer (Iterator.stack once) = 2 /\
  Iterator.push_fail_state once 0xB8000005 = once /\
  Stack.pointer (Iterator.stack (Iterator.push_fail_state once 0xB8000005)) = 2.
Proof.
  intros it once.
  assert (Hp : 0 <= Stack.pointer (Iterator.stack it)) by (cbn; lia).
  destruct (push_fail_state_twice it 0xB8000005 Hp) as (Htop & _ & _ & Htwice & Hdepth).
  split; [exact Hp|]. split; [exact Htop|]. split; [reflexivity|].
  split; [exact Htwice | exact Hdepth].
Defined.
(** * The length of a dynamic REDUCE *)

Section DynamicReduce.

Context {R : Type} {BR : Reader.ByteReader R} {K : KernelConstants}.

Import Iterator.

(** Where the loop arrives, it goes on as if it had been entered there. *)
Lemma arrives_loop scanner fh rd fm fuel (it : StateIterator (R := R)) i fuel' it' j :
  arrives scanner fh rd fm fuel it i fuel' it' j ->
  instruction_loop scanner fuel fh it i rd fm
  = instruction_loop scanner fuel' fh it' j rd fm.
Proof.
  induction 1 as [|fuel it i j it1 fuel' it' k Hturn _ IH]; [reflexivity|].
  cbn [instruction_loop]. rewrite Hturn. cbn [bind]. exact IH.
Qed.

Lemma dynamic_reduce_emitted (it it' : StateIterator (R := R)) w index rd index' :
  w mod 2 ^ 16 = 0xFFFF ->
  reduce it w index rd = Done (index', it') ->
  emitted it' = emitted it ++
    [REDUCE ((w / 2 ^ 16) mod 2 ^ 12) (symbol_accumulator it - rd mod 2 ^ 16)
            (production_id it)].
Proof.
  intros Hdyn. unfold reduce.
  rewrite !BitFacts.and_0xFFFF, Z.mod_mod by lia.
  change 0x0FFF with (Z.ones 12). change 0xFFF with (Z.ones 12).
  rewrite !BitFacts.sar_and_ones by lia.
  rewrite Hdyn. change (0xFFFF =? 0xFFFF) with true. cbv iota.
  intros H. invert_run H; apply emitReduce_inv in E; subst; fields; reflexivity.
Qed.

(** The state GOTO leaves on top carries the accumulator as its snapshot. *)
Lemma goto_top_snapshot (it : StateIterator (R := R)) instruction index :
  0 <= index -> 0 <= Stack.pointer (stack it) ->
  1 <= Stack.pointer (stack (snd (goto it instruction index))) /\
  Stack.get (Stack.meta_stack (stack (snd (goto it instruction index))))
            (Stack.pointer (stack (snd (goto it instruction index))))
  = JS.ToUint32 (symbol_accumulator it).
Proof.
  intros Hi Hp. unfold goto. destruct (index <? 0) eqn:Hneg; [lia|].
  rewrite goto_chain_run. cbn [fst snd stack with_stack].
  set (chain := goto_run (skipn (Z.to_nat index) (bytecode it))).
  change (fold_left (fun s w => Stack.push_state s w (symbol_accumulator it)) chain
            (Stack.push_state (stack it) instruction (symbol_accumulator it)))
    with (fold_left (fun s w => Stack.push_state s w (symbol_accumulator it))
            (instruction :: chain) (stack it)).
  rewrite pushed_pointer. cbn [List.length]. split; [lia|].
  apply pushed_meta; [assumption|]. cbn [List.length]. lia.
Qed.

(** C5, as the code has it.  A REDUCE whose rule field is the sentinel
    0xFFFF emits a Reduce whose length is the symbol accumulator minus the
    low 16 bits of the value the instruction loop hands it.  That value is
    the meta slot of the state the driver has just popped: in the turn of
    the driver that pops a state and runs its block, a dynamic REDUCE the
    block arrives at reports the accumulator, as it stands there, minus the
    low 16 bits of the slot that lay with the popped state.  The slot of a
    state pushed by GOTO holds the accumulator as it stood at the GOTO, as
    a 32-bit number.  So the length is the accumulator minus the snapshot
    taken at the GOTO reduced modulo 65536, not minus the snapshot.  After
    any REDUCE, a following word with opcode SET_PRODUCTION is applied and
    stepped over before the next instruction is fetched; any other word is
    left where it is. *)
Theorem dynamic_reduce_length (it : StateIterator (R := R)) :
  (forall instruction index recover_data,
     image_ok (bytecode it) ->
     (forall a, handler it a = None) ->
     exists it' index',
       reduce it instruction index recover_data = Done (index', it') /\
       (instruction mod 2 ^ 16 = 0xFFFF ->
        emitted it' = emitted it ++
          [REDUCE ((instruction / 2 ^ 16) mod 2 ^ 12)
                  (symbol_accumulator it - recover_data mod 2 ^ 16)
                  (production_id it)]) /\
       (opcode (num (word (bytecode it) index)) = 3 ->
        index' = index + 1 /\
        production_id it' = num (word (bytecode it) index) mod 2 ^ 28) /\
       (opcode (num (word (bytecode it) index)) <> 3 ->
        index' = index /\ production_id it' = production_id it)) /\
  (forall scanner fuel fh root fm lgs fuel' (at_reduce : StateIterator (R := R)) p w it',
     let state := Stack.read_state (stack it) in
     let slot := Stack.get (Stack.meta_stack (stack it)) (Stack.pointer (stack it)) in
     let popped := with_stack it (snd (Stack.pop_state (stack it))) in
     1 <= Stack.pointer (stack it) ->
     state > 0 ->
     JS.truthy (JS.and state (JS.shl normal_state_mask (JS.of_bool fm))) = true ->
     replays_no_terminal fh ->
     arrives scanner (Some fh) slot fm fuel popped (JS.and state state_index_mask)
             fuel' at_reduce p ->
     word (bytecode at_reduce) p = Some w ->
     opcode w = 4 -> w mod 2 ^ 16 = 0xFFFF ->
     start_loop scanner (S fuel) (Some fh) root it fm lgs = Done it' ->
     exists rest,
       emitted it' = emitted at_reduce ++
         REDUCE ((w / 2 ^ 16) mod 2 ^ 12)
                (symbol_accumulator at_reduce - slot mod 2 ^ 16)
                (production_id at_reduce) :: rest) /\
  (forall instruction index,
     0 <= index -> 0 <= Stack.pointer (stack it) ->
     let pushed := snd (goto it instruction index) in
     1 <= Stack.pointer (stack pushed) /\
     Stack.get (Stack.meta_stack (stack pushed)) (Stack.pointer (stack pushed))
     = JS.ToUint32 (symbol_accumulator it)).
Proof.
  split; [|split].
  - intros instruction index recover_data Hok Hsink.
    assert (Htail : forall it1 : StateIterator (R := R),
              bytecode it1 = bytecode it ->
              exists it' index',
                (if JS.and (num (word (bytecode it1) index)) 0xF0000000 =? 0x30000000
                 then Done (index + 1, set_production it1 (num (word (bytecode it1) index)))
                 else Done (index, it1)) = Done (index', it') /\
                emitted it' = emitted it1 /\
                (opcode (num (word (bytecode it) index)) = 3 ->
                 index' = index + 1 /\
                 production_id it' = num (word (bytecode it) index) mod 2 ^ 28) /\
                (opcode (num (word (bytecode it) index)) <> 3 ->
                 index' = index /\ production_id it' = production_id it1)).
    { intros it1 Hbc. rewrite reduce_tail by (rewrite Hbc; exact Hok). rewrite Hbc.
      destruct (opcode (num (word (bytecode it) index)) =? 3) eqn:Hop.
      - eexists; eexists; split; [reflexivity|]. fields. repeat split; lia.
      - eexists; eexists; split; [reflexivity|]. repeat split; lia. }
    unfold reduce. rewrite !BitFacts.and_0xFFFF, Z.mod_mod by lia.
    change 0x0FFF with (Z.ones 12). change 0xFFF with (Z.ones 12).
    rewrite !BitFacts.sar_and_ones by lia.
    unfold emitReduce, emit. fields. rewrite !Hsink.
    destruct (instruction mod 2 ^ 16 =? 0xFFFF) eqn:Hdyn; cbn [bind];
      match goal with |- context [bytecode ?x] =>
        destruct (Htail x eq_refl) as (it' & index' & Hrun & Hem & Hset & Hkeep)
      end;
      exists it', index'; (split; [exact Hrun|]); fields in *.
    + split; [intros _; exact Hem|]. split; [exact Hset | exact Hkeep].
    + split; [intros Hs; lia|]. split; [exact Hset | exact Hkeep].
  - intros scanner fuel fh root fm lgs fuel' at_reduce p w it' state slot popped
      Hp Hstate Hgate Hfh Harr Hw Hop Hdyn Hrun.
    cbn [start_loop] in Hrun.
    destruct (Stack.pointer (stack it) <? 1) eqn:Hlt; [lia|].
    unfold Stack.pop_state in Hrun. fold state in Hrun.
    destruct (state >? 0) eqn:Hpos; [|lia].
    rewrite Hgate in Hrun. unfold instruction_executor in Hrun.
    subst popped. unfold Stack.pop_state in Harr. cbn [snd] in Harr.
    fields in *. cbn [Stack.meta_stack Stack.pointer] in Hrun.
    replace (Stack.pointer (stack it) - 1 + 1) with (Stack.pointer (stack it)) in Hrun by lia.
    fold slot in Hrun.
    rewrite (arrives_loop _ _ _ _ _ _ _ _ _ _ Harr) in Hrun.
    destruct fuel' as [|fuel']; [discriminate|].
    cbn [instruction_loop] in Hrun. rewrite Hw in Hrun. cbn [num] in Hrun.
    unfold execute at 1 in Hrun. rewrite BitFacts.opcode_bits in Hrun.
    fold (opcode w) in Hrun. rewrite Hop in Hrun. unfold continue in Hrun.
    destruct (reduce at_reduce w (p + 1) slot) as [[j it2]| |] eqn:Hred;
      cbn [bind] in Hrun; try discriminate.
    apply (dynamic_reduce_emitted _ _ _ _ _ _ Hdyn) in Hred.
    destruct (instruction_loop scanner fuel' (Some fh) it2 j slot fm)
      as [[fm3 it3]| |] eqn:Hloop; cbn [bind] in Hrun; try discriminate.
    apply (instruction_loop_grows scanner fh fuel' Hfh) in Hloop.
    apply (start_loop_grows scanner fh fuel Hfh) in Hrun.
    destruct Hloop as (body & Hbody & _).
    destruct Hrun as (last & fm' & lgs' & (body' & Hbody' & _) & ->).
    fields. rewrite Hbody', Hbody, Hred.
    exists (body ++ body' ++ [final_action last root fm' lgs']).
    now rewrite <- !app_assoc.
  - intros instruction index Hi Hp pushed. subst pushed.
    now apply goto_top_snapshot.
Qed.

End DynamicReduce.

(** C5 on the image whose dynamic REDUCE sits in a block entered by a GOTO,
    on the input xy.  The first turn of the driver shifts the x and pushes
    the block at word 7 with the snapshot 1.  In the second turn the driver
    pops that state; its block shifts the y and arrives at the REDUCE with
    two symbols accumulated; the Reduce reported has the length 2 - 1. *)
Lemma dynamic_reduce_length_witness :
  let sc := Iterator.scanner (R := Sample.AsciiReader) 0 in
  let fresh :=
    Iterator.with_handler
      (Iterator.new (Sample.reader_of [120; 121]) Sample.nested_dynamic_image
                    Sample.xy_entry false)
      Sample.quiet in
  exists it at_reduce it',
    Iterator.instruction_executor sc 10 (Some Iterator.no_forks)
      (Iterator.with_stack fresh (snd (Stack.pop_state (Iterator.stack fresh))))
      (Stack.read_state (Iterator.stack fresh)) false = Done (false, it) /\
    1 <= Stack.pointer (Iterator.stack it) /\
    Stack.read_state (Iterator.stack it) = 0x24000007 /\
    Stack.get (Stack.meta_stack (Iterator.stack it)) (Stack.pointer (Iterator.stack it)) = 1 /\
    arrives sc (Some Iterator.no_forks)
      (Stack.get (Stack.meta_stack (Iterator.stack it)) (Stack.pointer (Iterator.stack it)))
      false 10
      (Iterator.with_stack it (snd (Stack.pop_state (Iterator.stack it))))
      (JS.and (Stack.read_state (Iterator.stack it)) state_index_mask)
      9 at_reduce 8 /\
    word (Iterator.bytecode at_reduce) 8 = Some 0x4000FFFF /\
    Iterator.symbol_accumulator at_reduce = 2 /\
    Iterator.production_id at_reduce = -1 /\
    Iterator.start_loop sc 11 (Some Iterator.no_forks) (-1) it false 0x04000003 = Done it' /\
    exists rest,
      Iterator.emitted it' = Iterator.emitted at_reduce ++ REDUCE 0 (2 - 1) (-1) :: rest.
Proof.
  intros sc fresh.
  assert (Hfh : replays_no_terminal (Iterator.no_forks (R := Sample.AsciiReader)))
    by (intros a i; split; [constructor | reflexivity]).
  assert (Hfacts : exists it at_reduce it',
    Iterator.instruction_executor sc 10 (Some Iterator.no_forks)
      (Iterator.with_stack fresh (snd (Stack.pop_state (Iterator.stack fresh))))
      (Stack.read_state (Iterator.stack fresh)) false = Done (false, it) /\
    (1 <=? Stack.pointer (Iterator.stack it)) = true /\
    Stack.read_state (Iterator.stack it) = 0x24000007 /\
    Stack.get (Stack.meta_stack (Iterator.stack it)) (Stack.pointer (Iterator.stack it)) = 1 /\
    JS.truthy (JS.and (Stack.read_state (Iterator.stack it))
                 (JS.shl normal_state_mask (JS.of_bool false))) = true /\
    arrives sc (Some Iterator.no_forks)
      (Stack.get (Stack.meta_stack (Iterator.stack it)) (Stack.pointer (Iterator.stack it)))
      false 10
      (Iterator.with_stack it (snd (Stack.pop_state (Iterator.stack it))))
      (JS.and (Stack.read_state (Iterator.stack it)) state_index_mask)
      9 at_reduce 8 /\
    word (Iterator.bytecode at_reduce) 8 = Some 0x4000FFFF /\
    Iterator.symbol_accumulator at_reduce = 2 /\
    Iterator.production_id at_reduce = -1 /\
    Iterator.start_loop sc 11 (Some Iterator.no_forks) (-1) it false 0x04000003 = Done it').
  { eexists; eexists; eexists.
    split; [vm_compute; reflexivity|].
    split; [vm_compute; reflexivity|].
    split; [vm_compute; reflexivity|].
    split; [vm_compute; reflexivity|].
    split; [vm_compute; reflexivity|].
    split; [eapply arrives_on; [vm_compute; reflexivity | apply arrives_here]|].
    split; [vm_compute; reflexivity|].
    split; [vm_compute; reflexivity|].
    split; [vm_compute; reflexivity|].
    vm_compute; reflexivity. }
  destruct Hfacts as (it & at_reduce & it' & Hfirst & Hp & Hstate & Hslot & Hgate & Harr
                      & Hw & Hacc & Hpid & Hrun).
  apply Z.leb_le in Hp.
  exists it, at_reduce, it'.
  split; [exact Hfirst|]. split; [exact Hp|]. split; [exact Hstate|]. split; [exact Hslot|].
  split; [exact Harr|]. split; [exact Hw|]. split; [exact Hacc|]. split; [exact Hpid|].
  split; [exact Hrun|].
  assert (Hpos : Stack.read_state (Iterator.stack it) > 0) by (rewrite Hstate; lia).
  destruct (proj1 (proj2 (dynamic_reduce_length it)) sc 10%nat Iterator.no_forks (-1) false
              0x04000003 9%nat at_reduce 8 0x4000FFFF it' Hp Hpos Hgate Hfh Harr Hw
              eq_refl eq_refl Hrun) as (rest & Hrest).
  exists rest. rewrite Hrest, Hacc, Hpid, Hslot. reflexivity.
Defined.

(** C5 as stated fails once the snapshot does not fit 16 bits.  With 65535
    symbols accumulated before the run, the x brings the accumulator to
    65536, which the GOTO pushes as the snapshot of the block at word 7;
    that block shifts the y and reduces.  One symbol has been accumulated
    since the GOTO, but the Reduce reports 65537 of them. *)
Lemma dynamic_reduce_drops_high_snapshot_bits :
  let it := Iterator.with_symbol_accumulator
              (Iterator.new (Sample.reader_of [120; 121]) Sample.nested_dynamic_image
                            Sample.xy_entry false)
              65535 in
  let snapshot := 65536 in
  let popped := Stack.pop_state (Stack.push_state Stack.new 0x24000007 snapshot) in
  let recover_data :=
    Stack.get (Stack.meta_stack (snd popped)) (Stack.pointer (snd popped) + 1) in
  recover_data = snapshot /\
  (exists it' index',
     Iterator.reduce (Iterator.with_symbol_accumulator it 65537) 0x4000FFFF 9 recover_data
     = Done (index', it') /\
     Iterator.emitted it' = [REDUCE 0 65537 (-1)] /\
     65537 <> 65537 - snapshot) /\
  exists it',
    Iterator.start 30 it Sample.quiet Iterator.no_forks (-1) = Done it' /\
    Iterator.emitted it'
    = [SHIFT (mkToken 0 1 0 1 0 0 0); SHIFT (mkToken 1 1 1 1 0 0 0);
       REDUCE 0 65537 (-1); ACCEPT].
Proof.
  cbv zeta. split; [vm_compute; reflexivity|]. split.
  - eexists; eexists. split; [vm_compute; reflexivity|].
    split; [reflexivity | vm_compute; congruence].
  - eexists. split; vm_compute; reflexivity.
Qed.
(** * Where the jumps land *)

Section JumpLanding.

Lemma sar_16_small w : 0 <= w < 2 ^ 31 -> JS.sar w 16 = w / 2 ^ 16.
Proof.
  intros Hw. unfold JS.sar. rewrite BitFacts.ToInt32_small by lia.
  change (16 mod 32) with 16. apply Z.shiftr_div_pow2. lia.
Qed.

Lemma sar_16_large w : 2 ^ 31 <= w < 2 ^ 32 -> JS.sar w 16 < 0.
Proof.
  intros Hw. unfold JS.sar, JS.ToInt32.
  replace ((w + 2 ^ 31) mod 2 ^ 32) with (w - 2 ^ 31).
  - change (16 mod 32) with 16. rewrite Z.shiftr_div_pow2 by lia.
    apply Z.div_lt_upper_bound; lia.
  - symmetry. rewrite <- (Z.mod_small (w - 2 ^ 31) (2 ^ 32)) by lia.
    replace (w + 2 ^ 31) with (w - 2 ^ 31 + 1 * 2 ^ 32) by lia.
    apply Z_mod_plus_full.
Qed.

(** X10.  INDEX_JUMP lands on the default block, which begins behind the table
    word, or on the first word of a row, never inside a row or outside the
    table; a row is taken only by the value it serves.  A table word whose
    row count has the top bit set is read as a negative count, and every
    value then takes the default block. *)
Theorem index_jump_lands_on_a_row bytecode index instruction value :
  image_ok bytecode ->
  let table_data := num (word bytecode (index + 1)) in
  let rows := table_data / 2 ^ 16 in
  let row_size := table_data mod 2 ^ 16 in
  let target := Iterator.index_jump_target bytecode index instruction value in
  target = index + 2 \/
  (rows < 2 ^ 15 /\
   exists r, 0 <= r < rows /\ value = instruction mod 2 ^ 16 + r /\
             target = index + 2 + row_size + r * row_size).
Proof.
  intros Hok table_data rows row_size target. subst target.
  unfold Iterator.index_jump_target. fold table_data.
  rewrite !BitFacts.and_0xFFFF. fold row_size.
  pose proof (word_in_range bytecode (index + 1) Hok) as Hw. fold table_data in Hw.
  destruct ((value - instruction mod 2 ^ 16 >=? 0)
            && (value - instruction mod 2 ^ 16 <? JS.sar table_data 16)) eqn:Hin;
    [|now left].
  apply andb_prop in Hin. destruct Hin as (Hlo & Hhi).
  apply Z.geb_le in Hlo. apply Z.ltb_lt in Hhi.
  destruct (Z_lt_ge_dec table_data (2 ^ 31)) as [Hsmall | Hlarge].
  - right. rewrite sar_16_small in Hhi by lia. fold rows in Hhi. split.
    + unfold rows. apply Z.div_lt_upper_bound; lia.
    + exists (value - instruction mod 2 ^ 16). split; [lia|]. split; lia.
  - pose proof (sar_16_large table_data ltac:(lia)). lia.
Qed.

Lemma hash_probe_large_value fuel bytecode start field_start size value slot target :
  value < 0 \/ 2 ^ 11 <= value ->
  Iterator.hash_probe fuel bytecode start field_start size value slot = Done target ->
  target = size + field_start.
Proof.
  intros Hv. revert slot. induction fuel as [|fuel IH]; intros slot H; [discriminate|].
  cbn [Iterator.hash_probe] in H. rewrite BitFacts.and_0x7FF in H.
  destruct (_ mod 2 ^ 11 =? value) eqn:Hhit.
  - apply Z.eqb_eq in Hhit.
    pose proof (Z.mod_pos_bound (num (word bytecode (start + slot))) (2 ^ 11) ltac:(lia)).
    lia.
  - destruct (_ =? 0); [now inversion H | eauto].
Qed.

(** X11.  HASH_JUMP compares eleven bits of a cell with the whole input value, so
    a value outside 0..2047 matches no cell: whenever the probe ends, the
    loop goes on at the default block behind the instruction field. *)
Theorem hash_jump_large_value_takes_default fuel bytecode index instruction value target :
  value < 0 \/ 2048 <= value ->
  Iterator.hash_jump_target fuel bytecode index instruction value = Done target ->
  target = index + 2 + num (word bytecode (index + 1)) mod 2 ^ 16 + instruction mod 2 ^ 16.
Proof.
  intros Hv H. unfold Iterator.hash_jump_target in H.
  rewrite !BitFacts.and_0xFFFF in H.
  apply hash_probe_large_value in H; [lia | exact Hv].
Qed.

Lemma index_jump_target_tag bytecode index w value :
  Iterator.index_jump_target bytecode index (w + 2 ^ 28) value
  = Iterator.index_jump_target bytecode index w value.
Proof.
  unfold Iterator.index_jump_target. rewrite !BitFacts.and_0xFFFF.
  change (2 ^ 28) with (2 ^ 12 * 2 ^ 16). now rewrite Z_mod_plus_full.
Qed.

Lemma opcode_next w : opcode w = 8 -> opcode (w + 2 ^ 28) = 9.
Proof.
  unfold opcode. intros H.
  replace (w + 2 ^ 28) with (w + 1 * 2 ^ 28) by lia.
  rewrite Z.div_add by lia. rewrite Z.add_mod by lia. rewrite H. reflexivity.
Qed.

Lemma input_bits_tag w :
  JS.and (JS.sar (w + 2 ^ 28) 22) 0x7 = JS.and (JS.sar w 22) 0x7 /\
  JS.and (JS.sar (w + 2 ^ 28) 26) 0x3 = JS.and (JS.sar w 26) 0x3.
Proof.
  change 0x3 with (Z.ones 2). change 0x7 with (Z.ones 3).
  rewrite !BitFacts.sar_and_ones by lia. split.
  - change (2 ^ 28) with (2 ^ 6 * 2 ^ 22). rewrite Z.div_add by lia.
    change (2 ^ 6) with (2 ^ 3 * 2 ^ 3). now rewrite Z_mod_plus_full.
  - change (2 ^ 28) with (2 ^ 2 * 2 ^ 26). rewrite Z.div_add by lia.
    change (2 ^ 2) with (1 * 2 ^ 2). now rewrite Z_mod_plus_full.
Qed.

End JumpLanding.

Section Blocks.

Context {R : Type} {BR : Reader.ByteReader R} {K : KernelConstants}.

Import Iterator.

Variable scanner : StateIterator (R := R) -> KernelToken -> Z -> outcome KernelToken.

(** X9.  The opcode called NOOP is no pause: a word with opcode 8 is executed as
    the INDEX_JUMP word with the same operand bits, table lookup
    included. *)
Theorem noop_runs_as_index_jump fuel fh (it : StateIterator (R := R)) w index rd fm :
  opcode w = 8 ->
  execute scanner fuel fh it w index rd fm
  = execute scanner fuel fh it (w + 2 ^ 28) index rd fm.
Proof.
  intros Hop. unfold execute. rewrite !BitFacts.opcode_bits.
  fold (opcode w). fold (opcode (w + 2 ^ 28)). rewrite (opcode_next w Hop), Hop.
  cbv iota. f_equal. unfold index_jump.
  destruct (input_bits_tag w) as (-> & ->).
  destruct (get_input_value _ _ _ _ _) as [[v it1]| |]; cbn [bind]; try reflexivity.
  now rewrite index_jump_target_tag.
Qed.

(** X8.  A state pointer whose index lies outside the image runs an empty block:
    the missing word reads as zero, which is PASS, so the executor returns
    at once, the iterator untouched and fail mode off. *)
Theorem block_outside_image_passes fuel fh (it : StateIterator (R := R)) state_pointer fm :
  let index := JS.and state_pointer state_index_mask in
  index < 0 \/ Z.of_nat (List.length (bytecode it)) <= index ->
  instruction_executor scanner (S fuel) fh it state_pointer fm = Done (false, it).
Proof.
  intros index Hout. unfold instruction_executor. fold index.
  cbn [instruction_loop]. rewrite (word_outside _ _ Hout).
  unfold execute. rewrite BitFacts.opcode_bits. reflexivity.
Qed.

Lemma emit_all_accepting (it : StateIterator (R := R)) buffer :
  accepting it -> emit_all it buffer = Done (with_emitted it (emitted it ++ buffer)).
Proof.
  revert it; induction buffer as [|a buffer IH]; intros it Ha; cbn [emit_all].
  - rewrite app_nil_r. now destruct it.
  - unfold emit. rewrite Ha. cbn [bind]. rewrite IH by exact Ha.
    fields. now rewrite <- app_assoc.
Qed.

(** X14.  FORK hands the fork handler a Fork action that carries the index of the
    instruction itself, and then replays what the handler answers, in
    order, to the sink.  If something was replayed the loop goes on at word
    1 of the image, otherwise at word 0. *)
Theorem fork_replays_answer fh (it : StateIterator (R := R)) instruction index :
  let answer := fh (FORK (index - 1)) (with_ACTION_BUFFER_EMPTY it false) in
  accepting (snd answer) ->
  fork (Some fh) it instruction index
  = Done (match fst answer with [] => 0 | _ => 1 end,
          with_emitted (snd answer) (emitted (snd answer) ++ fst answer)).
Proof.
  intros answer Ha. unfold fork. fold answer.
  destruct answer as [buffer it1]. cbn [fst snd] in *.
  destruct buffer as [|a buffer].
  - cbn. rewrite app_nil_r. now destruct it1.
  - replace (Z.of_nat (List.length (a :: buffer)) >? 0) with true
      by (symmetry; apply Z.gtb_lt; cbn [List.length]; lia).
    rewrite emit_all_accepting by exact Ha. reflexivity.
Qed.

(** X12.  A jump on the production id reads no input: when the input type of an
    INDEX_JUMP or HASH_JUMP is 0 the discriminant is the production id, and
    the reader, the tokens and everything else of the iterator are left as
    they were; the scanner is not run. *)
Theorem production_jump_reads_no_input (it : StateIterator (R := R)) index w :
  (w / 2 ^ 22) mod 2 ^ 3 = 0 ->
  index_jump scanner it index w
  = Done (index_jump_target (bytecode it) index w (production_id it), it) /\
  (forall fuel target it',
     hash_jump scanner fuel it index w = Done (target, it') ->
     it' = it /\
     hash_jump_target fuel (bytecode it) index w (production_id it) = Done target).
Proof.
  intros Hty.
  assert (Hbits : JS.and (JS.sar w 22) 0x7 = 0)
    by (change 0x7 with (Z.ones 3); rewrite BitFacts.sar_and_ones by lia; exact Hty).
  split.
  - unfold index_jump, get_input_value. rewrite Hbits. reflexivity.
  - intros fuel target it' H. unfold hash_jump, get_input_value in H.
    rewrite Hbits in H. cbn [Z.gtb Z.compare bind] in H.
    destruct (hash_jump_target fuel (bytecode it) index w (production_id it))
      as [t| |]; cbn [bind] in H; try discriminate.
    inversion H; subst. split; reflexivity.
Qed.

(** X13.  The Reduce action carries the production id the iterator had when the
    REDUCE was fetched.  A SET_PRODUCTION word fused behind the REDUCE
    changes the iterator's production id only after the action has been
    reported, so the action never shows it. *)
Theorem reduce_reports_previous_production (it it' : StateIterator (R := R))
    instruction index recover_data index' :
  reduce it instruction index recover_data = Done (index', it') ->
  exists body length,
    emitted it' = emitted it ++ [REDUCE body length (production_id it)] /\
    (opcode (num (word (bytecode it) index)) = 3 ->
     image_ok (bytecode it) ->
     index' = index + 1 /\
     production_id it' = num (word (bytecode it) index) mod 2 ^ 28).
Proof.
  unfold reduce. intros H.
  match type of H with
  | bind ?m _ = _ => destruct m as [it1| |] eqn:E
  end; cbn [bind] in H; try discriminate.
  assert (Hit1 : exists body length,
            emitted it1 = emitted it ++ [REDUCE body length (production_id it)] /\
            bytecode it1 = bytecode it).
  { destruct (_ =? 0xFFFF) in E; apply emitReduce_inv in E; subst it1; fields; eauto. }
  destruct Hit1 as (body & length & Hem & Hbc). exists body, length. split.
  - destruct (_ =? 0x30000000) in H; inversion H; subst; fields; exact Hem.
  - intros Hop Hok. rewrite (reduce_tail it1 index) in H by (rewrite Hbc; exact Hok).
    rewrite Hbc, Hop in H. change (3 =? 3) with true in H. cbv iota in H.
    inversion H; subst. fields. auto.
Qed.

(** In fail mode the driver pops the states that do not carry the fail bit
    without running them. *)
Lemma start_loop_drains fuel fh root (it : StateIterator (R := R)) last_good_state :
  0 <= Stack.pointer (stack it) < Z.of_nat fuel ->
  no_fail_state it ->
  start_loop scanner fuel fh root it true last_good_state
  = emit (drained it) (final_action it root true last_good_state).
Proof.
  intros Hp Hnone.
  remember (Z.to_nat (Stack.pointer (stack it))) as depth eqn:Hdepth.
  revert fuel it Hp Hnone Hdepth.
  induction depth as [|depth IH]; intros fuel it Hp Hnone Hdepth;
    (destruct fuel as [|fuel]; [lia|]); cbn [start_loop].
  - assert (Hz : Stack.pointer (stack it) = 0) by lia.
    rewrite Hz. cbn [Z.ltb Z.compare].
    unfold drained. rewrite <- Hz. now destruct it as [[ss ms p] ? ? ? ? ? ? ? ? ?].
  - destruct (Stack.pointer (stack it) <? 1) eqn:Hempty; [lia|].
    unfold Stack.pop_state, Stack.read_state.
    assert (Hgate : JS.truthy
                      (JS.and (Stack.get (Stack.state_stack (stack it))
                                 (Stack.pointer (stack it)))
                              (JS.shl normal_state_mask (JS.of_bool true))) = false)
      by (apply Hnone; lia).
    rewrite Hgate.
    assert (Hnext : start_loop scanner fuel fh root
                      (with_stack it
                         (Stack.mkStack (Stack.state_stack (stack it))
                            (Stack.meta_stack (stack it)) (Stack.pointer (stack it) - 1)))
                      true last_good_state
                    = emit (drained it) (final_action it root true last_good_state)).
    { rewrite IH; fields; cbn [Stack.pointer Stack.state_stack Stack.meta_stack];
        try lia; try assumption; try reflexivity.
      intros i Hi. fields in *. cbn [Stack.pointer Stack.state_stack] in *.
      apply Hnone. lia. }
    destruct (_ >? 0); exact Hnext.
Qed.

(** X7.  In fail mode only the states that carry the fail bit run.  If no state
    on the stack carries it, the driver pops them all, runs none, and
    reports the Error action with the last good state it was given. *)
Theorem fail_mode_without_fail_state_reports_error fuel fh root
    (it : StateIterator (R := R)) last_good_state :
  0 <= Stack.pointer (stack it) < Z.of_nat fuel ->
  SCANNER it = false ->
  no_fail_state it ->
  start_loop scanner fuel fh root it true last_good_state
  = emit (drained it) (error_at it last_good_state).
Proof.
  intros Hp Hrole Hnone. rewrite start_loop_drains by assumption.
  unfold final_action, error_at. now rewrite Hrole.
Qed.

(** X23.  A block that fails at once, by a RETURN whose low bit is clear,
    while no state on the stack carries the fail bit, ends the session: the
    driver reports the Error action for the lookahead token, and the last
    state of that action is the state pointer of the block that failed. *)
Theorem failing_block_without_recovery_reports_its_state fuel fh root
    (it : StateIterator (R := R)) last_good_state :
  let state := Stack.read_state (stack it) in
  let w := num (word (bytecode it) (JS.and state state_index_mask)) in
  1 <= Stack.pointer (stack it) <= Z.of_nat fuel ->
  (1 <= fuel)%nat ->
  SCANNER it = false ->
  0 < state ->
  JS.truthy (JS.and state (JS.shl normal_state_mask 0)) = true ->
  opcode w = 15 -> w mod 2 = 0 ->
  no_fail_state it ->
  start_loop scanner (S fuel) fh root it false last_good_state
  = emit (drained it) (error_at it state).
Proof.
  intros state w Hp Hfuel Hrole Hpos Hgate Hop Hfail Hnone.
  cbn [start_loop].
  destruct (Stack.pointer (stack it) <? 1) eqn:Hempty; [lia|].
  unfold Stack.pop_state. fold state.
  destruct (state >? 0) eqn:Hgt; [|lia].
  change (JS.of_bool false) with 0. rewrite Hgate.
  destruct fuel as [|fuel]; [lia|].
  unfold instruction_executor. cbn [instruction_loop]. fields. fold w.
  unfold execute. rewrite BitFacts.opcode_bits. fold (opcode w). rewrite Hop.
  cbv iota. unfold advanced_return. rewrite BitFacts.and_1, Hfail.
  change (JS.truthy 0) with false. cbv iota. cbn [bind].
  rewrite start_loop_drains.
  - unfold final_action, error_at. fields. now rewrite Hrole.
  - fields. cbn [Stack.pointer]. lia.
  - intros i Hi. fields in *. cbn [Stack.pointer Stack.state_stack] in *.
    apply Hnone. lia.
Qed.

End Blocks.

(** The sample jump table has two rows of one word. *)
Lemma index_jump_lands_on_a_row_witness :
  image_ok Sample.jump_image /\
  (Iterator.index_jump_target Sample.jump_image 4 0x90000004 5 = 4 + 2 \/
   (num (word Sample.jump_image (4 + 1)) / 2 ^ 16 < 2 ^ 15 /\
    exists r, 0 <= r < num (word Sample.jump_image (4 + 1)) / 2 ^ 16 /\
              5 = 0x90000004 mod 2 ^ 16 + r /\
              Iterator.index_jump_target Sample.jump_image 4 0x90000004 5
              = 4 + 2 + num (word Sample.jump_image (4 + 1)) mod 2 ^ 16
                + r * (num (word Sample.jump_image (4 + 1)) mod 2 ^ 16))).
Proof.
  assert (Hok : image_ok Sample.jump_image)
    by (unfold image_ok; repeat constructor; vm_compute; congruence).
  split; [exact Hok|].
  exact (index_jump_lands_on_a_row Sample.jump_image 4 0x90000004 5 Hok).
Defined.

(** The sample hash table holds the keys 4 and 5; the value 5000 takes the
    default block at word 16. *)
Lemma hash_jump_large_value_takes_default_witness :
  (5000 < 0 \/ 2048 <= 5000) /\
  Iterator.hash_jump_target 4 Sample.jump_image 10 0xA0000002 5000 = Done 16 /\
  16 = 10 + 2 + num (word Sample.jump_image (10 + 1)) mod 2 ^ 16 + 0xA0000002 mod 2 ^ 16.
Proof.
  assert (Hv : 5000 < 0 \/ 2048 <= 5000) by (right; lia).
  assert (Hrun : Iterator.hash_jump_target 4 Sample.jump_image 10 0xA0000002 5000 = Done 16)
    by (vm_compute; reflexivity).
  split; [exact Hv|]. split; [exact Hrun|].
  exact (hash_jump_large_value_takes_default 4%nat Sample.jump_image 10 0xA0000002 5000 16
           Hv Hrun).
Defined.

(** The word 0x80000004 before the sample jump table. *)
Lemma noop_runs_as_index_jump_witness :
  let it := Iterator.with_production_id
              (Iterator.new (Sample.reader_of []) Sample.jump_image Sample.xy_entry false) 5 in
  opcode 0x80000004 = 8 /\
  Iterator.execute (Iterator.scanner 10) 10 (Some Iterator.no_forks) it 0x80000004 4 0 false
  = Iterator.execute (Iterator.scanner 10) 10 (Some Iterator.no_forks) it
      (0x80000004 + 2 ^ 28) 4 0 false.
Proof.
  intros it. split; [reflexivity|].
  apply (noop_runs_as_index_jump (Iterator.scanner 10) 10%nat (Some Iterator.no_forks) it
           0x80000004 4 0 false).
  reflexivity.
Defined.

(** A state pointer to word 100 of the eight-word sample image. *)
Lemma block_outside_image_passes_witness :
  let it := Iterator.new (Sample.reader_of [120]) Sample.xy_image Sample.xy_entry false in
  (JS.and 0x04000064 state_index_mask < 0
   \/ Z.of_nat (List.length (Iterator.bytecode it)) <= JS.and 0x04000064 state_index_mask) /\
  Iterator.instruction_executor (Iterator.scanner 10) 1 (Some Iterator.no_forks) it
    0x04000064 true = Done (false, it).
Proof.
  intros it.
  assert (Hout : JS.and 0x04000064 state_index_mask < 0
                 \/ Z.of_nat (List.length (Iterator.bytecode it))
                    <= JS.and 0x04000064 state_index_mask)
    by (right; vm_compute; discriminate).
  split; [exact Hout|].
  exact (block_outside_image_passes (Iterator.scanner 10) 0%nat (Some Iterator.no_forks) it
           0x04000064 true Hout).
Defined.

(** A fork handler that answers one Reduce. *)
Lemma fork_replays_answer_witness :
  let it := Iterator.new (Sample.reader_of [120]) Sample.xy_image Sample.xy_entry false in
  let fh : Iterator.ForkHandler := fun _ i => ([REDUCE 1 2 3], i) in
  accepting (snd (fh (FORK (4 - 1)) (Iterator.with_ACTION_BUFFER_EMPTY it false))) /\
  Iterator.fork (Some fh) it 0x60000000 4
  = Done (1, Iterator.with_emitted (Iterator.with_ACTION_BUFFER_EMPTY it false)
               [REDUCE 1 2 3]).
Proof.
  intros it fh.
  assert (Ha : accepting (snd (fh (FORK (4 - 1)) (Iterator.with_ACTION_BUFFER_EMPTY it false))))
    by (intros a; reflexivity).
  split; [exact Ha|].
  exact (fork_replays_answer fh it 0x60000000 4 Ha).
Defined.

(** A fresh iterator put in fail mode: its only state is the entry state,
    which carries the normal bit alone. *)
Lemma fail_mode_without_fail_state_reports_error_witness :
  let it := Iterator.new (Sample.reader_of [120]) Sample.xy_image Sample.xy_entry false in
  0 <= Stack.pointer (Iterator.stack it) < Z.of_nat 2 /\
  Iterator.SCANNER it = false /\
  no_fail_state it /\
  Iterator.start_loop (Iterator.scanner 5) 2 None (-1) it true 7
  = Iterator.emit (drained it) (error_at it 7).
Proof.
  intros it.
  assert (Hp : 0 <= Stack.pointer (Iterator.stack it) < Z.of_nat 2) by (cbn; lia).
  assert (Hnone : no_fail_state it).
  { intros i Hi. assert (i = 1) as -> by (cbn in Hi; lia). vm_compute. reflexivity. }
  split; [exact Hp|]. split; [reflexivity|]. split; [exact Hnone|].
  exact (fail_mode_without_fail_state_reports_error (Iterator.scanner 5) 2%nat None (-1) it 7
           Hp eq_refl Hnone).
Defined.

(** A jump on the production id over the sample dense table. *)
Lemma production_jump_reads_no_input_witness :
  let it := Iterator.with_production_id
              (Iterator.new (Sample.reader_of [120]) Sample.jump_image Sample.xy_entry false) 5 in
  (0x90000004 / 2 ^ 22) mod 2 ^ 3 = 0 /\
  Iterator.index_jump (Iterator.scanner 5) it 4 0x90000004 = Done (8, it).
Proof.
  intros it. split; [reflexivity|].
  exact (proj1 (production_jump_reads_no_input (Iterator.scanner 5) it 4 0x90000004 eq_refl)).
Defined.

(** The REDUCE of the sample image with its fused SET_PRODUCTION, on an
    iterator whose production id is 7. *)
Lemma reduce_reports_previous_production_witness :
  let it := Iterator.with_production_id
              (Iterator.new (Sample.reader_of [120]) Sample.xy_image Sample.xy_entry false) 7 in
  exists index' it',
    Iterator.reduce it 0x40020000 6 0 = Done (index', it') /\
    Iterator.emitted it' = [REDUCE 0 2 7] /\
    Iterator.production_id it' = 0.
Proof.
  intros it.
  destruct (Iterator.reduce it 0x40020000 6 0) as [[index' it']| |] eqn:Hrun;
    [|vm_compute in Hrun; discriminate|vm_compute in Hrun; discriminate].
  exists index', it'. split; [reflexivity|].
  destruct (reduce_reports_previous_production it it' 0x40020000 6 0 index' Hrun)
    as (body & length & Hem & Hfused).
  split.
  - vm_compute in Hrun. inversion Hrun. reflexivity.
  - destruct Hfused as (_ & Hpid);
      [reflexivity | unfold image_ok; repeat constructor; vm_compute; congruence | exact Hpid].
Defined.

(** A session whose entry block is a RETURN with the low bit clear. *)
Lemma failing_block_without_recovery_reports_its_state_witness :
  let it := Iterator.new (Sample.reader_of [120]) [0; 0; 0; 0xF0000000] Sample.xy_entry false in
  1 <= Stack.pointer (Iterator.stack it) <= Z.of_nat 1 /\
  (1 <= 1)%nat /\
  Iterator.SCANNER it = false /\
  0 < Stack.read_state (Iterator.stack it) /\
  no_fail_state it /\
  Iterator.start_loop (Iterator.scanner 5) 2 None (-1) it false (-1)
  = Iterator.emit (drained it) (ERROR 0 0 0 0x04000003 (-1)).
Proof.
  intros it.
  assert (Hp : 1 <= Stack.pointer (Iterator.stack it) <= Z.of_nat 1) by (cbn; lia).
  assert (Hpos : 0 < Stack.read_state (Iterator.stack it)) by reflexivity.
  assert (Hnone : no_fail_state it).
  { intros i Hi. assert (i = 1) as -> by (cbn in Hi; lia). vm_compute. reflexivity. }
  split; [exact Hp|]. split; [lia|]. split; [reflexivity|]. split; [exact Hpos|].
  split; [exact Hnone|].
  exact (failing_block_without_recovery_reports_its_state (Iterator.scanner 5) 1%nat None (-1)
           it (-1) Hp (le_n 1) eq_refl Hpos eq_refl eq_refl eq_refl Hnone).
Defined.
(** * Skips mark the gaps between shifted tokens *)

Section Marks.

Context {R : Type} {BR : Reader.ByteReader R} {K : KernelConstants}.

Import Iterator.

Lemma mark_after_app m l l' : mark_after m (l ++ l') = mark_after (mark_after m l) l'.
Proof.
  revert m; induction l as [|a l IH]; intros m; [reflexivity|].
  destruct a; cbn [app mark_after]; apply IH.
Qed.

Lemma gaps_app pending m l l' :
  gaps pending m l -> gaps false (mark_after m l) l' -> gaps pending m (l ++ l').
Proof.
  revert pending m; induction l as [|a l IH]; intros pending m Hl Hl'.
  - cbn in *. subst pending. exact Hl'.
  - destruct a; cbn [app gaps mark_after] in *;
      (split; [apply Hl | apply IH; [apply Hl | exact Hl']]).
Qed.

Lemma marked_same m base (it it' : StateIterator (R := R)) :
  emitted it' = emitted it ->
  end_of (tokens_0 (tokens it')) = end_of (tokens_0 (tokens it)) ->
  marked m base it -> marked m base it'.
Proof.
  intros He Ht (body & Hb & Hg & Hm). exists body. rewrite He, Ht. auto.
Qed.

Lemma marked_more m base (it it' : StateIterator (R := R)) more :
  emitted it' = emitted it ++ more ->
  gaps false (end_of (tokens_0 (tokens it))) more ->
  end_of (tokens_0 (tokens it')) = mark_after (end_of (tokens_0 (tokens it))) more ->
  marked m base it -> marked m base it'.
Proof.
  intros He Hg' Ht (body & Hb & Hg & Hm). exists (body ++ more).
  rewrite He, Hb, app_assoc. split; [reflexivity|]. split.
  - apply gaps_app; [exact Hg | now rewrite <- Hm].
  - rewrite mark_after_app, <- Hm. exact Ht.
Qed.

(** An action other than Shift and Skip may be reported. *)
Lemma emit_marked m base (it it' : StateIterator (R := R)) a :
  match a with SHIFT _ | SKIP _ _ _ _ => False | _ => True end ->
  emit it a = Done it' -> marked m base it -> marked m base it'.
Proof.
  intros Ha He. apply emit_inv in He. subst it'.
  apply (marked_more m base it _ [a]); fields; try reflexivity;
    destruct a; cbn; tauto.
Qed.

(** CONSUME in the parser role: the Skip goes with the gap, and the current
    token then ends where the shifted token ends. *)
Lemma consume_marked m base (it it' : StateIterator (R := R)) instruction :
  consume it instruction = Done it' -> marked m base it -> marked m base it'.
Proof.
  unfold consume, advance_token. intros H.
  set (token := if JS.truthy (JS.and instruction 1)
                then Token.set_byte_length
                       (Token.set_codepoint_length (tokens_1 (tokens it)) 0) 0
                else tokens_1 (tokens it)) in *.
  destruct (SCANNER (with_tokens_1 it token)) eqn:Hrole.
  - inversion H; subst it'; clear H. apply marked_same; reflexivity.
  - unfold emitShift in H. fields in *.
    match type of H with context [if ?c then _ else _] => destruct c eqn:Hgap end.
    + invert_run H. apply emit_inv in E0, E. subst. fields.
      apply Bool.negb_true_iff, Z.eqb_neq in Hgap.
      apply (marked_more m base it _
               [SKIP (codepoint_offset (tokens_0 (tokens it)))
                     (codepoint_offset token
                      - (codepoint_length (tokens_0 (tokens it))
                         + codepoint_offset (tokens_0 (tokens it))))
                     (line_number (tokens_0 (tokens it))) 0;
                SHIFT token]); fields.
      * now rewrite <- app_assoc.
      * cbn. unfold end_of. repeat split; congruence.
      * cbn [mark_after]. unfold end_of. fields. lia.
    + invert_run H. apply emit_inv in E. subst. fields.
      apply Bool.negb_false_iff, Z.eqb_eq in Hgap.
      apply (marked_more m base it _ [SHIFT token]); fields.
      * reflexivity.
      * cbn. unfold end_of. repeat split; congruence.
      * cbn [mark_after]. unfold end_of. fields. lia.
Qed.

Lemma reduce_marked m base (it it' : StateIterator (R := R)) instruction index rd index' :
  reduce it instruction index rd = Done (index', it') ->
  marked m base it -> marked m base it'.
Proof.
  unfold reduce, emitReduce. intros H Hm. invert_run H;
    (eapply emit_marked in E; [|exact I|eapply marked_same; [| |exact Hm]; reflexivity]);
    (eapply marked_same; [| |exact E]; reflexivity).
Qed.

(** SET_TOKEN, but for the form that closes the current token. *)
Lemma set_token_marked m base (it it' : StateIterator (R := R)) instruction index index' :
  JS.and instruction 0x08000000 = 0 ->
  set_token it instruction index = Done (index', it') ->
  marked m base it -> marked m base it'.
Proof.
  intros Hflag. unfold set_token. rewrite Hflag. change (JS.truthy 0) with false.
  cbv iota. intros H Hm.
  invert_run H; try (apply consume_marked with (m := m) (base := base) in E; [|exact Hm]);
    match goal with
    | Hi : marked m base ?i |- marked m base _ =>
        apply (marked_same m base i); [reflexivity | reflexivity | exact Hi]
    end.
Qed.

Lemma assert_consume_marked m base (it it' : StateIterator (R := R)) index instruction index' :
  assert_consume it index instruction = Done (index', it') ->
  marked m base it -> marked m base it'.
Proof.
  unfold assert_consume. intros H Hm.
  assert (Hsized : forall bl cl,
            marked m base (with_tokens_1 it
                             (Token.set_codepoint_length
                                (Token.set_byte_length (tokens_1 (tokens it)) bl) cl)))
    by (intros bl cl; apply (marked_same m base it); [reflexivity | reflexivity | exact Hm]).
  invert_run H;
    try (apply Hsized);
    try (eapply consume_marked; [exact E|]; try apply Hsized; exact Hm).
Qed.

Lemma fork_marked m base fh (it it' : StateIterator (R := R)) instruction index index' :
  answers_nothing fh ->
  fork (Some fh) it instruction index = Done (index', it') ->
  marked m base it -> marked m base it'.
Proof.
  intros Hfh. unfold fork. rewrite Hfh. cbn. intros H Hm. inversion H; subst.
  apply (marked_same m base it); [reflexivity | reflexivity | exact Hm].
Qed.

Lemma goto_marked m base (it : StateIterator (R := R)) instruction index :
  marked m base it -> marked m base (snd (goto it instruction index)).
Proof.
  unfold goto. destruct (goto_chain _ _ _ _). apply marked_same; reflexivity.
Qed.

Lemma push_fail_state_marked m base (it : StateIterator (R := R)) instruction :
  marked m base it -> marked m base (push_fail_state it instruction).
Proof.
  unfold push_fail_state. destruct (negb _); apply marked_same; reflexivity.
Qed.

Section WithScanner.

Variable scanner : StateIterator (R := R) -> KernelToken -> Z -> outcome KernelToken.

(** Reading an input value leaves the record and the current token as
    they are. *)
Lemma read_input_current (it it' : StateIterator (R := R)) at_end token input_type pointer v :
  read_input scanner it at_end token input_type pointer = Done (v, it') ->
  emitted it' = emitted it /\ tokens_0 (tokens it') = tokens_0 (tokens it).
Proof.
  unfold read_input, Tokens.set_last. intros H.
  invert_run H; destruct at_end; fields; try (split; reflexivity);
    destruct (tokens_peek (tokens it)); split; reflexivity.
Qed.

Lemma get_input_value_current (it it' : StateIterator (R := R)) input_type transition pointer v :
  get_input_value scanner it input_type transition pointer = Done (v, it') ->
  emitted it' = emitted it /\ tokens_0 (tokens it') = tokens_0 (tokens it).
Proof.
  unfold get_input_value. intros H.
  invert_run H; try (split; reflexivity);
    match goal with
    | Hr : read_input _ _ _ _ _ _ = Done _ |- _ =>
        apply read_input_current in Hr; destruct Hr as (He & Ht);
        rewrite He, Ht; fields; split; try reflexivity
    end.
  all: unfold Tokens.set_last, Tokens.push; cbn [tokens_peek tokens_0];
    destruct (tokens_peek (tokens it) ++ _); reflexivity.
Qed.

Lemma index_jump_marked m base (it it' : StateIterator (R := R)) index instruction index' :
  index_jump scanner it index instruction = Done (index', it') ->
  marked m base it -> marked m base it'.
Proof.
  unfold index_jump. intros H Hm. invert_run H.
  apply get_input_value_current in E. destruct E as (He & Ht).
  apply (marked_same m base it); [exact He | now rewrite Ht | exact Hm].
Qed.

Lemma hash_jump_marked m base fuel (it it' : StateIterator (R := R)) index instruction index' :
  hash_jump scanner fuel it index instruction = Done (index', it') ->
  marked m base it -> marked m base it'.
Proof.
  unfold hash_jump. intros H Hm. invert_run H.
  apply get_input_value_current in E. destruct E as (He & Ht).
  apply (marked_same m base it); [exact He | now rewrite Ht | exact Hm].
Qed.

Lemma scan_to_marked m base fuel (it it' : StateIterator (R := R)) index instruction index' :
  scan_to scanner fuel it index instruction = Done (index', it') ->
  marked m base it -> marked m base it'.
Proof.
  unfold scan_to. intros H Hm.
  invert_run H;
    match goal with
    | Hi : marked m base ?i |- _ => apply (marked_same m base i); try reflexivity; exact Hi
    end.
Qed.

(** Every instruction but the SET_TOKEN that closes the current token
    keeps the record marked. *)
Lemma execute_marked m base fuel fh (it : StateIterator (R := R)) instruction index rd fm r :
  answers_nothing fh ->
  (opcode instruction = 5 -> JS.and instruction 0x08000000 = 0) ->
  execute scanner fuel (Some fh) it instruction index rd fm = Done r ->
  marked m base it ->
  marked m base (match r with Continue _ it' => it' | Return _ it' => it' end).
Proof.
  intros Hfh Hflag H Hm. unfold execute, continue in H.
  rewrite BitFacts.opcode_bits in H. fold (opcode instruction) in H.
  pose proof (opcode_range instruction) as Hr.
  assert (Hcases : opcode instruction = 0 \/ opcode instruction = 1 \/ opcode instruction = 2
                   \/ opcode instruction = 3 \/ opcode instruction = 4
                   \/ opcode instruction = 5 \/ opcode instruction = 6
                   \/ opcode instruction = 7 \/ opcode instruction = 8
                   \/ opcode instruction = 9 \/ opcode instruction = 10
                   \/ opcode instruction = 11 \/ opcode instruction = 12
                   \/ opcode instruction = 13 \/ opcode instruction = 14
                   \/ opcode instruction = 15) by lia.
  repeat (destruct Hcases as [Hop | Hcases]; [rewrite Hop in H; cbv iota in H|]);
    try (rewrite Hcases in H; cbv iota in H).
  - invert_run H. exact Hm.
  - invert_run H. eapply consume_marked; eauto.
  - pose proof (goto_marked m base it instruction index Hm) as Hg.
    destruct (goto it instruction index) as [index1 it1]. invert_run H. exact Hg.
  - invert_run H. apply (marked_same m base it); [reflexivity | reflexivity | exact Hm].
  - invert_run H. eapply reduce_marked; eauto.
  - invert_run H. eapply set_token_marked; eauto.
  - invert_run H. eapply fork_marked; eauto.
  - invert_run H. eapply scan_to_marked; eauto.
  - invert_run H. eapply index_jump_marked; eauto.
  - invert_run H. eapply index_jump_marked; eauto.
  - invert_run H. eapply hash_jump_marked; eauto.
  - invert_run H. now apply push_fail_state_marked.
  - invert_run H. exact Hm.
  - invert_run H. exact Hm.
  - invert_run H. eapply assert_consume_marked; eauto.
  - invert_run H. exact Hm.
Qed.

(** *** The words the iterator executes in its own role *)

Lemma push_within P (it : StateIterator (R := R)) v meta :
  stack_within P it -> 0 <= Stack.pointer (stack it) -> P (target v) ->
  stack_within P (with_stack it (Stack.push_state (stack it) v meta)).
Proof.
  intros Hs Hp Hv j Hj. fields in *. unfold Stack.push_state in *.
  cbn [Stack.state_stack Stack.pointer] in *.
  destruct (Z.eq_dec j (Stack.pointer (stack it) + 1)) as [->|Hne].
  - rewrite stack_get_set by lia. exact Hv.
  - rewrite get_set_other by lia. apply Hs. lia.
Qed.

Lemma swap_within P (it : StateIterator (R := R)) v :
  stack_within P it -> P (target v) ->
  stack_within P (with_stack it (Stack.swap_state (stack it) v)).
Proof.
  intros Hs Hv j Hj. fields in *. unfold Stack.swap_state in *.
  cbn [Stack.state_stack Stack.pointer] in *.
  destruct (Z.eq_dec j (Stack.pointer (stack it))) as [->|Hne].
  - rewrite stack_get_set by lia. exact Hv.
  - rewrite get_set_other by lia. apply Hs. lia.
Qed.

Lemma parser_word_range P bytecode p w :
  parser_words P bytecode -> word bytecode p = Some w -> 0 <= w < 2 ^ 32.
Proof.
  intros (Hok & _) Hw. unfold word in Hw. destruct (p <? 0); [discriminate|].
  unfold image_ok in Hok. rewrite Forall_forall in Hok.
  apply Hok. eapply nth_error_In; eauto.
Qed.

(** The chain of GOTO words behind a GOTO stays in [P], and so do the
    blocks it pushes. *)
Lemma goto_chain_within P (it : StateIterator (R := R)) symbols :
  parser_words P (bytecode it) ->
  forall rest q s,
    0 <= q -> skipn (Z.to_nat q) (bytecode it) = rest -> P q ->
    0 <= Stack.pointer s -> stack_within P (with_stack it s) ->
    P (fst (goto_chain rest symbols s q)) /\
    0 <= Stack.pointer (snd (goto_chain rest symbols s q)) /\
    stack_within P (with_stack it (snd (goto_chain rest symbols s q))).
Proof.
  intros Hpw. induction rest as [|w rest IH]; intros q s Hq Hrest HP Hp Hs;
    cbn [goto_chain].
  - cbn [fst snd]. auto.
  - apply skipn_cons in Hrest. destruct Hrest as (Hnth & Hrest).
    assert (Hw : word (bytecode it) q = Some w).
    { unfold word. destruct (q <? 0) eqn:Hn; [lia | exact Hnth]. }
    pose proof (parser_word_range _ _ _ _ Hpw Hw) as Hrange.
    change 0x20000000 with (2 * 2 ^ 28).
    rewrite (BitFacts.tag_test w 2 Hrange ltac:(lia)). fold (opcode w).
    destruct (opcode w =? 2) eqn:Hop; [|cbn [fst snd]; auto].
    apply Z.eqb_eq in Hop.
    pose proof (proj2 Hpw q w HP Hw) as Hstay. unfold stays in Hstay.
    rewrite Hop in Hstay. cbv beta iota in Hstay. destruct Hstay as (Htarget & Hnext).
    apply IH.
    + lia.
    + replace (Z.to_nat (q + 1)) with (S (Z.to_nat q)) by lia. exact Hrest.
    + exact Hnext.
    + cbn [Stack.push_state Stack.pointer]. lia.
    + exact (push_within P (with_stack it s) w symbols Hs Hp Htarget).
Qed.

Lemma reduce_index (it it' : StateIterator (R := R)) instruction index rd index' :
  reduce it instruction index rd = Done (index', it') ->
  index' = index \/ index' = index + 1.
Proof. unfold reduce. intros H. invert_run H; auto. Qed.

Lemma set_token_index (it it' : StateIterator (R := R)) instruction index index' :
  set_token it instruction index = Done (index', it') -> index' = index.
Proof. unfold set_token. intros H. invert_run H; reflexivity. Qed.

Lemma assert_consume_index (it it' : StateIterator (R := R)) index instruction index' :
  assert_consume it index instruction = Done (index', it') ->
  index' = index \/ index' = 2.
Proof. unfold assert_consume. intros H. invert_run H; auto. Qed.

Lemma fork_index fh (it it' : StateIterator (R := R)) instruction index index' :
  fork (Some fh) it instruction index = Done (index', it') -> index' = 0 \/ index' = 1.
Proof.
  unfold fork. intros H. destruct (fh _ _) as [buffer it1]. invert_run H; auto.
Qed.

Lemma scan_to_index fuel (it it' : StateIterator (R := R)) index instruction index' :
  scan_to scanner fuel it index instruction = Done (index', it') ->
  index' = 1 \/ index' = index + 1 + instruction mod 2 ^ 16.
Proof.
  unfold scan_to. rewrite BitFacts.and_0xFFFF. intros H. invert_run H; auto.
Qed.

Lemma index_jump_index (it it' : StateIterator (R := R)) index instruction index' :
  index_jump scanner it index instruction = Done (index', it') ->
  exists v, index' = index_jump_target (bytecode it) index instruction v.
Proof.
  unfold index_jump. intros H. invert_run H.
  apply (get_input_value_follows False True) in E. destruct E as (Hb & _).
  rewrite Hb. eauto.
Qed.

Lemma hash_jump_index fuel (it it' : StateIterator (R := R)) index instruction index' :
  hash_jump scanner fuel it index instruction = Done (index', it') ->
  exists v, hash_jump_target fuel (bytecode it) index instruction v = Done index'.
Proof.
  unfold hash_jump. intros H.
  destruct (get_input_value _ _ _ _ _) as [[v it1]| |] eqn:E; cbn [bind] in H;
    try discriminate.
  apply (get_input_value_follows False True) in E. destruct E as (Hb & _).
  rewrite Hb in H.
  destruct (hash_jump_target fuel (bytecode it) index instruction v) as [t| |] eqn:Ht;
    cbn [bind] in H; try discriminate.
  inversion H; subst. eauto.
Qed.

(** One turn of the instruction loop at a word of [P] ends in [P], with
    the states of the stack in [P]. *)
Lemma execute_within P fuel fh (it : StateIterator (R := R)) p w rd fm r :
  parser_words P (bytecode it) -> answers_nothing fh ->
  P p -> word (bytecode it) p = Some w ->
  stack_within P it -> 0 <= Stack.pointer (stack it) ->
  execute scanner fuel (Some fh) it w (p + 1) rd fm = Done r ->
  match r with
  | Continue j it' =>
      P j /\ bytecode it' = bytecode it /\ stack_within P it' /\
      0 <= Stack.pointer (stack it')
  | Return _ it' =>
      bytecode it' = bytecode it /\ stack_within P it' /\ 0 <= Stack.pointer (stack it')
  end.
Proof.
  intros Hpw Hfh HP Hw Hs Hp H.
  pose proof (proj2 Hpw p w HP Hw) as Hstay. unfold stays in Hstay.
  pose proof (word_some_range _ _ _ Hw) as Hin.
  assert (Hlevel :
    opcode w <> 2 -> opcode w <> 11 ->
    bytecode (match r with Continue _ it' => it' | Return _ it' => it' end) = bytecode it /\
    stack_within P (match r with Continue _ it' => it' | Return _ it' => it' end) /\
    0 <= Stack.pointer (stack (match r with Continue _ it' => it' | Return _ it' => it' end))).
  { intros H2 H11.
    pose proof (execute_follows False True scanner fuel fh it w (p + 1) rd fm r Hfh
                  (fun f : False => match f with end)
                  (fun _ => conj H2 H11) H) as (Hb & _ & _ & Hst & _).
    specialize (Hst I).
    split; [exact Hb|]. unfold stack_within. rewrite Hst. split; assumption. }
  unfold execute, continue in H.
  rewrite BitFacts.opcode_bits in H. fold (opcode w) in H.
  pose proof (opcode_range w) as Hr.
  assert (Hcases : opcode w = 0 \/ opcode w = 1 \/ opcode w = 2
                   \/ opcode w = 3 \/ opcode w = 4 \/ opcode w = 5 \/ opcode w = 6
                   \/ opcode w = 7 \/ opcode w = 8 \/ opcode w = 9 \/ opcode w = 10
                   \/ opcode w = 11 \/ opcode w = 12 \/ opcode w = 13 \/ opcode w = 14
                   \/ opcode w = 15) by lia.
  repeat (destruct Hcases as [Hop | Hcases];
          [rewrite Hop in H, Hstay, Hlevel; cbv beta iota in H, Hstay|]);
    try (rewrite Hcases in H, Hstay, Hlevel; cbv beta iota in H, Hstay).
  - invert_run H. apply Hlevel; lia.
  - invert_run H. split; [exact Hstay | apply Hlevel; lia].
  - (* GOTO *)
    clear Hlevel. destruct Hstay as (Htarget & Hnext).
    unfold goto in H. destruct (p + 1 <? 0) eqn:Hneg; [lia|].
    destruct (goto_chain_within P it (symbol_accumulator it) Hpw
                (skipn (Z.to_nat (p + 1)) (bytecode it)) (p + 1)
                (Stack.push_state (stack it) w (symbol_accumulator it)))
      as (HPj & Hp' & Hs');
      [lia | reflexivity | exact Hnext | cbn [Stack.push_state Stack.pointer]; lia
      | exact (push_within P it w (symbol_accumulator it) Hs Hp Htarget) |].
    destruct (goto_chain _ _ _ _) as [j s]. cbn [fst snd] in *.
    invert_run H. split; [exact HPj|]. split; [reflexivity|]. split; assumption.
  - invert_run H. split; [exact Hstay | apply Hlevel; lia].
  - invert_run H. pose proof (reduce_index _ _ _ _ _ _ E) as Hj.
    split; [|apply Hlevel; lia].
    destruct Hj as [-> | ->]; [apply Hstay|].
    replace (p + 1 + 1) with (p + 2) by lia. apply Hstay.
  - invert_run H. pose proof (set_token_index _ _ _ _ _ E) as ->.
    split; [apply Hstay | apply Hlevel; lia].
  - invert_run H. pose proof (fork_index _ _ _ _ _ _ E) as Hj.
    split; [|apply Hlevel; lia]. destruct Hj as [-> | ->]; apply Hstay.
  - invert_run H. pose proof (scan_to_index _ _ _ _ _ _ E) as Hj.
    split; [|apply Hlevel; lia].
    destruct Hj as [-> | ->]; [apply Hstay|].
    replace (p + 1 + 1 + w mod 2 ^ 16) with (p + 2 + w mod 2 ^ 16) by lia. apply Hstay.
  - invert_run H. pose proof (index_jump_index _ _ _ _ _ E) as (v & ->).
    split; [apply Hstay | apply Hlevel; lia].
  - invert_run H. pose proof (index_jump_index _ _ _ _ _ E) as (v & ->).
    split; [apply Hstay | apply Hlevel; lia].
  - invert_run H. pose proof (hash_jump_index _ _ _ _ _ _ E) as (v & Hv).
    split; [eapply Hstay; exact Hv | apply Hlevel; lia].
  - (* PUSH_FAIL_STATE *)
    clear Hlevel. destruct Hstay as (Htarget & Hnext). invert_run H.
    split; [exact Hnext|]. unfold push_fail_state. rewrite !shr_0, !ToUint32_idem.
    assert (Ht : P (target (JS.ToUint32 w)))
      by (unfold target in *; now rewrite ToUint32_idem).
    destruct (negb _).
    + split; [reflexivity|]. split; [now apply push_within|].
      fields. cbn [Stack.push_state Stack.pointer]. lia.
    + split; [reflexivity|]. split; [now apply swap_within|].
      fields. cbn [Stack.swap_state Stack.pointer]. lia.
  - invert_run H. split; [exact Hstay | apply Hlevel; lia].
  - invert_run H. unfold try_lazy. replace (p + 1 + 2) with (p + 3) by lia.
    split; [exact Hstay | apply Hlevel; lia].
  - invert_run H. pose proof (assert_consume_index _ _ _ _ _ E) as Hj.
    split; [|apply Hlevel; lia]. destruct Hj as [-> | ->]; apply Hstay.
  - invert_run H. apply Hlevel; lia.
Qed.

(** The instruction loop, entered at a word of [P]. *)
Lemma instruction_loop_tracked P m base fh fuel :
  answers_nothing fh ->
  forall (it : StateIterator (R := R)) p rd fm fm' it',
    parser_words P (bytecode it) -> P p ->
    stack_within P it -> 0 <= Stack.pointer (stack it) -> marked m base it ->
    instruction_loop scanner fuel (Some fh) it p rd fm = Done (fm', it') ->
    bytecode it' = bytecode it /\ stack_within P it' /\
    0 <= Stack.pointer (stack it') /\ marked m base it'.
Proof.
  intros Hfh. induction fuel as [|fuel IH]; intros it p rd fm fm' it' Hpw HP Hs Hp Hm H;
    [discriminate|].
  cbn [instruction_loop] in H.
  destruct (word (bytecode it) p) as [w|] eqn:Hw.
  - cbn [num] in H.
    destruct (execute scanner fuel (Some fh) it w (p + 1) rd fm) as [r| |] eqn:E;
      cbn [bind] in H; try discriminate.
    pose proof (execute_within P fuel fh it p w rd fm r Hpw Hfh HP Hw Hs Hp E) as Hin.
    assert (Hflag : opcode w = 5 -> JS.and w 0x08000000 = 0).
    { intros Hop. pose proof (proj2 Hpw p w HP Hw) as Hstay. unfold stays in Hstay.
      rewrite Hop in Hstay. apply Hstay. }
    pose proof (execute_marked m base fuel fh it w (p + 1) rd fm r Hfh Hflag E Hm)
      as Hm'.
    destruct r as [j it1|fm1 it1].
    + destruct Hin as (HPj & Hb & Hs1 & Hp1).
      destruct (IH it1 j rd fm fm' it') as (Hb' & Hs' & Hp' & Hmk); auto.
      * now rewrite Hb.
      * split; [congruence|]. auto.
    + inversion H; subst. destruct Hin as (Hb & Hs1 & Hp1). auto.
  - cbn in H. inversion H; subst. auto.
Qed.

(** The driver loop, over a stack of blocks of [P]: when it returns, the
    last thing it did was to report the action of the empty stack, and what
    it had reported up to then marks its gaps. *)
Lemma start_loop_tracked P m base fh fuel :
  answers_nothing fh ->
  forall root (it : StateIterator (R := R)) fm lgs it',
    parser_words P (bytecode it) -> stack_within P it -> marked m base it ->
    start_loop scanner fuel (Some fh) root it fm lgs = Done it' ->
    exists last fm' lgs',
      marked m base last /\
      it' = with_emitted last (emitted last ++ [final_action last root fm' lgs']).
Proof.
  intros Hfh. induction fuel as [|fuel IH]; intros root it fm lgs it' Hpw Hs Hm H;
    [discriminate|].
  cbn [start_loop] in H.
  destruct (Stack.pointer (stack it) <? 1) eqn:Hp.
  - apply emit_inv in H. exists it, fm, lgs. split; [exact Hm | exact H].
  - apply Z.ltb_ge in Hp. unfold Stack.pop_state in H.
    set (it1 := with_stack it _) in *.
    assert (Hpw1 : parser_words P (bytecode it1)) by exact Hpw.
    assert (Hs1 : stack_within P it1).
    { intros j Hj. subst it1. fields in *. cbn [Stack.state_stack Stack.pointer] in *.
      apply Hs. lia. }
    assert (Hm1 : marked m base it1)
      by (apply (marked_same m base it); [reflexivity | reflexivity | exact Hm]).
    destruct (Stack.read_state (stack it) >? 0); [|eapply IH; eauto].
    destruct (JS.truthy _); [|eapply IH; eauto].
    unfold instruction_executor in H.
    destruct (instruction_loop _ _ _ _ _ _ _) as [[fm1 it2]| |] eqn:E;
      cbn [bind] in H; try discriminate.
    apply (instruction_loop_tracked P m base fh fuel Hfh) in E; auto.
    + destruct E as (Hb & Hs2 & Hp2 & Hm2). eapply IH; [| | |exact H]; auto.
      now rewrite Hb.
    + apply Hs. lia.
    + subst it1. fields. cbn [Stack.pointer]. lia.
Qed.

End WithScanner.

End Marks.
(** * The token array, CONSUME and the debug stepper *)

Lemma set_last_snoc a b l x y :
  Tokens.set_last (mkTokens a b (l ++ [x])) y = mkTokens a b (l ++ [y]).
Proof.
  unfold Tokens.set_last. cbn [tokens_peek tokens_0 tokens_1].
  destruct (l ++ [x]) eqn:Hp.
  - apply app_eq_nil in Hp. destruct Hp as (_ & Hp). discriminate.
  - rewrite <- Hp, removelast_last. reflexivity.
Qed.

Section TokenArrays.

Context {R : Type} {BR : Reader.ByteReader R} {K : KernelConstants}.

Import Iterator.

Variable scanner : StateIterator (R := R) -> KernelToken -> Z -> outcome KernelToken.

Lemma read_input_live (it it' : StateIterator (R := R)) token input_type pointer v :
  read_input scanner it false token input_type pointer = Done (v, it') ->
  tokens_0 (tokens it') = tokens_0 (tokens it) /\
  tokens_peek (tokens it') = tokens_peek (tokens it).
Proof.
  unfold read_input. intros H. invert_run H; fields; auto.
Qed.

Lemma read_input_peeked (it it' : StateIterator (R := R)) token input_type pointer v a b l x :
  tokens it = mkTokens a b (l ++ [x]) ->
  read_input scanner it true token input_type pointer = Done (v, it') ->
  exists t, tokens it' = mkTokens a b (l ++ [t]).
Proof.
  unfold read_input. intros Ht H.
  invert_run H; fields; rewrite ?Ht, ?set_last_snoc; eauto.
Qed.

(** X15.  Reading an input value for the lookahead, away from the end of the
    input, leaves exactly the two live tokens in the array: every token a
    peek had appended is dropped, and the current token is not touched. *)
Theorem primary_read_drops_peeked_tokens (it : StateIterator (R := R))
    input_type transition pointer v it' :
  0 < input_type -> transition <> 1 ->
  Reader.END (reader it) = false ->
  get_input_value scanner it input_type transition pointer = Done (v, it') ->
  tokens_peek (tokens it') = [] /\ tokens_0 (tokens it') = tokens_0 (tokens it).
Proof.
  intros Hty Htr Hend H. unfold get_input_value in H.
  destruct (input_type >? 0) eqn:Hgt; [|lia].
  assert (Hbody :
    (let token := tokens_1 (tokens it) in
     if Tokens.length (tokens it) >? 2 then
       let it := with_tokens it (Tokens.truncate (tokens it)) in
       let '(ok, r) := Reader.setCursorTo (reader it) token in
       let it := with_reader it r in
       if negb ok then Done (0, error it)
       else
         let token := Token.set_type token 0 in
         let it := with_tokens_1 it token in
         read_input scanner it false token input_type pointer
     else read_input scanner it false token input_type pointer) = Done (v, it')).
  { rewrite Hend in H. destruct transition as [|[p|p|]|p]; congruence || exact H. }
  clear H. cbv zeta in Hbody.
  destruct (Tokens.length (tokens it) >? 2) eqn:Hlen.
  - fields in *. destruct (Reader.setCursorTo (reader it) (tokens_1 (tokens it))) as [ok r].
    destruct (negb ok).
    + inversion Hbody; subst. fields. auto.
    + apply read_input_live in Hbody. fields in *. destruct Hbody as (H0 & Hp).
      rewrite H0, Hp. auto.
  - apply read_input_live in Hbody. destruct Hbody as (H0 & Hp). rewrite H0, Hp.
    split; [|reflexivity]. unfold Tokens.length in Hlen.
    destruct (tokens_peek (tokens it)); [reflexivity|].
    cbn [List.length] in Hlen. rewrite Z.gtb_ltb in Hlen. apply Z.ltb_ge in Hlen. lia.
Qed.

(** X16.  Reading an input value for a peek leaves the two live tokens alone.  At
    the end of the input it answers 0 and appends nothing; otherwise it
    appends exactly one token to the array. *)
Theorem peek_read_appends_one_token (it : StateIterator (R := R))
    input_type pointer v it' :
  0 < input_type ->
  get_input_value scanner it input_type 1 pointer = Done (v, it') ->
  tokens_0 (tokens it') = tokens_0 (tokens it) /\
  tokens_1 (tokens it') = tokens_1 (tokens it) /\
  (if Reader.END (Reader.next (reader it) (byte_length (Tokens.last (tokens it))))
   then v = 0 /\ tokens_peek (tokens it') = tokens_peek (tokens it)
   else exists t, tokens_peek (tokens it') = tokens_peek (tokens it) ++ [t]).
Proof.
  intros Hty H. unfold get_input_value in H.
  destruct (input_type >? 0) eqn:Hgt; [|lia].
  cbv zeta iota in H. fields in *.
  destruct (Reader.END (Reader.next (reader it) (byte_length (Tokens.last (tokens it))))).
  - inversion H; subst. fields. auto.
  - eapply read_input_peeked in H.
    + destruct H as (t & Ht). rewrite Ht. fields. eauto.
    + fields. rewrite set_last_push. reflexivity.
Qed.

Lemma consume_parser_shape (it it1 : StateIterator (R := R)) w :
  SCANNER it = false -> consume it w = Done it1 ->
  SCANNER it1 = false /\
  tokens_0 (tokens it1) = tokens_1 (tokens it1) /\
  byte_length (tokens_1 (tokens it1)) = 0 /\
  codepoint_length (tokens_1 (tokens it1)) = 0 /\
  type (tokens_1 (tokens it1)) = 0.
Proof.
  intros Hrole H. unfold consume, advance_token in H.
  remember (if JS.truthy (JS.and w 1)
            then Token.set_byte_length (Token.set_codepoint_length (tokens_1 (tokens it)) 0) 0
            else tokens_1 (tokens it)) as tok eqn:Htok.
  clear Htok. fields in *. rewrite Hrole in H.
  destruct (emitShift _) as [it0| |] eqn:E; cbn [bind] in H; try discriminate.
  apply (emitShift_follows False False) in E. destruct E as (_ & Hs & _). fields in *.
  inversion H; subst it1. fields. rewrite Hs. auto.
Qed.

(** X17.  A CONSUME leaves the current token and the lookahead equal, empty and
    untyped, at the end of what it passed.  So a CONSUME that directly
    follows another, in the parser role, shifts that empty token, without a
    Skip, and does not move the reader's cursor by any byte. *)
Theorem consume_after_consume_shifts_empty_token (it it1 it2 : StateIterator (R := R)) w w' :
  SCANNER it = false ->
  consume it w = Done it1 ->
  consume it1 w' = Done it2 ->
  tokens_0 (tokens it1) = tokens_1 (tokens it1) /\
  byte_length (tokens_1 (tokens it1)) = 0 /\
  type (tokens_1 (tokens it1)) = 0 /\
  emitted it2 = emitted it1 ++ [SHIFT (tokens_1 (tokens it1))] /\
  reader it2 = Reader.next (reader it1) 0.
Proof.
  intros Hrole H1 H2.
  destruct (consume_parser_shape it it1 w Hrole H1) as (Hrole1 & H01 & Hbl & Hcl & Hty).
  split; [exact H01|]. split; [exact Hbl|]. split; [exact Hty|].
  clear H1. unfold consume, advance_token in H2.
  assert (Hsame : (if JS.truthy (JS.and w' 1)
                   then Token.set_byte_length
                          (Token.set_codepoint_length (tokens_1 (tokens it1)) 0) 0
                   else tokens_1 (tokens it1)) = tokens_1 (tokens it1)).
  { destruct (JS.truthy _); [|reflexivity].
    destruct (tokens_1 (tokens it1)); cbn in *. now subst. }
  rewrite Hsame in H2. clear Hsame.
  remember (tokens_1 (tokens it1)) as tok eqn:Htok.
  assert (Hset : with_tokens_1 it1 tok = it1).
  { subst tok. destruct it1 as [? ? [? ? ?] ? ? ? ? ? ? ?]. reflexivity. }
  rewrite Hset in H2. rewrite Hrole1 in H2. unfold emitShift, emit in H2. fields in *.
  rewrite <- Htok, H01, Hbl, Z.add_0_r, Z.eqb_refl in H2. cbn [negb bind] in H2.
  fields in *.
  destruct (handler it1 (SHIFT tok)); [discriminate|].
  cbn [bind] in H2. inversion H2; subst it2. fields. rewrite ?Hbl. auto.
Qed.

End TokenArrays.

Section UnknownMode.

Context {R : Type} {BR : Reader.ByteReader R} {K : KernelConstants}.

Import Iterator.

(** X19.  An ASSERT_CONSUME whose mode bits name neither class, codepoint nor
    byte compares nothing and measures nothing: it never takes the mismatch
    exit to word 2, and passes the lookahead with the length the token
    happens to have. *)
Theorem assert_consume_unknown_mode_never_fails (it it' : StateIterator (R := R))
    index instruction index' :
  asserted_input (reader it) (JS.and instruction 0x0F000000) = None ->
  assert_consume it index instruction = Done (index', it') ->
  index' = index /\
  reader it' = Reader.next (reader it) (byte_length (tokens_1 (tokens it))) /\
  byte_offset (tokens_1 (tokens it'))
  = byte_offset (tokens_1 (tokens it)) + byte_length (tokens_1 (tokens it)).
Proof.
  unfold asserted_input, assert_consume. intros Hmode H.
  destruct (JS.and instruction 0x0F000000 =? 0x00000000); [discriminate|].
  destruct (JS.and instruction 0x0F000000 =? 0x01000000); [discriminate|].
  destruct (JS.and instruction 0x0F000000 =? 0x02000000); [discriminate|].
  clear Hmode. unfold consume, advance_token in H.
  change (JS.truthy (JS.and 0 1)) with false in H. fields in *.
  assert (Hset : with_tokens_1 it (tokens_1 (tokens it)) = it)
    by (destruct it as [? ? [? ? ?] ? ? ? ? ? ? ?]; reflexivity).
  rewrite Hset in H. clear Hset.
  destruct (SCANNER it).
  - inversion H; subst. fields. auto.
  - destruct (emitShift it) as [it0| |] eqn:E; cbn [bind] in H; try discriminate.
    unfold emitShift in E. invert_run E.
    + apply emit_inv in E0. apply emit_inv in E. subst. inversion H; subst. fields. auto.
    + apply emit_inv in E. subst. inversion H; subst. fields. auto.
Qed.

(** X18.  SET_TOKEN with the flag 0x08 closes the current token at the lookahead:
    whether or not it consumes first, the current token then ends exactly
    where the lookahead begins, and its type and the production id are the
    value of the instruction. *)
Theorem set_token_closes_current_token (it it' : StateIterator (R := R))
    instruction index index' :
  JS.truthy (JS.and instruction 0x08000000) = true ->
  set_token it instruction index = Done (index', it') ->
  index' = index /\
  end_of (tokens_0 (tokens it')) = byte_offset (tokens_1 (tokens it')) /\
  type (tokens_0 (tokens it')) = instruction mod 2 ^ 24 /\
  production_id it' = instruction mod 2 ^ 24.
Proof.
  intros Hflag H. unfold set_token in H. rewrite Hflag in H.
  rewrite BitFacts.and_0xFFFFFF in H.
  destruct (JS.truthy (JS.and instruction 0x01000000)); invert_run H;
    unfold end_of; fields; repeat split; lia.
Qed.

End UnknownMode.

Section Advancing.

Context {R : Type} {BR : Reader.ByteReader R} {K : KernelConstants}.

Import Iterator.

(** X20.  The scanner never moves back: over a reader that measures no codepoint
    with a negative number of bytes, the token it returns for a token of
    non-negative length begins at or behind the one it was given, and has a
    non-negative length itself. *)
Theorem scanner_never_moves_back fuel (it : StateIterator (R := R)) current pointer token :
  measures R ->
  0 <= byte_length current ->
  scanner fuel it current pointer = Done token ->
  byte_offset current <= byte_offset token /\ 0 <= byte_length token.
Proof.
  intros Hm Hlen H. exact (scanner_advances_always Hm fuel it current pointer token Hlen H).
Qed.

End Advancing.

Section DebugSteps.

Context {R : Type} {BR : Reader.ByteReader R} {K : KernelConstants}.

(** X21.  A debug step on a snapshot whose stack is empty always returns.  The
    snapshot it returns is inactive and holds one action, the one [start]
    reports on an empty stack for the restored iterator, in the fail mode
    and with the last good state of the snapshot it was given. *)
Theorem next_state_on_empty_stack_finalizes fuel (d : Debug.DebugIterator (R := R))
    prev goal :
  Stack.pointer (Debug.stack prev) < 1 ->
  exists snapshot d' restored action,
    Debug.next_state fuel d prev goal = Done (snapshot, d') /\
    Debug.ACTIVE snapshot = false /\
    Debug.actions snapshot = [action] /\
    Iterator.tokens restored = Tokens.deep_copy (Debug.tokens prev) /\
    Iterator.production_id restored = Debug.production_id prev /\
    Iterator.reader restored = Reader.clone (Debug.byte_reader prev) /\
    Iterator.SCANNER restored = Iterator.SCANNER (Debug.base d) /\
    finalizes restored goal (Debug.fail_mode prev) (Debug.last_good_state prev) action.
Proof.
  intros Hp. unfold Debug.next_state. unfold Stack.clone. fields.
  destruct (Stack.pointer (Debug.stack prev) <? 1) eqn:He; [|lia].
  unfold Iterator.emit. fields. cbn [bind].
  do 2 eexists.
  match goal with
  | |- context [Iterator.final_action ?x _ _ _] => exists x
  end.
  eexists. split; [reflexivity|]. cbn [Debug.ACTIVE Debug.actions]. fields.
  repeat split. apply final_action_finalizes.
Qed.

(** X22.  A debug step that finds a state on top of the stack which the mode of
    the snapshot does not let run drops that state and returns a snapshot
    that is no longer in fail mode, whatever the mode was: stepping out of a
    failure by [next_state] leaves fail mode at the first state that is
    skipped, where [start] stays in it.  The step reports nothing. *)
Theorem next_state_skipping_a_state_leaves_fail_mode fuel (d : Debug.DebugIterator (R := R))
    prev goal :
  1 <= Stack.pointer (Debug.stack prev) ->
  JS.truthy (JS.and (Stack.read_state (Debug.stack prev))
                    (JS.shl normal_state_mask (JS.of_bool (Debug.fail_mode prev)))) = false ->
  exists snapshot d',
    Debug.next_state fuel d prev goal = Done (snapshot, d') /\
    Debug.fail_mode snapshot = false /\
    Debug.ACTIVE snapshot = true /\
    Debug.actions snapshot = [] /\
    Stack.pointer (Debug.stack snapshot) = Stack.pointer (Debug.stack prev) - 1.
Proof.
  intros Hp Hgate. unfold Debug.next_state. unfold Stack.clone, Stack.debug_clone. fields.
  destruct (Stack.pointer (Debug.stack prev) <? 1) eqn:He; [lia|].
  unfold Stack.pop_state. rewrite Hgate.
  destruct (Stack.read_state (Debug.stack prev) >? 0);
    (do 2 eexists; split; [reflexivity|]);
    cbn [Debug.fail_mode Debug.ACTIVE Debug.actions Debug.stack]; fields;
    cbn [Stack.pointer]; auto.
Qed.

End DebugSteps.

(** A byte read for the lookahead while one peeked token is in the array. *)
Lemma primary_read_drops_peeked_tokens_witness :
  let fresh := Iterator.new (Sample.reader_of [120; 121]) Sample.xy_image Sample.xy_entry false in
  let it := Iterator.with_tokens fresh
              (Tokens.push (Iterator.tokens fresh) (mkToken 1 1 1 1 0 0 0)) in
  0 < 4 /\ 0 <> 1 /\ Reader.END (Iterator.reader it) = false /\
  exists v it',
    Iterator.get_input_value (Iterator.scanner 5) it 4 0 0 = Done (v, it') /\
    tokens_peek (Iterator.tokens it') = [] /\
    tokens_0 (Iterator.tokens it') = tokens_0 (Iterator.tokens it).
Proof.
  intros fresh it.
  split; [lia|]. split; [discriminate|]. split; [reflexivity|].
  destruct (Iterator.get_input_value (Iterator.scanner 5) it 4 0 0) as [[v it']| |] eqn:Hrun;
    [|vm_compute in Hrun; discriminate|vm_compute in Hrun; discriminate].
  exists v, it'. split; [reflexivity|].
  exact (primary_read_drops_peeked_tokens (Iterator.scanner 5) it 4 0 0 v it'
           ltac:(lia) ltac:(discriminate) eq_refl Hrun).
Defined.

(** A byte peeked behind a lookahead of one byte. *)
Lemma peek_read_appends_one_token_witness :
  let fresh := Iterator.new (Sample.reader_of [120; 121]) Sample.xy_image Sample.xy_entry false in
  let it := Iterator.with_tokens_1 fresh (mkToken 0 1 0 1 0 0 0) in
  0 < 4 /\
  exists v it',
    Iterator.get_input_value (Iterator.scanner 5) it 4 1 0 = Done (v, it') /\
    tokens_1 (Iterator.tokens it') = tokens_1 (Iterator.tokens it) /\
    v = 121 /\
    tokens_peek (Iterator.tokens it') = [mkToken 1 1 0 1 0 0 0].
Proof.
  intros fresh it. split; [lia|].
  destruct (Iterator.get_input_value (Iterator.scanner 5) it 4 1 0) as [[v it']| |] eqn:Hrun;
    [|vm_compute in Hrun; discriminate|vm_compute in Hrun; discriminate].
  exists v, it'. split; [reflexivity|].
  pose proof (peek_read_appends_one_token (Iterator.scanner 5) it 4 0 v it'
                ltac:(lia) Hrun) as (_ & Hlive & _).
  split; [exact Hlive|].
  vm_compute in Hrun. inversion Hrun. split; reflexivity.
Defined.

(** Two CONSUMEs in a row behind a lookahead of one byte. *)
Lemma consume_after_consume_shifts_empty_token_witness :
  let fresh := Iterator.new (Sample.reader_of [120; 121]) Sample.xy_image Sample.xy_entry false in
  let it := Iterator.with_tokens_1 fresh (mkToken 0 1 0 1 0 0 0) in
  Iterator.SCANNER it = false /\
  exists it1 it2,
    Iterator.consume it 0x10000000 = Done it1 /\
    Iterator.consume it1 0x10000000 = Done it2 /\
    Iterator.emitted it2
    = [SHIFT (mkToken 0 1 0 1 0 0 0); SHIFT (mkToken 1 0 1 0 0 0 0)].
Proof.
  intros fresh it. split; [reflexivity|].
  destruct (Iterator.consume it 0x10000000) as [it1| |] eqn:H1;
    [|vm_compute in H1; discriminate|vm_compute in H1; discriminate].
  destruct (Iterator.consume it1 0x10000000) as [it2| |] eqn:H2;
    [|vm_compute in H1; inversion H1; subst it1; vm_compute in H2; discriminate
     |vm_compute in H1; inversion H1; subst it1; vm_compute in H2; discriminate].
  exists it1, it2. split; [reflexivity|]. split; [exact H2|].
  pose proof (consume_after_consume_shifts_empty_token it it1 it2 0x10000000 0x10000000
                eq_refl H1 H2) as (_ & _ & _ & Hem & _).
  rewrite Hem. vm_compute in H1. inversion H1. reflexivity.
Defined.

(** An ASSERT_CONSUME with mode bits 3, in the scanner role. *)
Lemma assert_consume_unknown_mode_never_fails_witness :
  let it := Iterator.with_tokens_1
              (Iterator.new (Sample.reader_of [120; 121]) Sample.xy_image Sample.xy_entry true)
              (mkToken 0 1 0 1 0 0 0) in
  asserted_input (Iterator.reader it) (JS.and 0xE3000041 0x0F000000) = None /\
  exists it',
    Iterator.assert_consume it 4 0xE3000041 = Done (4, it') /\
    byte_offset (tokens_1 (Iterator.tokens it')) = 1.
Proof.
  intros it.
  assert (Hmode : asserted_input (Iterator.reader it) (JS.and 0xE3000041 0x0F000000) = None)
    by reflexivity.
  split; [exact Hmode|].
  destruct (Iterator.assert_consume it 4 0xE3000041) as [[index' it']| |] eqn:Hrun;
    [|vm_compute in Hrun; discriminate|vm_compute in Hrun; discriminate].
  destruct (assert_consume_unknown_mode_never_fails it it' 4 0xE3000041 index' Hmode Hrun)
    as (-> & _ & Hoff).
  exists it'. split; [reflexivity | exact Hoff].
Defined.

(** The SET_TOKEN that types a blank as skipped input in the sample lexer,
    behind a consumed byte. *)
Lemma set_token_closes_current_token_witness :
  let it := Iterator.with_tokens_1
              (Iterator.new (Sample.reader_of [32; 88]) Sample.lexer_image
                            Sample.lexer_entry true)
              (mkToken 1 0 1 0 0 0 0) in
  JS.truthy (JS.and 0x58002331 0x08000000) = true /\
  exists it',
    Iterator.set_token it 0x58002331 10 = Done (10, it') /\
    end_of (tokens_0 (Iterator.tokens it')) = byte_offset (tokens_1 (Iterator.tokens it')) /\
    type (tokens_0 (Iterator.tokens it')) = 9009.
Proof.
  intros it.
  assert (Hflag : JS.truthy (JS.and 0x58002331 0x08000000) = true) by reflexivity.
  split; [exact Hflag|].
  destruct (Iterator.set_token it 0x58002331 10) as [[index' it']| |] eqn:Hrun;
    [|vm_compute in Hrun; discriminate|vm_compute in Hrun; discriminate].
  destruct (set_token_closes_current_token it it' 0x58002331 10 index' Hflag Hrun)
    as (-> & Hend & Hty & _).
  exists it'. split; [reflexivity|]. split; [exact Hend | exact Hty].
Defined.

(** The sample scanner, started before two blanks and an 'X'. *)
Lemma scanner_never_moves_back_witness :
  let it := Iterator.new (Sample.reader_of [32; 32; 88]) Sample.lexer_image
                         Sample.shift_all_entry false in
  let current := tokens_1 (Iterator.tokens it) in
  measures Sample.AsciiReader /\
  0 <= byte_length current /\
  exists token,
    Iterator.scanner 30 it current Sample.lexer_entry = Done token /\
    byte_offset current <= byte_offset token /\ 0 <= byte_length token.
Proof.
  intros it current.
  assert (Hm : measures Sample.AsciiReader) by (intros r; cbn; lia).
  assert (Hlen : 0 <= byte_length current) by (cbn; lia).
  split; [exact Hm|]. split; [exact Hlen|].
  destruct (Iterator.scanner 30 it current Sample.lexer_entry) as [token| |] eqn:Hrun;
    [|vm_compute in Hrun; discriminate|vm_compute in Hrun; discriminate].
  exists token. split; [reflexivity|].
  exact (scanner_never_moves_back 30%nat it current Sample.lexer_entry token Hm Hlen Hrun).
Defined.

(** A debug step on a snapshot whose stack has been emptied, at the end of
    the input. *)
Lemma next_state_on_empty_stack_finalizes_witness :
  let d := Debug.new (Sample.reader_of []) Sample.xy_image Sample.xy_entry in
  let prev := Debug.mkDebugState 0 true Stack.new
                (Debug.tokens (Debug.active_debug_state d)) 0 (-1) false (-1)
                (Sample.reader_of []) [] in
  Stack.pointer (Debug.stack prev) < 1 /\
  exists snapshot d',
    Debug.next_state 5 d prev (-1) = Done (snapshot, d') /\
    Debug.ACTIVE snapshot = false /\
    Debug.actions snapshot = [ACCEPT].
Proof.
  intros d prev.
  assert (Hp : Stack.pointer (Debug.stack prev) < 1) by (cbn; lia).
  split; [exact Hp|].
  destruct (next_state_on_empty_stack_finalizes 5%nat d prev (-1) Hp)
    as (snapshot & d' & restored & action & Hrun & Hact & Hone & _).
  exists snapshot, d'. split; [exact Hrun|]. split; [exact Hact|].
  vm_compute in Hrun. inversion Hrun. reflexivity.
Defined.

(** A debug step in fail mode on the fresh snapshot, whose only state
    carries the normal bit. *)
Lemma next_state_skipping_a_state_leaves_fail_mode_witness :
  let d := Debug.new (Sample.reader_of [120]) Sample.xy_image Sample.xy_entry in
  let fresh := Debug.active_debug_state d in
  let prev := Debug.mkDebugState (Debug.state fresh) true (Debug.stack fresh)
                (Debug.tokens fresh) 0 (-1) true (-1) (Debug.byte_reader fresh) [] in
  1 <= Stack.pointer (Debug.stack prev) /\
  JS.truthy (JS.and (Stack.read_state (Debug.stack prev))
                    (JS.shl normal_state_mask (JS.of_bool (Debug.fail_mode prev)))) = false /\
  exists snapshot d',
    Debug.next_state 5 d prev (-1) = Done (snapshot, d') /\
    Debug.fail_mode snapshot = false /\
    Debug.actions snapshot = [].
Proof.
  intros d fresh prev.
  assert (Hp : 1 <= Stack.pointer (Debug.stack prev)) by (cbn; lia).
  assert (Hgate : JS.truthy
                    (JS.and (Stack.read_state (Debug.stack prev))
                       (JS.shl normal_state_mask (JS.of_bool (Debug.fail_mode prev)))) = false)
    by reflexivity.
  split; [exact Hp|]. split; [exact Hgate|].
  destruct (next_state_skipping_a_state_leaves_fail_mode 5%nat d prev (-1) Hp Hgate)
    as (snapshot & d' & Hrun & Hfm & _ & Hact & _).
  exists snapshot, d'. split; [exact Hrun|]. split; [exact Hfm | exact Hact].
Defined.
(** * Shifts, Skips and the input *)

Section ShiftsAndSkips.

Context {R : Type} {BR : Reader.ByteReader R} {K : KernelConstants}.

Import Iterator.

Lemma marked_final m base (last : StateIterator (R := R)) root fm lgs :
  marked m base last ->
  marked m base (with_emitted last (emitted last ++ [final_action last root fm lgs])).
Proof.
  intros Hm. destruct (final_action_terminal last root fm lgs) as (Ht & _).
  apply (marked_more m base last _ [final_action last root fm lgs]); fields;
    try reflexivity;
    destruct (final_action last root fm lgs); cbn in *; tauto.
Qed.

(** C3, as the code has it.  [emitShift] reports the lookahead token as a
    Shift, and a Skip right before it exactly when the lookahead does not
    begin where the current token, tokens[0], ends.  CONSUME in the parser
    role then makes the current token end where the shifted token ends.
    Over a whole session the tokens shifted come in input order, each
    beginning at or behind the end of the one before, and no Skip is
    reported but right before a Shift.  The current token is moved by
    nothing else but the SET_TOKEN of the form that closes it (flag 0x08),
    which makes it end where the lookahead begins.  So in a session whose
    own words, those of a set closed under the control flow of the image,
    hold no such SET_TOKEN, the blocks of the nested scanner being free to,
    a Skip leads a Shift exactly when the shifted token does not begin
    where the token shifted before it has ended, or where the current
    token ended at the start of the session for the first Shift. *)
Theorem shifts_in_input_order :
  (forall (it it' : StateIterator (R := R)),
     emitShift it = Done it' ->
     let prev_token := tokens_0 (tokens it) in
     let token := tokens_1 (tokens it) in
     (byte_offset prev_token + byte_length prev_token <> byte_offset token ->
      emitted it' = emitted it ++ [skip_between prev_token token; SHIFT token]) /\
     (byte_offset prev_token + byte_length prev_token = byte_offset token ->
      emitted it' = emitted it ++ [SHIFT token])) /\
  (measures R ->
   forall fuel (it it' : StateIterator (R := R)) sink fh root,
     replays_no_shift fh ->
     orderly it ->
     start fuel it sink fh root = Done it' ->
     in_input_order (emitted it') /\ skips_lead_shifts (emitted it')) /\
  (forall (it it' : StateIterator (R := R)) instruction,
     SCANNER it = false ->
     consume it instruction = Done it' ->
     exists t,
       List.last (emitted it') ACCEPT = SHIFT t /\
       byte_offset t = byte_offset (tokens_1 (tokens it)) /\
       end_of (tokens_0 (tokens it')) = end_of t) /\
  (forall (P : Z -> Prop) fuel (it it' : StateIterator (R := R)) sink fh root,
     parser_words P (bytecode it) ->
     stack_within P it ->
     answers_nothing fh ->
     start fuel it sink fh root = Done it' ->
     exists body,
       emitted it' = emitted it ++ body /\
       skips_mark_gaps (end_of (tokens_0 (tokens it))) body).
Proof.
  split; [|split; [|split]].
  - intros it it' H prev_token token. unfold emitShift in H. fields in *.
    fold prev_token token in H.
    destruct (byte_offset prev_token + byte_length prev_token =? byte_offset token) eqn:Hgap;
      cbn [negb] in H; invert_run H.
    + apply emit_inv in H. subst it'. fields. split; [lia | reflexivity].
    + apply emit_inv in E. subst. apply emit_inv in H. subst it'. fields.
      split; [|lia]. intros _. now rewrite <- app_assoc.
  - intros Hm fuel it it' sink fh root Hfh Hord Hrun.
    unfold start, start_with in Hrun.
    apply (start_loop_orderly Hm (scanner fuel) (scanner_advances_always Hm fuel)
             fh fuel Hfh) in Hrun.
    + destruct Hrun as (last & fm' & lgs' & Hlast & ->).
      destruct (orderly_final last root fm' lgs' Hlast) as [_ _ _ H4 _ H6 _].
      split; [exact H4 | apply skips_paired_lead; exact H6].
    + destruct (SCANNER (with_handler it sink));
        (apply (orderly_tokens_moved it); fields; try reflexivity; try lia; apply Hord).
  - intros it it' instruction Hrole H. unfold consume, advance_token in H.
    set (token := if JS.truthy (JS.and instruction 1)
                  then Token.set_byte_length
                         (Token.set_codepoint_length (tokens_1 (tokens it)) 0) 0
                  else tokens_1 (tokens it)) in *.
    assert (Hoff : byte_offset token = byte_offset (tokens_1 (tokens it)))
      by (subst token; destruct (JS.truthy _); reflexivity).
    change (SCANNER (with_tokens_1 it token)) with (SCANNER it) in H.
    rewrite Hrole in H. unfold emitShift in H. fields in *.
    exists token.
    match type of H with context [if ?c then _ else _] => destruct c end.
    + invert_run H. apply emit_inv in E0, E. subst. fields.
      rewrite last_last. split; [reflexivity|]. split; [exact Hoff|].
      unfold end_of. fields. lia.
    + invert_run H. apply emit_inv in E. subst. fields.
      rewrite last_last. split; [reflexivity|]. split; [exact Hoff|].
      unfold end_of. fields. lia.
  - intros P fuel it it' sink fh root Hpw Hs Hfh Hrun.
    unfold start, start_with in Hrun.
    apply (start_loop_tracked (scanner fuel) P (end_of (tokens_0 (tokens it))) (emitted it)
             fh fuel Hfh) in Hrun.
    + destruct Hrun as (last & fm' & lgs' & Hlast & ->).
      destruct (marked_final _ _ last root fm' lgs' Hlast) as (body & Hb & Hg & _).
      exists body. split; assumption.
    + destruct (SCANNER (with_handler it sink)); exact Hpw.
    + destruct (SCANNER (with_handler it sink)); exact Hs.
    + exists []. rewrite app_nil_r.
      destruct (SCANNER (with_handler it sink)); fields;
        (split; [reflexivity|]); (split; [reflexivity|]); reflexivity.
Qed.

End ShiftsAndSkips.

(** The words the parser executes in the block at word 19 of the sample
    image: the jump, its default, and the row that shifts and repeats. *)
Lemma shift_all_block_words :
  parser_words (fun p => In p [19; 22; 24; 25]) Sample.lexer_image.
Proof.
  split; [repeat constructor; vm_compute; congruence|].
  intros p w HP Hw. cbn [In] in HP.
  destruct HP as [<-|[<-|[<-|[<-|[]]]]]; vm_compute in Hw; inversion Hw; subst w;
    unfold stays;
    match goal with
    | |- context [opcode ?x] => let v := eval vm_compute in (opcode x) in
                                change (opcode x) with v
    end; cbv beta iota.
  - intros v. unfold Iterator.index_jump_target.
    change (JS.and 2420113415 0xFFFF) with 7.
    change (num (word Sample.lexer_image (19 + 1 + 1))) with 0x00010002.
    change (JS.sar 0x00010002 16) with 1.
    change (JS.and 0x00010002 0xFFFF) with 2.
    destruct ((v - 7 >=? 0) && (v - 7 <? 1)) eqn:Hrow.
    + apply andb_prop in Hrow. destruct Hrow as (Hlo & Hhi).
      apply Z.geb_le in Hlo. apply Z.ltb_lt in Hhi.
      replace v with 7 by lia. vm_compute. tauto.
    + vm_compute. tauto.
  - exact I.
  - vm_compute. tauto.
  - vm_compute. tauto.
Qed.

(** C3 on the sample image that shifts every token of type 7, before the
    input [X], two blanks, [X]: the second Shift is led by a Skip, the
    first is not. *)
Lemma shifts_in_input_order_witness :
  let it := Iterator.new (Sample.reader_of [88; 32; 32; 88]) Sample.lexer_image
                         Sample.shift_all_entry false in
  let P := fun p => In p [19; 22; 24; 25] in
  measures Sample.AsciiReader /\
  replays_no_shift (Iterator.no_forks (R := Sample.AsciiReader)) /\
  orderly it /\
  parser_words P (Iterator.bytecode it) /\
  stack_within P it /\
  answers_nothing (Iterator.no_forks (R := Sample.AsciiReader)) /\
  exists it',
    Iterator.start 40 it Sample.quiet Iterator.no_forks (-1) = Done it' /\
    Iterator.emitted it'
      = [SHIFT (mkToken 0 1 0 1 0 0 7); SKIP 1 2 0 0; SHIFT (mkToken 3 1 3 1 0 0 7); ACCEPT] /\
    in_input_order (Iterator.emitted it') /\
    skips_lead_shifts (Iterator.emitted it') /\
    exists body,
      Iterator.emitted it' = Iterator.emitted it ++ body /\
      skips_mark_gaps (end_of (tokens_0 (Iterator.tokens it))) body.
Proof.
  intros it P.
  assert (Hm : measures Sample.AsciiReader) by (intros r; cbn; lia).
  assert (Hfh : replays_no_shift (Iterator.no_forks (R := Sample.AsciiReader)))
    by (intros a i; repeat split; constructor).
  assert (Hord : orderly it) by (constructor; cbn; try lia; constructor).
  assert (Hpw : parser_words P (Iterator.bytecode it)) by exact shift_all_block_words.
  assert (Hs : stack_within P it).
  { intros j Hj.
    assert (Hptr : Stack.pointer (Iterator.stack it) = 1) by reflexivity.
    rewrite Hptr in Hj. assert (Hone : j = 1) by lia. subst j.
    vm_compute. tauto. }
  assert (Hno : answers_nothing (Iterator.no_forks (R := Sample.AsciiReader)))
    by (intros a i; reflexivity).
  split; [exact Hm|]. split; [exact Hfh|]. split; [exact Hord|].
  split; [exact Hpw|]. split; [exact Hs|]. split; [exact Hno|].
  destruct (Iterator.start 40 it Sample.quiet Iterator.no_forks (-1)) as [it'| |] eqn:Hrun;
    [|vm_compute in Hrun; discriminate|vm_compute in Hrun; discriminate].
  exists it'. split; [reflexivity|].
  split; [vm_compute in Hrun; inversion Hrun; reflexivity|].
  destruct shifts_in_input_order as (_ & Hsorted & _ & Hgaps).
  destruct (Hsorted Hm 40%nat it it' Sample.quiet Iterator.no_forks (-1) Hfh Hord Hrun)
    as (H1 & H2).
  split; [exact H1|]. split; [exact H2|].
  exact (Hgaps P 40%nat it it' Sample.quiet Iterator.no_forks (-1) Hpw Hs Hno Hrun).
Defined.

(** C3 as stated fails on the image whose shifting row closes the current
    token first.  Before the input [X], two blanks, [X] the scanner skips
    the blanks, so the second X begins at byte 3, two bytes behind the end
    of the first; the SET_TOKEN stretches the current token up to there,
    and the X is shifted with no Skip before it. *)
Lemma shift_after_stretch_has_no_skip :
  let it := Iterator.new (Sample.reader_of [88; 32; 32; 88]) Sample.stretch_image
                         Sample.shift_all_entry false in
  image_ok Sample.stretch_image /\
  exists it',
    Iterator.start 40 it Sample.quiet Iterator.no_forks (-1) = Done it' /\
    Iterator.emitted it'
      = [SHIFT (mkToken 0 1 0 1 0 0 7); SHIFT (mkToken 3 1 3 1 0 0 7); ACCEPT] /\
    byte_offset (mkToken 3 1 3 1 0 0 7) <> end_of (mkToken 0 1 0 1 0 0 7) /\
    ~ skips_mark_gaps 0 (Iterator.emitted it').
Proof.
  cbv zeta. split; [repeat constructor; vm_compute; congruence|].
  eexists. split; [vm_compute; reflexivity|].
  split; [reflexivity|]. split; [vm_compute; congruence|].
  cbn. unfold skips_mark_gaps. cbn. unfold end_of. cbn. intros (_ & Hgap & _). lia.
Qed.
